(** * Snekbox cog: code extraction, output formatting and the eval session

    A shallow embedding of [bot/exts/utils/snekbox.py].

    Python strings are sequences of Unicode code points; they are modelled
    as lists of code points ([N]).  The regular expressions of the module
    are kept as syntax trees and run by a backtracking matcher that follows
    the priority rules of Python's [re] module (leftmost alternative first,
    greedy and lazy repetition, named groups, backreferences, conditional
    groups).  The job registry [self.jobs] is a finite map. *)

From Stdlib Require Import NArith ZArith Ascii String Bool Lia.
From stdpp Require Import base option list gmap.

Local Open Scope N_scope.
Local Open Scope nat_scope.
Local Open Scope list_scope.

(** ** Python [str] *)

Module Str.

Definition char := N.
Definition str := list char.

(** ASCII literals of the source, written as Rocq strings. *)
Definition u (s : string) : str := map N_of_ascii (list_ascii_of_string s).

Definition NL : char := 10%N.
Definition TAB : char := 9%N.
Definition SP : char := 32%N.
Definition BACKTICK : char := 96%N.
Definition ZWSP : char := 8203%N.      (* U+200B *)
Definition RLO : char := 8238%N.       (* U+202E *)

Definition is_nl (c : char) : bool := N.eqb c NL.

(** [Py_UNICODE_ISSPACE]: the characters removed by [str.strip()] and
    matched by [\s] in a [str] pattern. *)
Definition isspace (c : char) : bool :=
  (N.leb 9 c && N.leb c 13) || (N.leb 28 c && N.leb c 32)
  || N.eqb c 133 || N.eqb c 160 || N.eqb c 5760
  || (N.leb 8192 c && N.leb c 8202)
  || N.eqb c 8232 || N.eqb c 8233 || N.eqb c 8239 || N.eqb c 8287
  || N.eqb c 12288.

(** [Py_UNICODE_ISDECIMAL]: the characters matched by [\d] in a [str]
    pattern (general category Nd; every block is a run of ten digits,
    but for the mathematical digits U+1D7CE..U+1D7FF). *)
Definition decimal_blocks : list N :=
  [48; 1632; 1776; 1984; 2406; 2534; 2662; 2790; 2918; 3046; 3174; 3302;
   3430; 3558; 3664; 3792; 3872; 4160; 4240; 6112; 6160; 6470; 6608; 6784;
   6800; 6992; 7088; 7232; 7248; 42528; 43216; 43264; 43472; 43504; 43600;
   44016; 65296; 66720; 68912; 69734; 69872; 69942; 70096; 70384; 70736;
   70864; 71248; 71360; 71472; 71904; 72016; 72784; 73040; 73120; 92768;
   92864; 93008; 123200; 123632; 125264; 130032]%N.

Definition isdecimal (c : char) : bool :=
  existsb (fun b => N.leb b c && N.leb c (b + 9)) decimal_blocks
  || (N.leb 120782 c && N.leb c 120831).

(** [s.rstrip(chars)] and [s.lstrip(chars)] for a set of characters given
    as a predicate. *)
Fixpoint lstrip (p : char -> bool) (s : str) : str :=
  match s with
  | c :: t => if p c then lstrip p t else s
  | [] => []
  end.

Definition rstrip (p : char -> bool) (s : str) : str :=
  rev (lstrip p (rev s)).

(** The longest prefix of characters in [p]. *)
Fixpoint take_while (p : char -> bool) (s : str) : str :=
  match s with
  | c :: t => if p c then c :: take_while p t else []
  | [] => []
  end.

(** [s.strip()] *)
Definition strip (s : str) : str := rstrip isspace (lstrip isspace s).

(** [s.startswith(w)]; on success the remainder of [s] is returned. *)
Fixpoint strip_prefix (w s : str) : option str :=
  match w, s with
  | [], _ => Some s
  | a :: w', b :: s' => if N.eqb a b then strip_prefix w' s' else None
  | _ :: _, [] => None
  end.

Definition startswith (s w : str) : bool :=
  match strip_prefix w s with Some _ => true | None => false end.

(** [w in s] *)
Fixpoint contains (w s : str) : bool :=
  match s with
  | [] => startswith [] w
  | _ :: t => startswith s w || contains w t
  end.

(** [s.count("\n")] *)
Fixpoint count_nl (s : str) : nat :=
  match s with
  | [] => 0
  | c :: t => if is_nl c then S (count_nl t) else count_nl t
  end.

(** [s.split("\n")]: always at least one piece. *)
Fixpoint split_nl (s : str) : list str :=
  match s with
  | [] => [[]]
  | c :: t =>
      if is_nl c then [] :: split_nl t
      else match split_nl t with
           | l :: ls => (c :: l) :: ls
           | [] => [[c]]
           end
  end.

(** ["\n".join(ls)] *)
Fixpoint join_nl (ls : list str) : str :=
  match ls with
  | [] => []
  | [l] => l
  | l :: ls' => l ++ NL :: join_nl ls'
  end.

(** [s.rsplit("\n", 1)]: one piece when [s] has no newline, otherwise
    the text before the last newline and the text after it. *)
Fixpoint rsplit1_nl (s : str) : str * option str :=
  match s with
  | [] => ([], None)
  | c :: t =>
      match rsplit1_nl t with
      | (a, Some b) => (c :: a, Some b)
      | (a, None) => if is_nl c then ([], Some a) else (c :: a, None)
      end
  end.

(** [s.replace(old, new)] for a non-empty [old]: occurrences are replaced
    from left to right, without overlap.  [skip] counts the characters of
    the occurrence being replaced that are still to be passed over. *)
Fixpoint replace_from (old new : str) (skip : nat) (s : str) : str :=
  match s with
  | [] => []
  | c :: t =>
      match skip with
      | S k => replace_from old new k t
      | 0 =>
          if startswith s old
          then new ++ replace_from old new (length old - 1) t
          else c :: replace_from old new 0 t
      end
  end.

Definition replace (old new s : str) : str := replace_from old new 0 s.

(** Decimal rendering of a natural number, [str(n)]. *)
Definition digit (n : nat) : char := N.of_nat (48 + n).

Fixpoint digits_fuel (fuel n : nat) (acc : str) : str :=
  match fuel with
  | 0 => acc
  | S f =>
      let acc' := digit (n mod 10) :: acc in
      if n / 10 =? 0 then acc' else digits_fuel f (n / 10) acc'
  end.

Definition of_nat (n : nat) : str := digits_fuel (S n) n [].

(** [f"{n:03d}"]: at least three digits, padded with zeros. *)
Definition pad3 (n : nat) : str :=
  let d := of_nat n in
  replicate (3 - length d) (digit 0) ++ d.

Definition CR : char := 13%N.

(** [Py_UNICODE_ISLINEBREAK]: the characters at which [str.splitlines]
    cuts: LF, VT, FF, CR, FS, GS, RS, NEL, LS and PS. *)
Definition is_linebreak (c : char) : bool :=
  (N.leb 10 c && N.leb c 13) || (N.leb 28 c && N.leb c 30)
  || N.eqb c 133 || N.eqb c 8232 || N.eqb c 8233.

(** [s.splitlines(True)]: the lines with their line breaks; CR LF is one
    line break; the empty text has no line. *)
Fixpoint splitlines (s : str) : list str :=
  match s with
  | [] => []
  | c :: t =>
      if is_linebreak c then
        match t with
        | d :: t' =>
            if N.eqb c CR && N.eqb d NL
            then [c; d] :: splitlines t'
            else [c] :: splitlines t
        | [] => [[c]]
        end
      else
        match splitlines t with
        | l :: ls => (c :: l) :: ls
        | [] => [[c]]
        end
  end.

End Str.

(** ** A backtracking matcher for the [re] patterns of the module *)

Module Re.
Import Str.

(** The named groups of the patterns. *)
Inductive gname := g_delim | g_block | g_lang | g_code.

Definition gname_eqb (a b : gname) : bool :=
  match a, b with
  | g_delim, g_delim | g_block, g_block | g_lang, g_lang | g_code, g_code => true
  | _, _ => false
  end.

Inductive regex :=
| Eps                                   (* the empty pattern *)
| Chr (c : char)                        (* a literal character *)
| Cls (p : char -> bool)                (* a character set, a category, or [.] *)
| Seq (a b : regex)                     (* a b *)
| Alt (a b : regex)                     (* a|b *)
| Star (greedy : bool) (a : regex)      (* a* and a*? *)
| Group (n : gname) (a : regex)         (* (?P<n>a) *)
| Backref (n : gname)                   (* (?P=n) *)
| IfGroup (n : gname) (a b : regex)     (* (?(n)a|b) *)
| Bol                                   (* ^ without MULTILINE *)
| Eol.                                  (* $ without MULTILINE *)

(** Derived forms. *)
Definition Opt (a : regex) : regex := Alt a Eps.            (* a? *)
Definition Plus (a : regex) : regex := Seq a (Star true a). (* a+ *)
Definition AtLeast3 (a : regex) : regex := Seq a (Seq a (Seq a (Star true a))). (* a{3,} *)
Definition Lit (s : str) : regex := foldr (fun c r => Seq (Chr c) r) Eps s.

(** Matcher state: the position in the subject, what is left of it, and
    the text of the groups that have matched (most recent first). *)
Record mstate := MState {
  pos : nat;
  rest : str;
  caps : list (gname * str)
}.

Fixpoint group_get (n : gname) (cs : list (gname * str)) : option str :=
  match cs with
  | [] => None
  | (n', w) :: cs' => if gname_eqb n n' then Some w else group_get n cs'
  end.

Definition advance (k : nat) (st : mstate) : mstate :=
  MState (pos st + k) (skipn k (rest st)) (caps st).

Definition set_group (n : gname) (from : mstate) (st : mstate) : mstate :=
  MState (pos st) (rest st)
         ((n, firstn (pos st - pos from) (rest from)) :: caps st).

Definition cont := mstate -> option mstate.

Definition orelse (a b : option mstate) : option mstate :=
  match a with Some x => Some x | None => b end.

(** Repetition.  An iteration has to consume at least one character, so
    a subject of length [n] allows at most [n] iterations; [fuel] is one
    more than that and never runs out. *)
Fixpoint star_loop (greedy : bool) (body : cont -> cont) (k : cont)
         (fuel : nat) (st : mstate) : option mstate :=
  match fuel with
  | 0 => k st
  | S fuel' =>
      let again :=
        body (fun st' =>
                if length (rest st') <? length (rest st)
                then star_loop greedy body k fuel' st'
                else None) st in
      if greedy then orelse again (k st) else orelse (k st) again
  end.

(** [exec r k st]: match [r] at [st], then the rest of the pattern [k];
    alternatives are tried in the order of [re]. *)
Fixpoint exec (r : regex) (k : cont) (st : mstate) : option mstate :=
  match r with
  | Eps => k st
  | Chr c =>
      match rest st with
      | x :: _ => if N.eqb x c then k (advance 1 st) else None
      | [] => None
      end
  | Cls p =>
      match rest st with
      | x :: _ => if p x then k (advance 1 st) else None
      | [] => None
      end
  | Seq a b => exec a (exec b k) st
  | Alt a b => orelse (exec a k st) (exec b k st)
  | Star g a => star_loop g (exec a) k (S (length (rest st))) st
  | Group n a => exec a (fun st' => k (set_group n st st')) st
  | Backref n =>
      match group_get n (caps st) with
      | Some w =>
          if startswith (rest st) w then k (advance (length w) st) else None
      | None => None
      end
  | IfGroup n a b =>
      match group_get n (caps st) with
      | Some _ => exec a k st
      | None => exec b k st
      end
  | Bol => if pos st =? 0 then k st else None
  | Eol =>
      match rest st with
      | [] => k st
      | [x] => if is_nl x then k st else None
      | _ => None
      end
  end.

(** A match object: its span and its groups. *)
Record Match := MkMatch {
  m_start : nat;
  m_end : nat;
  m_groups : list (gname * str)
}.

Definition group (n : gname) (m : Match) : option str := group_get n (m_groups m).

(** One attempt at position [p], where [s] is what is left of the subject. *)
Definition match_at (r : regex) (p : nat) (s : str) : option Match :=
  match exec r Some (MState p s []) with
  | Some st => Some (MkMatch p (pos st) (caps st))
  | None => None
  end.

(** [pattern.finditer(s)]: the non-overlapping matches from left to
    right.  [skip] counts the characters of the last match still to be
    passed over.  After an empty match the scan moves on by one
    character; none of the patterns scanned here matches the empty
    string. *)
Fixpoint scan (r : regex) (skip p : nat) (s : str) : list Match :=
  match s with
  | [] =>
      match skip with
      | 0 => match match_at r p [] with Some m => [m] | None => [] end
      | S _ => []
      end
  | _ :: t =>
      match skip with
      | S k => scan r k (S p) t
      | 0 =>
          match match_at r p s with
          | Some m => m :: scan r (m_end m - p - 1) (S p) t
          | None => scan r 0 (S p) t
          end
      end
  end.

Definition finditer (r : regex) (s : str) : list Match := scan r 0 0 s.

(** [pattern.fullmatch(s)]: the whole subject has to be consumed. *)
Definition at_end : cont := fun st =>
  match rest st with [] => Some st | _ :: _ => None end.

Definition fullmatch (r : regex) (s : str) : option Match :=
  match exec r at_end (MState 0 s []) with
  | Some st => Some (MkMatch 0 (pos st) (caps st))
  | None => None
  end.

End Re.

(** ** [textwrap.dedent] *)

Module Textwrap.
Import Str.

Definition is_sptab (c : char) : bool := N.eqb c SP || N.eqb c TAB.

(** [_whitespace_only_re.sub('', text)]: a line made of one or more
    spaces and tabs, and nothing else, becomes empty (MULTILINE). *)
Definition blank_out (l : str) : str := if forallb is_sptab l then [] else l.

(** [_leading_whitespace_re.findall(text)]: at the start of a line, a
    captured run of spaces and tabs followed by a character that is
    neither space, tab nor newline (MULTILINE).  This gives the leading
    spaces and tabs of every line that has some other character. *)
Definition indent_of (l : str) : option str :=
  if forallb is_sptab l then None else Some (take_while is_sptab l).

Definition indents (lines : list str) : list str := omap indent_of lines.

(** [margin[:i]] for the first [i] where [margin] and [indent] differ. *)
Fixpoint common_prefix (a b : str) : str :=
  match a, b with
  | x :: a', y :: b' => if N.eqb x y then x :: common_prefix a' b' else []
  | _, _ => []
  end.

(** One round of the loop over [indents]. *)
Definition next_margin (margin : option str) (indent : str) : option str :=
  match margin with
  | None => Some indent
  | Some m =>
      if startswith indent m then Some m
      else if startswith m indent then Some indent
      else Some (common_prefix m indent)
  end.

Definition margin_of (lines : list str) : option str :=
  fold_left next_margin (indents lines) None.

(** [re.sub(r'(?m)^' + margin, '', text)] on one line. *)
Definition cut_margin (margin l : str) : str :=
  match strip_prefix margin l with Some l' => l' | None => l end.

Definition dedent (text : str) : str :=
  let lines := map blank_out (split_nl text) in
  match margin_of lines with
  | Some (c :: m) => join_nl (map (cut_margin (c :: m)) lines)
  | _ => join_nl lines
  end.

(** [textwrap.indent(text, prefix)] with the default predicate: the
    prefix goes in front of every line that has a character other than
    whitespace. *)
Definition indent (text prefix : str) : str :=
  concat (map (fun line => match strip line with
                           | [] => line
                           | _ :: _ => prefix ++ line
                           end)
              (splitlines text)).

End Textwrap.

(** ** The cog: patterns and pure helpers *)

Module Snekbox.
Import Str Re Textwrap.

(** [ESCAPE_REGEX = re.compile("[`\u202E\u200B]{3,}")] *)
Definition escape_char (c : char) : bool :=
  N.eqb c BACKTICK || N.eqb c RLO || N.eqb c ZWSP.

Definition ESCAPE_REGEX : regex := AtLeast3 (Cls escape_char).

(** [[a-z]] under IGNORECASE: the ASCII letters and the four characters
    that case-fold to one, U+0130, U+0131, U+017F and U+212A. *)
Definition letter_i (c : char) : bool :=
  (N.leb 97 c && N.leb c 122) || (N.leb 65 c && N.leb c 90)
  || N.eqb c 304 || N.eqb c 305 || N.eqb c 383 || N.eqb c 8490.

(** [.] under DOTALL *)
Definition any_char (c : char) : bool := true.

(** Any number of blank lines: lines that are empty or hold spaces and
    tabs only, each with its newline. *)
Definition blank_lines : regex :=
  Star true (Seq (Star true (Cls is_sptab)) (Chr NL)).

(** [FORMATTED_CODE_REGEX], flags DOTALL and IGNORECASE.  The
    backreference is compared without case folding: the group [delim]
    only ever holds backticks. *)
Definition FORMATTED_CODE_REGEX : regex :=
  Seq (Group g_delim
         (Alt (Group g_block (Lit [BACKTICK; BACKTICK; BACKTICK]))
              (Seq (Chr BACKTICK) (Opt (Chr BACKTICK)))))
 (Seq (IfGroup g_block
         (Opt (Seq (Group g_lang (Plus (Cls letter_i))) (Chr NL)))
         Eps)
 (Seq blank_lines
 (Seq (Group g_code (Star false (Cls any_char)))
 (Seq (Star true (Cls isspace))
      (Backref g_delim))))).

(** [RAW_CODE_REGEX], flag DOTALL *)
Definition RAW_CODE_REGEX : regex :=
  Seq Bol
 (Seq blank_lines
 (Seq (Group g_code (Star false (Cls any_char)))
 (Seq (Star true (Cls isspace))
      Eol))).

(** [TIMEIT_OUTPUT_REGEX]: digits, [ loops, best of ], digits, [: ], one
    digit with an optional fraction of one or two digits, a space, an
    optional [m], [n] or [u], and [sec per loop]. *)
Definition mnu (c : char) : bool := N.eqb c 109 || N.eqb c 110 || N.eqb c 117.

Definition TIMEIT_OUTPUT_REGEX : regex :=
  Seq (Plus (Cls isdecimal))
 (Seq (Lit (u " loops, best of "))
 (Seq (Plus (Cls isdecimal))
 (Seq (Lit (u ": "))
 (Seq (Cls isdecimal)
 (Seq (Opt (Seq (Chr 46%N) (Seq (Cls isdecimal) (Opt (Cls isdecimal)))))
 (Seq (Chr SP)
 (Seq (Opt (Cls mnu))
      (Lit (u "sec per loop"))))))))).

Definition MAX_PASTE_LEN : N := 10000%N.
Definition SIGKILL : Z := 9%Z.

(** [block.group("block")] is truthy. *)
Definition is_block (m : Match) : bool :=
  match group g_block m with Some (_ :: _) => true | _ => false end.

(** [prepare_input]: [None] stands for an exception ([.group] on a
    failed [fullmatch], or joining a group that did not take part). *)
Definition prepare_input (text : str) : option str :=
  let found := finditer FORMATTED_CODE_REGEX text in
  let extracted :=
    match found with
    | first :: _ =>
        let blocks := List.filter is_block found in
        if 1 <? length blocks
        then join_nl <$> mapM (group g_code) blocks
        else
          let m := match blocks with [] => first | b :: _ => b end in
          group g_code m
    | [] =>
        m ← fullmatch RAW_CODE_REGEX text;
        group g_code m
    end in
  dedent <$> extracted.

(** The [results] dictionary returned by the evaluation service. *)
Record Results := MkResults {
  stdout : str;
  returncode : option Z
}.

Definition is_empty (s : str) : bool := match s with [] => true | _ => false end.

(** [get_status_emoji] *)
Definition get_status_emoji (results : Results) : str :=
  if is_empty (strip (stdout results)) then u ":warning:"
  else match returncode results with
       | Some 0%Z => u ":white_check_mark:"
       | _ => u ":x:"
       end.

(** *** Effects

    The coroutines of the cog talk to the chat platform, the evaluation
    service and the paste service, and share [self.jobs].  They are
    modelled in a state-and-exception monad over a [World] that holds
    the registry and the trace of the external calls made so far; what
    the outside answers is given by an environment that sees that
    trace. *)

Inductive exn :=
| NotFound            (* discord.NotFound, a subclass of HTTPException *)
| HTTPException       (* any other discord.HTTPException *)
| TimeoutError        (* asyncio.TimeoutError *)
| ClientError         (* the evaluation service failed or answered non-2xx *)
| TypeError
| KeyError.

(** [isinstance(e, HTTPException)] *)
Definition is_http (e : exn) : bool :=
  match e with NotFound | HTTPException => true | _ => false end.

Record Message := MkMessage {
  msg_id : Z;
  content : str
}.

(** A reaction as the [reaction_add] event brings it: the message it is
    on, the user who added it, and [str(reaction)]. *)
Record Reaction := MkReaction {
  reaction_message : Z;
  reaction_user : Z;
  reaction_emoji : str
}.

Inductive Event :=
| EvTyping                                       (* async with ctx.typing(): on entry *)
| EvPaste (text : str)                           (* send_to_paste_service(text, extension="txt") *)
| EvPostEval (code : str) (args : option (list str))  (* http_session.post(url, json=data) *)
| EvSend (text : str)                            (* ctx.send(text) *)
| EvStat (name : str)                            (* bot.stats.incr(name) *)
| EvFilter (text : str)                          (* filter_cog.filter_eval(text, ctx.message) *)
| EvWaitForDeletion (response : Z)               (* create_task(wait_for_deletion(response, ...)) *)
| EvWaitEdit                                     (* bot.wait_for('message_edit', timeout=30) *)
| EvWaitReaction                                 (* bot.wait_for('reaction_add', timeout=10) *)
| EvAddReaction                                  (* ctx.message.add_reaction(REEVAL_EMOJI) *)
| EvClearReaction                                (* ctx.message.clear_reaction(REEVAL_EMOJI) *)
| EvDelete (response : Z)                        (* response.delete() *)
| EvGetContext (message : Z).                    (* bot.get_context(message) *)

Inductive Result (A : Type) :=
| Ok (a : A)
| Raise (e : exn).
Arguments Ok {A} a.
Arguments Raise {A} e.

(** What the outside world answers, given the calls made so far. *)
Record Env := MkEnv {
  typing : list Event -> Result unit;             (* the typing indicator is accepted *)
  paste_service : list Event -> str -> option str;
  eval_service : list Event -> str -> option (list str) -> Result Results;
  filter_cog : bool;                              (* bot.get_cog("Filtering") is there *)
  filter_eval : list Event -> str -> bool;
  channel_send : list Event -> str -> Result Message;
  message_edit : list Event -> list (Message * Message);
                                  (* the edits, before and after, within the timeout *)
  reaction_add : list Event -> list Reaction;     (* the reactions within the timeout *)
  add_reaction : list Event -> Result unit;
  clear_reaction : list Event -> Result unit;
  delete_message : list Event -> Z -> Result unit;
  invokes_command : list Event -> Message -> bool;  (* new_ctx.command is command *)
  now : list Event -> Z;                          (* datetime.datetime.now() *)
  Roles_helpers : Z;                              (* bot.constants *)
  Categories_help_in_use : Z;
  Channels_bot_commands : Z
}.

Record World := MkWorld {
  jobs : gmap Z Z;
  trace : list Event
}.

Definition M (A : Type) : Type := Env -> World -> Result A * World.

Definition ret {A} (a : A) : M A := fun _ w => (Ok a, w).

Definition bind {A B} (c : M A) (f : A -> M B) : M B := fun env w =>
  match c env w with
  | (Ok a, w') => f a env w'
  | (Raise e, w') => (Raise e, w')
  end.

Definition raise {A} (e : exn) : M A := fun _ w => (Raise e, w).

(** [try: c finally: h] *)
Definition finally {A} (c : M A) (h : M unit) : M A := fun env w =>
  match c env w with
  | (r, w') =>
      match h env w' with
      | (Ok _, w'') => (r, w'')
      | (Raise e, w'') => (Raise e, w'')
      end
  end.

(** [try: c except E: h], where [handles] says which exceptions [E] covers. *)
Definition catch {A} (handles : exn -> bool) (c : M A) (h : M A) : M A := fun env w =>
  match c env w with
  | (Raise e, w') => if handles e then h env w' else (Raise e, w')
  | ok => ok
  end.

(** An external call: it is recorded, and the environment answers from
    what came before it. *)
Definition call {A} (ev : Event) (answer : Env -> list Event -> A) : M A := fun env w =>
  (Ok (answer env (trace w)), MkWorld (jobs w) (trace w ++ [ev])).

Definition call_raising {A} (ev : Event) (answer : Env -> list Event -> Result A) : M A :=
  fun env w => (answer env (trace w), MkWorld (jobs w) (trace w ++ [ev])).

#[global] Instance M_ret : MRet M := @ret.
#[global] Instance M_bind : MBind M := fun A B f c => bind c f.

(** [upload_output] *)
Definition upload_output (output : str) : M (option str) :=
  if N.ltb MAX_PASTE_LEN (N.of_nat (length output))
  then ret (Some (u "too long to upload"))
  else call (EvPaste output) (fun env h => paste_service env h output).

Definition ESCAPE_BODY : str :=
  u "Code block escape attempt detected; will not output result".

(** [f"{i:03d} | {line}"] over [enumerate(lines, 1)] *)
Definition number_lines (lines : list str) : list str :=
  imap (fun i line => pad3 (S i) ++ u " | " ++ line) lines.

(** The truncation step of [format_output]: the local [truncated] and
    the new [output]. *)
Definition truncate (lines : nat) (output : str) : bool * str :=
  if 10 <? lines then
    (true,
     if 1000 <=? length output
     then firstn 1000 output ++ NL :: u "... (truncated - too long, too many lines)"
     else output ++ NL :: u "... (truncated - too many lines)")
  else if 1000 <=? length output then
    (true, firstn 1000 output ++ NL :: u "... (truncated - too long)")
  else (false, output).

(** The mention sigils get a zero-width space after them. *)
Definition neutralize (output : str) : str :=
  let output :=
    if contains (u "<@") output
    then replace (u "<@") (u "<@" ++ [ZWSP]) output else output in
  if contains (u "<!@") output
  then replace (u "<!@") (u "<!@" ++ [ZWSP]) output else output.

(** [format_output] *)
Definition format_output (output : str) : M (str * option str) :=
  let output := rstrip is_nl output in
  let original_output := output in
  let output := neutralize output in
  match finditer ESCAPE_REGEX output with
  | _ :: _ =>
      paste_link ← upload_output original_output;
      ret (ESCAPE_BODY, paste_link)
  | [] =>
      let lines := count_nl output in
      let output :=
        if 0 <? lines
        then join_nl (firstn 11 (number_lines (split_nl output)))
        else output in
      let '(truncated, output) := truncate lines output in
      paste_link ←
        (if truncated then upload_output original_output else ret None);
      let output := if is_empty output then u "[No output]" else output in
      ret (output, paste_link)
  end.

(** [format_timeit_output] *)
Definition format_timeit_output (output : str) : M (str * option str) :=
  match rsplit1_nl (rstrip is_nl output) with
  | (_, Some last) =>
      match fullmatch TIMEIT_OUTPUT_REGEX last with
      | Some _ => ret (last, None)
      | None => format_output output
      end
  | (_, None) => format_output output
  end.

(** [str(n)] for an integer *)
Definition of_Z (z : Z) : str :=
  match z with
  | Zneg p => 45%N :: of_nat (Pos.to_nat p)
  | _ => of_nat (Z.to_nat z)
  end.

(** [signal.Signals] (Linux): [Signals(n).name], or [None] for the
    [ValueError] of a number that names no signal. *)
Definition signal_names : list (Z * string) :=
  [(1, "SIGHUP"); (2, "SIGINT"); (3, "SIGQUIT"); (4, "SIGILL");
   (5, "SIGTRAP"); (6, "SIGABRT"); (7, "SIGBUS"); (8, "SIGFPE");
   (9, "SIGKILL"); (10, "SIGUSR1"); (11, "SIGSEGV"); (12, "SIGUSR2");
   (13, "SIGPIPE"); (14, "SIGALRM"); (15, "SIGTERM"); (16, "SIGSTKFLT");
   (17, "SIGCHLD"); (18, "SIGCONT"); (19, "SIGSTOP"); (20, "SIGTSTP");
   (21, "SIGTTIN"); (22, "SIGTTOU"); (23, "SIGURG"); (24, "SIGXCPU");
   (25, "SIGXFSZ"); (26, "SIGVTALRM"); (27, "SIGPROF"); (28, "SIGWINCH");
   (29, "SIGIO"); (30, "SIGPWR"); (31, "SIGSYS"); (34, "SIGRTMIN");
   (64, "SIGRTMAX")]%Z%string.

Fixpoint Signals (names : list (Z * string)) (n : Z) : option str :=
  match names with
  | [] => None
  | (k, name) :: names' => if Z.eqb k n then Some (u name) else Signals names' n
  end.

(** [get_results_message] *)
Definition get_results_message (results : Results) : str * str :=
  match returncode results with
  | None => (u "Your eval job has failed", strip (stdout results))
  | Some rc =>
      let msg := u "Your eval job has completed with return code " ++ of_Z rc in
      if Z.eqb rc (128 + SIGKILL) then
        (u "Your eval job timed out or ran out of memory", [])
      else if Z.eqb rc 255 then
        (u "Your eval job has failed", u "A fatal NsJail error occurred")
      else
        match Signals signal_names (rc - 128) with
        | Some name => (msg ++ u " (" ++ name ++ u ")", [])
        | None => (msg, [])
        end
  end.

(** The parts of the invocation context that the cog reads. *)
Record Context := MkContext {
  author_id : Z;
  author_mention : str;
  author_roles : list Z;
  channel_id : Z;
  channel_category_id : option Z;
  message_id : Z
}.

Definition FormatFunc : Type := str -> M (str * option str).

(** [post_eval] *)
Definition post_eval (code : str) (args : option (list str)) : M Results :=
  call_raising (EvPostEval code args) (fun env h => eval_service env h code args).

Definition stats_incr (name : string) : M unit :=
  call (EvStat (u name)) (fun _ _ => tt).

Definition ctx_send (text : str) : M Message :=
  call_raising (EvSend text) (fun env h => channel_send env h text).

(** [async with ctx.typing():] on entry: the typing indicator is sent to
    the channel, which can fail.  Leaving the block only cancels the
    task that keeps the indicator alive. *)
Definition ctx_typing : M unit := call_raising EvTyping typing.

(** [send_eval] *)
Definition send_eval (ctx : Context) (code : str) (args : option (list str))
           (format_func : FormatFunc) : M Message :=
  ctx_typing;;
  results ← post_eval code args;
  let '(msg, error) := get_results_message results in
  '(output, paste_link) ←
    (if is_empty error then format_func (stdout results)
     else ret (error, None));
  let icon := get_status_emoji results in
  let msg :=
    author_mention ctx ++ u " " ++ icon ++ u " " ++ msg ++ u "."
    ++ [NL; NL] ++ u "```" ++ [NL] ++ output ++ [NL] ++ u "```" in
  let msg :=
    match paste_link with
    | Some (c :: l) => msg ++ [NL] ++ u "Full output: " ++ c :: l
    | _ => msg
    end in
  (if bool_decide (icon = u ":x:")
   then stats_incr "snekbox.python.fail"
   else stats_incr "snekbox.python.success");;
  filter_triggered ←
    (fun env =>
       (if filter_cog env
        then call (EvFilter msg) (fun env h => filter_eval env h msg)
        else ret false) env);
  response ←
    (if filter_triggered : bool
     then ctx_send (u "Attempt to circumvent filter detected. Moderator team has been alerted.")
     else ctx_send msg);
  call (EvWaitForDeletion (msg_id response)) (fun _ _ => tt);;
  ret response.

(** [s.split(maxsplit=1)]: split once on a run of whitespace, leading
    whitespace dropped. *)
Definition split_once (s : str) : list str :=
  match lstrip isspace s with
  | [] => []
  | s1 =>
      let w := take_while (fun c => negb (isspace c)) s1 in
      match lstrip isspace (skipn (length w) s1) with
      | [] => [w]
      | r => [w; r]
      end
  end.

(** [get_code] *)
Definition get_code (message : Message) : M (option str) :=
  is_command ←
    call (EvGetContext (msg_id message)) (fun env h => invokes_command env h message);
  if is_command : bool then
    match split_once (content message) with
    | _ :: c :: _ => ret (Some c)
    | _ => ret None
    end
  else ret (Some (content message)).

Definition is_NotFound (e : exn) : bool :=
  match e with NotFound => true | _ => false end.

Definition is_TimeoutError (e : exn) : bool :=
  match e with TimeoutError => true | _ => false end.

Definition REEVAL_EMOJI : str := [128257%N].    (* U+1F501 *)

(** [predicate_eval_message_edit] *)
Definition predicate_eval_message_edit (ctx : Context) (old_msg new_msg : Message)
  : bool :=
  Z.eqb (msg_id new_msg) (message_id ctx)
  && negb (bool_decide (content old_msg = content new_msg)).

(** [predicate_eval_emoji_reaction] *)
Definition predicate_eval_emoji_reaction (ctx : Context) (reaction : Reaction) : bool :=
  Z.eqb (reaction_message reaction) (message_id ctx)
  && Z.eqb (reaction_user reaction) (author_id ctx)
  && bool_decide (reaction_emoji reaction = REEVAL_EMOJI).

(** [bot.wait_for(event, check=..., timeout=...)]: the first event within
    the timeout that passes the check, or [asyncio.TimeoutError]. *)
Definition wait_for_message_edit (ctx : Context) : M Message :=
  call_raising EvWaitEdit
    (fun env h =>
       match List.find (fun e => predicate_eval_message_edit ctx (fst e) (snd e))
                       (message_edit env h) with
       | Some (_, new_message) => Ok new_message
       | None => Raise TimeoutError
       end).

Definition wait_for_reaction_add (ctx : Context) : M unit :=
  call_raising EvWaitReaction
    (fun env h =>
       match List.find (predicate_eval_emoji_reaction ctx) (reaction_add env h) with
       | Some _ => Ok tt
       | None => Raise TimeoutError
       end).

(** [continue_eval].  The inner computation gives [None] where the
    [except] branch returns, and the edited code where control goes on to
    the final [return]. *)
Definition continue_eval (ctx : Context) (response : Message) : M (option str) :=
  catch is_NotFound
    (edited ←
       catch is_TimeoutError
         (new_message ← wait_for_message_edit ctx;
          call_raising EvAddReaction add_reaction;;
          wait_for_reaction_add ctx;;
          code ← get_code new_message;
          call_raising EvClearReaction clear_reaction;;
          catch is_http
            (call_raising (EvDelete (msg_id response))
                          (fun env h => delete_message env h (msg_id response)))
            (ret tt);;
          ret (Some code))
         (call_raising EvClearReaction clear_reaction;;
          ret None);
     match edited with
     | None => ret None
     | Some None => raise TypeError
     | Some (Some code) =>
         match prepare_input code with
         | Some code' => ret (Some code')
         | None => raise TypeError
         end
     end)
    (ret None).

(** [self.jobs[ctx.author.id] = datetime.datetime.now()] *)
Definition jobs_set (uid : Z) : M unit := fun env w =>
  (Ok tt, MkWorld (<[uid := now env (trace w)]> (jobs w)) (trace w)).

(** [del self.jobs[ctx.author.id]] *)
Definition jobs_del (uid : Z) : M unit := fun env w =>
  match jobs w !! uid with
  | Some _ => (Ok tt, MkWorld (delete uid (jobs w)) (trace w))
  | None => (Raise KeyError, w)
  end.

(** One attempt: the body of the [while] loop up to the end of
    [try ... finally]. *)
Definition attempt (ctx : Context) (code : str) (args : option (list str))
           (format_func : FormatFunc) : M Message :=
  jobs_set (author_id ctx);;
  finally (send_eval ctx code args format_func) (jobs_del (author_id ctx)).

(** How far a run of the loop got: it left the loop, or it is still
    going round after the given number of rounds. *)
Inductive progress := Returned | Looping.

(** The [while True] loop of [run_eval], for at most [rounds] rounds.
    [not code] holds for [None] and for the empty string. *)
Fixpoint eval_loop (rounds : nat) (ctx : Context) (code : str)
         (args : option (list str)) (format_func : FormatFunc) : M progress :=
  match rounds with
  | 0 => ret Looping
  | S rounds' =>
      response ← attempt ctx code args format_func;
      code' ← continue_eval ctx response;
      match code' with
      | Some (c :: l) => eval_loop rounds' ctx (c :: l) args format_func
      | _ => ret Returned
      end
  end.

Definition JOB_RUNNING_NOTICE (ctx : Context) : str :=
  author_mention ctx
  ++ u " You've already got a job running - please wait for it to finish!".

(** [run_eval], with the loop cut after [rounds] rounds. *)
Definition run_eval (rounds : nat) (ctx : Context) (code : str)
           (format_func : FormatFunc) (args : option (list str)) : M progress :=
  fun env w =>
    match jobs w !! author_id ctx with
    | Some _ =>
        (ctx_send (JOB_RUNNING_NOTICE ctx);; ret Returned) env w
    | None =>
        ((if bool_decide (Roles_helpers env ∈ author_roles ctx)
          then stats_incr "snekbox_usages.roles.helpers"
          else stats_incr "snekbox_usages.roles.developers");;
         (if bool_decide (channel_category_id ctx = Some (Categories_help_in_use env))
          then stats_incr "snekbox_usages.channels.help"
          else if bool_decide (channel_id ctx = Channels_bot_commands env)
          then stats_incr "snekbox_usages.channels.bot_commands"
          else stats_incr "snekbox_usages.channels.topical");;
         eval_loop rounds ctx code args format_func) env w
    end.

(** [TIMEIT_EVAL_WRAPPER.format(code=code)] *)
Definition TIMEIT_EVAL_WRAPPER (code : str) : str :=
  [NL] ++ u "from contextlib import redirect_stdout" ++ [NL]
  ++ u "from io import StringIO" ++ [NL]
  ++ [NL]
  ++ u "with redirect_stdout(StringIO()):" ++ [NL]
  ++ u "    del redirect_stdout, StringIO" ++ [NL]
  ++ code ++ [NL].

(** The body of [eval_command].  The decorators [guild_only] and
    [redirect_output] come from other modules and run before it. *)
Definition eval_command (rounds : nat) (ctx : Context) (code : str) : M progress :=
  match prepare_input code with
  | Some code => run_eval rounds ctx code format_output None
  | None => raise TypeError
  end.

(** The body of [timeit_command]. *)
Definition timeit_command (rounds : nat) (ctx : Context) (code : str) : M progress :=
  match prepare_input code with
  | Some code =>
      run_eval rounds ctx (TIMEIT_EVAL_WRAPPER (indent code (u "    ")))
               format_timeit_output (Some [u "-m"; u "timeit"])
  | None => raise TypeError
  end.

End Snekbox.

(** ** What a pattern can match

    [Matches r st st']: the pattern [r] can take the matcher from [st] to
    [st'].  The relation leaves out the order in which the matcher tries
    the alternatives. *)

Module Sem.
Import Str Re.

Inductive Matches : regex -> mstate -> mstate -> Prop :=
| M_Eps st : Matches Eps st st
| M_Chr c st t :
    rest st = c :: t -> Matches (Chr c) st (advance 1 st)
| M_Cls (p : char -> bool) c st t :
    rest st = c :: t -> p c = true -> Matches (Cls p) st (advance 1 st)
| M_Seq a b st1 st2 st3 :
    Matches a st1 st2 -> Matches b st2 st3 -> Matches (Seq a b) st1 st3
| M_AltL a b st st' : Matches a st st' -> Matches (Alt a b) st st'
| M_AltR a b st st' : Matches b st st' -> Matches (Alt a b) st st'
| M_Star0 g a st : Matches (Star g a) st st
| M_StarS g a st1 st2 st3 :
    Matches a st1 st2 ->
    length (rest st2) < length (rest st1) ->
    Matches (Star g a) st2 st3 ->
    Matches (Star g a) st1 st3
| M_Group n a st st' :
    Matches a st st' -> Matches (Group n a) st (set_group n st st')
| M_Backref n st w :
    group_get n (caps st) = Some w ->
    startswith (rest st) w = true ->
    Matches (Backref n) st (advance (length w) st)
| M_IfSet n a b st st' w :
    group_get n (caps st) = Some w ->
    Matches a st st' -> Matches (IfGroup n a b) st st'
| M_IfUnset n a b st st' :
    group_get n (caps st) = None ->
    Matches b st st' -> Matches (IfGroup n a b) st st'
| M_Bol st : pos st = 0 -> Matches Bol st st
| M_Eol st : rest st = [] \/ rest st = [NL] -> Matches Eol st st.

(** The groups that a pattern can set. *)
Fixpoint binds (r : regex) (n : gname) : bool :=
  match r with
  | Seq a b | Alt a b | IfGroup _ a b => binds a n || binds b n
  | Star _ a => binds a n
  | Group n' a => gname_eqb n n' || binds a n
  | _ => false
  end.

(** A matcher step that only looks at what its continuation returns. *)
Definition cont_ext (body : cont -> cont) : Prop :=
  forall k1 k2, (forall st, k1 st = k2 st) -> forall st, body k1 st = body k2 st.

(** The first place, from [s] on, where the continuation succeeds: what
    a lazy repetition of [.] comes to. *)
Fixpoint first_split (k : cont) (q : nat) (s : str) (cs : list (gname * str))
  : option mstate :=
  orelse (k (MState q s cs))
         match s with
         | [] => None
         | _ :: t => first_split k (q + 1) t cs
         end.

(** The places where the continuation is tried after a greedy run of
    characters in [p]: the end of the longest run first, then back one
    character at a time. *)
Fixpoint greedy_split (p : char -> bool) (k : cont) (q : nat) (s : str)
         (cs : list (gname * str)) : option mstate :=
  match s with
  | c :: t =>
      if p c
      then orelse (greedy_split p k (q + 1) t cs) (k (MState q s cs))
      else k (MState q s cs)
  | [] => k (MState q [] cs)
  end.

End Sem.

(** ** Notions used to state the properties *)

Module Spec.
Import Str Re Textwrap Snekbox.

(** The number of registry entries of a user. *)
Definition entries_for (uid : Z) (registry : gmap Z Z) : nat :=
  length (List.filter (fun kv => Z.eqb (fst kv) uid) (map_to_list registry)).

(** A request to the evaluation service. *)
Definition is_post_eval (ev : Event) : bool :=
  match ev with EvPostEval _ _ => true | _ => false end.

(** The external calls made between two worlds. *)
Definition calls_since (w w' : World) : list Event :=
  skipn (length (trace w)) (trace w').

(** The text has three characters in a row out of backtick, U+202E and
    U+200B. *)
Fixpoint has_escape_run (s : str) : bool :=
  match s with
  | a :: t =>
      match t with
      | b :: c :: _ => escape_char a && escape_char b && escape_char c
      | _ => false
      end || has_escape_run t
  | [] => false
  end.

(** The outcome of the escape branch of [format_output] for the text
    [original]: it goes through [upload_output], and the body is the fixed
    warning. *)
Definition escape_outcome (original : str) : M (str * option str) :=
  paste_link ← upload_output original;
  ret (ESCAPE_BODY, paste_link).

(** The lines that [format_output] puts after a cut body. *)
Definition MARKER_LINES : list str :=
  [NL :: u "... (truncated - too long, too many lines)";
   NL :: u "... (truncated - too many lines)";
   NL :: u "... (truncated - too long)"].

(** The text that [format_output] cuts: numbered, and kept to eleven
    lines, when it has more than one line. *)
Definition numbered (s : str) : str :=
  if 0 <? count_nl s
  then join_nl (firstn 11 (number_lines (split_nl s)))
  else s.

(** The number of backticks in a text. *)
Fixpoint count_backticks (s : str) : nat :=
  match s with
  | [] => 0
  | c :: t => if N.eqb c BACKTICK then S (count_backticks t) else count_backticks t
  end.

(** What is left of a text that starts with a blank line, a line of
    spaces and tabs only, after that line and its newline. *)
Fixpoint blank_prefix (s : str) : option str :=
  match s with
  | [] => None
  | c :: t =>
      if is_nl c then Some t
      else if is_sptab c then blank_prefix t
      else None
  end.

(** The text without its leading blank lines.  [line] is the start of
    the line that [s] is in, with spaces and tabs only in between. *)
Fixpoint skip_blank (line s : str) : str :=
  match s with
  | [] => line
  | c :: t =>
      if is_nl c then skip_blank t t
      else if is_sptab c then skip_blank line t
      else line
  end.

Definition skip_blank_lines (s : str) : str := skip_blank s s.

(** In the words of the specification: the leading blank lines are
    removed.  A last line without a newline is not a blank line. *)
Fixpoint drop_blank (lines : list str) : list str :=
  match lines with
  | l :: (_ :: _) as lines' => if forallb is_sptab l then drop_blank lines' else lines
  | _ => lines
  end.

Definition strip_leading_blank_lines (s : str) : str :=
  join_nl (drop_blank (split_nl s)).

(** In the words of the specification: the text with leading blank lines
    and trailing whitespace removed. *)
Definition clean_text (s : str) : str :=
  rstrip isspace (strip_leading_blank_lines s).

(** The code of a match, [m.group("code")]. *)
Definition code_of (m : Match) : str := default [] (group g_code m).

(** The fenced code blocks that [prepare_input] finds in a text. *)
Definition fenced_blocks (text : str) : list Match :=
  List.filter is_block (finditer FORMATTED_CODE_REGEX text).

(** A text without a newline. *)
Definition one_line (l : str) : Prop := forallb (fun c => negb (is_nl c)) l = true.

(** A line as [dedent] sees it after its first pass: empty, or with a
    character other than space and tab. *)
Definition tidy (l : str) : Prop := l = [] \/ forallb is_sptab l = false.

(** What [dedent] does to a line of the text: a blank line becomes
    empty, any other line loses some leading spaces and tabs. *)
Definition trims (g : str -> str) (l : str) : Prop :=
  one_line (g l)
  /\ (forallb is_sptab l = true -> g l = [])
  /\ (forallb is_sptab l = false ->
      exists k, l = k ++ g l /\ forallb is_sptab k = true
                /\ forallb is_sptab (g l) = false).

(** A text without a backtick. *)
Definition no_backtick (s : str) : Prop :=
  forallb (fun c => negb (N.eqb c BACKTICK)) s = true.

(** A fenced block around the text [body]. *)
Definition FENCE : str := [BACKTICK; BACKTICK; BACKTICK].

Definition fenced (body : str) : str := FENCE ++ body ++ FENCE.

(** The language tag at the start of a block: letters, then a newline.
    The result is the tag and what comes after the newline. *)
Definition lang_prefix (s : str) : option (str * str) :=
  match take_while letter_i s with
  | [] => None
  | w =>
      match skipn (length w) s with
      | c :: t => if is_nl c then Some (w, t) else None
      | [] => None
      end
  end.

(** The code of a fenced block with the text [body]: the body without
    its language tag, its leading blank lines and its trailing
    whitespace. *)
Definition body_code (body : str) : str :=
  rstrip isspace
    (skip_blank_lines
       match lang_prefix body with Some (_, t) => t | None => body end).

(** A text laid out as prose, a fenced block, prose, a fenced block and so
    on, with [tail] at its end. *)
Fixpoint layout (blocks : list (str * str)) (tail : str) : str :=
  match blocks with
  | [] => tail
  | (prose, body) :: blocks' => prose ++ fenced body ++ layout blocks' tail
  end.

(** The last line of a text. *)
Definition last_line (s : str) : str := default [] (last (split_nl s)).

(** The text is a timing line of [timeit]. *)
Definition is_timing_line (s : str) : bool :=
  match fullmatch TIMEIT_OUTPUT_REGEX s with Some _ => true | None => false end.

(** A step that leaves the registry alone and sends nothing to the
    evaluation service. *)
Definition quiet_step (w w' : World) : Prop :=
  jobs w' = jobs w
  /\ exists evs, trace w' = trace w ++ evs
                 /\ Forall (fun ev => is_post_eval ev = false) evs.

Definition plain (s : str) : Prop := forallb (fun c => negb (escape_char c)) s = true.

Definition followed_by (Q : char -> Prop) (sigil s : str) : Prop :=
  forall pre post, s = pre ++ sigil ++ post -> exists c post', post = c :: post' /\ Q c.

Definition followed_by_zwsp : str -> str -> Prop := followed_by (fun c => c = ZWSP).

Definition zwsp_or_nl (c : char) : Prop := c = ZWSP \/ c = NL.

Definition LT : char := 60%N.
Definition BANG : char := 33%N.
Definition AT : char := 64%N.

(** Every character that the pattern can consume is in [P]; a pattern
    with a backreference is left out. *)
Fixpoint consumes_only (P : char -> bool) (r : regex) : Prop :=
  match r with
  | Chr c => P c = true
  | Cls p => forall c, p c = true -> P c = true
  | Seq a b | Alt a b | IfGroup _ a b => consumes_only P a /\ consumes_only P b
  | Star _ a | Group _ a => consumes_only P a
  | Backref _ => False
  | Eps | Bol | Eol => True
  end.

(** A character that is neither an escape character, nor [<], nor a
    newline. *)
Definition tame (c : char) : bool :=
  negb (escape_char c) && negb (N.eqb c LT) && negb (is_nl c).

(** Kinds of external calls. *)
Definition is_paste (ev : Event) : bool :=
  match ev with EvPaste _ => true | _ => false end.

Definition is_send (ev : Event) : bool :=
  match ev with EvSend _ => true | _ => false end.

Definition is_stat (ev : Event) : bool :=
  match ev with EvStat _ => true | _ => false end.

(** A formatter as the cog has them: it returns, leaves the registry
    alone and talks to the paste service only. *)
Definition paste_only (f : FormatFunc) : Prop :=
  forall (o : str) (env : Env) (w : World),
  exists r evs,
    f o env w = (Ok r, MkWorld (jobs w) (trace w ++ evs))
    /\ Forall (fun ev => is_paste ev = true) evs.

(** What [send_eval] sends when the filter was triggered. *)
Definition FILTER_NOTICE : str :=
  u "Attempt to circumvent filter detected. Moderator team has been alerted.".

(** The message that [send_eval] puts together for the results, the body
    and the link. *)
Definition eval_message (ctx : Context) (results : Results) (output : str)
           (paste_link : option str) : str :=
  let msg :=
    author_mention ctx ++ u " " ++ get_status_emoji results ++ u " "
    ++ fst (get_results_message results) ++ u "."
    ++ [NL; NL] ++ u "```" ++ [NL] ++ output ++ [NL] ++ u "```" in
  match paste_link with
  | Some (c :: l) => msg ++ [NL] ++ u "Full output: " ++ c :: l
  | _ => msg
  end.

(** The author changed the message and then confirmed with the
    reaction, as [continue_eval] sees it from the world [w]. *)
Definition confirmed (ctx : Context) (env : Env) (w : World) : Prop :=
  (exists e, In e (message_edit env (trace w))
             /\ predicate_eval_message_edit ctx (fst e) (snd e) = true)
  /\ (exists r, In r (reaction_add env (trace w ++ [EvWaitEdit; EvAddReaction]))
                /\ predicate_eval_emoji_reaction ctx r = true).

(** A word: one character or more, none of them whitespace. *)
Definition is_word (s : str) : Prop :=
  s <> [] /\ forallb (fun c => negb (isspace c)) s = true.

(** The environment lets a confirmed edit of the message to [new_message]
    through: the edit and the reaction arrive, and the calls on the
    reaction succeed. *)
Definition confirms (ctx : Context) (env : Env) (w : World) (new_message : Message)
  : Prop :=
  (exists old_message,
      List.find (fun e => predicate_eval_message_edit ctx (fst e) (snd e))
                (message_edit env (trace w)) = Some (old_message, new_message))
  /\ (forall h, add_reaction env h = Ok tt)
  /\ (forall h, clear_reaction env h = Ok tt)
  /\ (forall h, exists r,
         List.find (predicate_eval_emoji_reaction ctx) (reaction_add env h) = Some r).

(** Deleting a message succeeds or fails with an HTTP error. *)
Definition delete_fails_softly (env : Env) : Prop :=
  forall h id e, delete_message env h id = Raise e -> is_http e = true.

(** The calls of [continue_eval] when the edit is confirmed. *)
Definition CONFIRMED_CALLS (response new_message : Message) : list Event :=
  [EvWaitEdit; EvAddReaction; EvWaitReaction; EvGetContext (msg_id new_message);
   EvClearReaction; EvDelete (msg_id response)].

(** The request carries the arguments [args]; any other call passes. *)
Definition request_with (args : option (list str)) (ev : Event) : Prop :=
  match ev with
  | EvPostEval _ a => a = args
  | _ => True
  end.

(** The services answer: the channel accepts the typing indicator, the
    evaluation service returns results and the channel takes every
    message. *)
Definition answers (env : Env) : Prop :=
  (forall h, typing env h = Ok tt)
  /\ (forall h c a, exists results, eval_service env h c a = Ok results)
  /\ (forall h t, exists m, channel_send env h t = Ok m).

(** The part of the content of an edited message that [get_code] takes
    as code: the whole content of a message that does not invoke the
    command; for one that does, what follows the command word and the
    whitespace after it. *)
Definition code_part (invokes : bool) (content part : str) : Prop :=
  if invokes
  then exists ws word sep c arg,
         content = ws ++ word ++ sep ++ c :: arg
         /\ forallb isspace ws = true /\ is_word word
         /\ sep <> [] /\ forallb isspace sep = true /\ isspace c = false
         /\ part = c :: arg
  else part = content.

(** The requests among the calls made between two worlds. *)
Definition requests_since (w w' : World) : list Event :=
  List.filter is_post_eval (calls_since w w').

(** Inline code: the text [code] between two delimiters [delim]. *)
Definition inline (delim code : str) : str := delim ++ code ++ delim.






(** A text without a line break. *)
Definition unbroken (s : str) : Prop :=
  forallb (fun c => negb (is_linebreak c)) s = true.

(** The text starts with a line feed. *)
Definition starts_nl (s : str) : bool :=
  match s with
  | c :: _ => N.eqb c NL
  | [] => false
  end.

(** A line with its line break at the end: CR LF, or one line-break
    character. *)
Inductive terminated : str -> Prop :=
| terminated_crlf body : unbroken body -> terminated (body ++ [CR; NL])
| terminated_one body c :
    unbroken body -> is_linebreak c = true -> terminated (body ++ [c]).

(** The lines of a text as [splitlines] cuts them: every line but the
    last ends with its line break, the last may have none, and a line
    that ends with a lone CR is not followed by a line feed. *)
Inductive lines_ok : list str -> Prop :=
| lines_ok_nil : lines_ok []
| lines_ok_last l : l <> [] -> unbroken l -> lines_ok [l]
| lines_ok_cons l ls :
    terminated l -> lines_ok ls ->
    (last l = Some CR -> starts_nl (concat ls) = false) ->
    lines_ok (l :: ls).

(** What [indent] does to a line. *)
Definition indent_line (prefix line : str) : str :=
  match strip line with
  | [] => line
  | _ :: _ => prefix ++ line
  end.

(** One decimal digit or more. *)
Definition is_digits (s : str) : Prop := s <> [] /\ forallb isdecimal s = true.

(** The lines that [timeit] prints as the pattern takes them: a number,
    [ loops, best of ], a number, [: ], one digit with at most two more
    behind a point, a space, a unit of [sec], [msec], [nsec] or [usec],
    and [ per loop]. *)
Definition timing_shape (s : str) : Prop :=
  exists n m d frac unit,
    s = n ++ u " loops, best of " ++ m ++ u ": "
          ++ d :: frac ++ SP :: unit ++ u "sec per loop"
    /\ is_digits n /\ is_digits m /\ isdecimal d = true
    /\ (frac = []
        \/ (exists a, frac = [46%N; a] /\ isdecimal a = true)
        \/ (exists a b, frac = [46%N; a; b] /\ isdecimal a = true /\ isdecimal b = true))
    /\ (unit = [] \/ exists c, unit = [c] /\ mnu c = true).

(** The pattern can consume exactly the text [w], whatever comes after
    it, and leaves the groups alone. *)
Definition walks (r : regex) (w : str) : Prop :=
  forall q t cs, Sem.Matches r (MState q (w ++ t) cs) (MState (q + length w) t cs).

(** Code as the patterns leave it: no blank line at its start and no
    whitespace at its end. *)
Definition trimmed (code : str) : Prop :=
  blank_prefix code = None /\ forall z, last code = Some z -> isspace z = false.

End Spec.

(** ** Sample environments *)

Module Scenario.
Import Str Re Textwrap Snekbox.

(** The evaluation service prints [4]; nobody edits the message. *)
Definition quiet : Env :=
  {| typing := fun _ => Ok tt;
     paste_service := fun _ _ => Some (u "https://paste.example/abc.txt");
     eval_service := fun _ _ _ => Ok (MkResults (u "4" ++ [NL]) (Some 0%Z));
     filter_cog := false;
     filter_eval := fun _ _ => false;
     channel_send := fun h _ => Ok (MkMessage (Z.of_nat (length h)) []);
     message_edit := fun _ => [];
     reaction_add := fun _ => [];
     add_reaction := fun _ => Ok tt;
     clear_reaction := fun _ => Ok tt;
     delete_message := fun _ _ => Ok tt;
     invokes_command := fun _ _ => true;
     now := fun h => Z.of_nat (length h);
     Roles_helpers := 267630620367257601%Z;
     Categories_help_in_use := 696958401460043776%Z;
     Channels_bot_commands := 267659945086812160%Z |}.

(** The evaluation service cannot be reached. *)
Definition unreachable : Env :=
  {| typing := typing quiet;
     paste_service := paste_service quiet;
     eval_service := fun _ _ _ => Raise ClientError;
     filter_cog := false;
     filter_eval := filter_eval quiet;
     channel_send := channel_send quiet;
     message_edit := message_edit quiet;
     reaction_add := reaction_add quiet;
     add_reaction := add_reaction quiet;
     clear_reaction := clear_reaction quiet;
     delete_message := delete_message quiet;
     invokes_command := invokes_command quiet;
     now := now quiet;
     Roles_helpers := Roles_helpers quiet;
     Categories_help_in_use := Categories_help_in_use quiet;
     Channels_bot_commands := Channels_bot_commands quiet |}.

(** The channel refuses the typing indicator. *)
Definition muted : Env :=
  {| typing := fun _ => Raise HTTPException;
     paste_service := paste_service quiet;
     eval_service := eval_service quiet;
     filter_cog := false;
     filter_eval := filter_eval quiet;
     channel_send := channel_send quiet;
     message_edit := message_edit quiet;
     reaction_add := reaction_add quiet;
     add_reaction := add_reaction quiet;
     clear_reaction := clear_reaction quiet;
     delete_message := delete_message quiet;
     invokes_command := invokes_command quiet;
     now := now quiet;
     Roles_helpers := Roles_helpers quiet;
     Categories_help_in_use := Categories_help_in_use quiet;
     Channels_bot_commands := Channels_bot_commands quiet |}.

(** The author edits the message to the given text and confirms with
    the reaction, every time; a reaction on another message comes
    first. *)
Definition edits_to (text : str) : Env :=
  {| typing := typing quiet;
     paste_service := paste_service quiet;
     eval_service := eval_service quiet;
     filter_cog := false;
     filter_eval := filter_eval quiet;
     channel_send := channel_send quiet;
     message_edit :=
       fun _ => [(MkMessage 1%Z (u "!eval print(2+2)"), MkMessage 1%Z text)];
     reaction_add :=
       fun _ => [MkReaction 7%Z 42%Z REEVAL_EMOJI; MkReaction 1%Z 42%Z REEVAL_EMOJI];
     add_reaction := add_reaction quiet;
     clear_reaction := clear_reaction quiet;
     delete_message := delete_message quiet;
     invokes_command := invokes_command quiet;
     now := now quiet;
     Roles_helpers := Roles_helpers quiet;
     Categories_help_in_use := Categories_help_in_use quiet;
     Channels_bot_commands := Channels_bot_commands quiet |}.

(** The same, with a new content that does not invoke the command. *)
Definition rewrites_to (text : str) : Env :=
  {| typing := typing quiet;
     paste_service := paste_service quiet;
     eval_service := eval_service quiet;
     filter_cog := false;
     filter_eval := filter_eval quiet;
     channel_send := channel_send quiet;
     message_edit := message_edit (edits_to text);
     reaction_add := reaction_add (edits_to text);
     add_reaction := add_reaction quiet;
     clear_reaction := clear_reaction quiet;
     delete_message := delete_message quiet;
     invokes_command := fun _ _ => false;
     now := now quiet;
     Roles_helpers := Roles_helpers quiet;
     Categories_help_in_use := Categories_help_in_use quiet;
     Channels_bot_commands := Channels_bot_commands quiet |}.

(** The job died without a return code; what it had printed is three
    backticks. *)
Definition crashed : Env :=
  {| typing := typing quiet;
     paste_service := paste_service quiet;
     eval_service := fun _ _ _ => Ok (MkResults (u "```") None);
     filter_cog := false;
     filter_eval := filter_eval quiet;
     channel_send := channel_send quiet;
     message_edit := message_edit quiet;
     reaction_add := reaction_add quiet;
     add_reaction := add_reaction quiet;
     clear_reaction := clear_reaction quiet;
     delete_message := delete_message quiet;
     invokes_command := invokes_command quiet;
     now := now quiet;
     Roles_helpers := Roles_helpers quiet;
     Categories_help_in_use := Categories_help_in_use quiet;
     Channels_bot_commands := Channels_bot_commands quiet |}.

(** The filter cog is loaded and its check fires on every message. *)
Definition filtered : Env :=
  {| typing := typing quiet;
     paste_service := paste_service quiet;
     eval_service := eval_service quiet;
     filter_cog := true;
     filter_eval := fun _ _ => true;
     channel_send := channel_send quiet;
     message_edit := message_edit quiet;
     reaction_add := reaction_add quiet;
     add_reaction := add_reaction quiet;
     clear_reaction := clear_reaction quiet;
     delete_message := delete_message quiet;
     invokes_command := invokes_command quiet;
     now := now quiet;
     Roles_helpers := Roles_helpers quiet;
     Categories_help_in_use := Categories_help_in_use quiet;
     Channels_bot_commands := Channels_bot_commands quiet |}.

Definition alice : Context :=
  {| author_id := 42%Z;
     author_mention := u "<@42>";
     author_roles := [];
     channel_id := 267659945086812160%Z;
     channel_category_id := None;
     message_id := 1%Z |}.

Definition idle : World := MkWorld ∅ [].

(** Alice has a job running. *)
Definition busy : World := MkWorld {[ 42%Z := 0%Z ]} [].

End Scenario.

(** * Properties *)

Import Str Re Textwrap Snekbox Sem Spec.

(** ** The status emoji *)

Lemma strip_nil : strip [] = [].
Proof. reflexivity. Qed.

Lemma C6_blank_stdout_counterexample :
  ~ (forall results : Results,
        returncode results = None \/ returncode results = Some 255%Z ->
        get_status_emoji results = u ":x:").
Proof.
  intros H.
  specialize (H (MkResults [] None) (or_introl eq_refl)).
  vm_compute in H. discriminate H.
Qed.

(** C6 (amended): for a result whose return code is absent or 255 the
    status emoji is the cross exactly when the output has something other
    than whitespace in it; a blank output gives the warning sign. *)
Theorem C6_failed_job_emoji (results : Results) :
  returncode results = None \/ returncode results = Some 255%Z ->
  get_status_emoji results =
    (if is_empty (strip (stdout results)) then u ":warning:" else u ":x:").
Proof.
  intros H. unfold get_status_emoji.
  destruct (is_empty (strip (stdout results))); [reflexivity |].
  destruct H as [-> | ->]; reflexivity.
Qed.

Lemma C6_failed_job_emoji_witness :
  (returncode (MkResults (u "Traceback") (Some 255%Z)) = None
   \/ returncode (MkResults (u "Traceback") (Some 255%Z)) = Some 255%Z)
  /\ get_status_emoji (MkResults (u "Traceback") (Some 255%Z)) = u ":x:".
Proof.
  split; [right; reflexivity |].
  apply (C6_failed_job_emoji (MkResults (u "Traceback") (Some 255%Z))).
  right; reflexivity.
Defined.

(** ** The eval session *)

Ltac unfold_M :=
  unfold mbind, M_bind, mret, M_ret, bind, ret, raise, call, call_raising,
    catch, finally in *.

Lemma entries_for_le_1 (uid : Z) (registry : gmap Z Z) :
  entries_for uid registry <= 1.
Proof.
  unfold entries_for.
  pose proof (NoDup_fst_map_to_list registry) as Hnd.
  induction (map_to_list registry) as [| [k v] l IH]; simpl; [lia |].
  apply NoDup_cons in Hnd as [Hk Hnd]. specialize (IH Hnd).
  destruct (Z.eqb_spec k uid) as [-> | Hne]; simpl; [| lia].
  assert (List.filter (fun kv : Z * Z => (kv.1 =? uid)%Z) l = []) as ->; [| simpl; lia].
  clear -Hk. induction l as [| [k' v'] l IH]; [reflexivity |]. simpl.
  destruct (Z.eqb_spec k' uid) as [-> | Hne].
  - exfalso. apply Hk. simpl. left.
  - apply IH. intros Hin. apply Hk. simpl. right. exact Hin.
Qed.

Lemma entries_for_present (uid : Z) (registry : gmap Z Z) :
  is_Some (registry !! uid) -> entries_for uid registry = 1.
Proof.
  intros [v Hv]. pose proof (entries_for_le_1 uid registry) as Hle.
  enough (0 < entries_for uid registry) by lia.
  unfold entries_for.
  apply elem_of_map_to_list in Hv.
  induction (map_to_list registry) as [| [k x] l IH]; [inversion Hv |].
  simpl. apply elem_of_cons in Hv as [Heq | Hin].
  - inversion Heq; subst. rewrite Z.eqb_refl. simpl. lia.
  - destruct (Z.eqb k uid); simpl; [lia | apply IH; exact Hin].
Qed.

(** C3: a submission by a user who has an entry in the registry is turned
    down with the notice and nothing else: the only external call is the
    notice, no request goes to the evaluation service, the registry is as
    it was and holds one entry for the user; and no registry holds two
    entries for one user. *)
Theorem C3_running_user_rejected
        (rounds : nat) (ctx : Context) (code : str) (format_func : FormatFunc)
        (args : option (list str)) (env : Env) (w : World) :
  is_Some (jobs w !! author_id ctx) ->
  let '(r, w') := run_eval rounds ctx code format_func args env w in
  calls_since w w' = [EvSend (JOB_RUNNING_NOTICE ctx)]
  /\ r = match channel_send env (trace w) (JOB_RUNNING_NOTICE ctx) with
         | Ok _ => Ok Returned
         | Raise e => Raise e
         end
  /\ Forall (fun ev => is_post_eval ev = false) (calls_since w w')
  /\ jobs w' = jobs w
  /\ entries_for (author_id ctx) (jobs w') = 1
  /\ forall (uid : Z) (registry : gmap Z Z), entries_for uid registry <= 1.
Proof.
  intros Hjob. unfold run_eval.
  destruct (jobs w !! author_id ctx) as [t |] eqn:Hlook; [| destruct Hjob; discriminate].
  unfold ctx_send. unfold_M.
  assert (calls_since w (MkWorld (jobs w) (trace w ++ [EvSend (JOB_RUNNING_NOTICE ctx)]))
          = [EvSend (JOB_RUNNING_NOTICE ctx)]) as Hcalls.
  { unfold calls_since. simpl. rewrite drop_app_length. reflexivity. }
  destruct (channel_send env (trace w) (JOB_RUNNING_NOTICE ctx)) as [m | e];
    (split; [exact Hcalls |]; split; [reflexivity |];
     split; [rewrite Hcalls; repeat constructor |];
     split; [reflexivity |];
     split; [apply entries_for_present; simpl; rewrite Hlook; eauto |];
     apply entries_for_le_1).
Qed.

Lemma C3_running_user_rejected_witness :
  is_Some (jobs Scenario.busy !! author_id Scenario.alice)
  /\ let '(r, w') := run_eval 3 Scenario.alice (u "print(1)") format_output None
                               Scenario.quiet Scenario.busy in
     calls_since Scenario.busy w' = [EvSend (JOB_RUNNING_NOTICE Scenario.alice)]
     /\ r = Ok Returned
     /\ jobs w' = jobs Scenario.busy.
Proof.
  assert (is_Some (jobs Scenario.busy !! author_id Scenario.alice)) as Hbusy.
  { exists 0%Z. reflexivity. }
  split; [exact Hbusy |].
  pose proof (C3_running_user_rejected 3 Scenario.alice (u "print(1)")
                format_output None Scenario.quiet Scenario.busy Hbusy) as H.
  destruct (run_eval 3 Scenario.alice (u "print(1)") format_output None
                     Scenario.quiet Scenario.busy) as [r w'].
  destruct H as (Hcalls & Hr & _ & Hjobs & _).
  split; [exact Hcalls |]. split; [exact Hr | exact Hjobs].
Defined.

Lemma attempt_unfold (ctx : Context) (code : str) (args : option (list str))
      (format_func : FormatFunc) (env : Env) (w : World) :
  attempt ctx code args format_func env w =
    let w0 := snd (jobs_set (author_id ctx) env w) in
    let '(r0, ws) := send_eval ctx code args format_func env w0 in
    match jobs ws !! author_id ctx with
    | Some _ => (r0, MkWorld (delete (author_id ctx) (jobs ws)) (trace ws))
    | None => (Raise KeyError, ws)
    end.
Proof.
  unfold attempt, jobs_set, jobs_del. unfold_M. simpl.
  destruct (send_eval ctx code args format_func env _) as [r0 ws].
  destruct (jobs ws !! author_id ctx); reflexivity.
Qed.

(** C4: the entry that an attempt puts into the registry is there while
    [send_eval] runs and is gone when the attempt is over, whether
    [send_eval] returned a response or raised; the wait for a
    re-evaluation starts from that world, and does not start at all when
    the attempt raised. *)
Theorem C4_attempt_releases_registry_entry
        (ctx : Context) (code : str) (args : option (list str))
        (format_func : FormatFunc) (env : Env) (w : World) :
  let w0 := snd (jobs_set (author_id ctx) env w) in
  let '(r0, ws) := send_eval ctx code args format_func env w0 in
  let '(r, w1) := attempt ctx code args format_func env w in
  jobs w0 !! author_id ctx = Some (now env (trace w))
  /\ jobs w1 !! author_id ctx = None
  /\ trace w1 = trace ws
  /\ (r = r0 \/ r = Raise KeyError /\ jobs ws !! author_id ctx = None)
  /\ forall rounds : nat,
       eval_loop (S rounds) ctx code args format_func env w =
         match r with
         | Ok response =>
             (code' ← continue_eval ctx response;
              match code' with
              | Some (c :: l) => eval_loop rounds ctx (c :: l) args format_func
              | _ => ret Returned
              end) env w1
         | Raise e => (Raise e, w1)
         end.
Proof.
  intros w0.
  pose proof (attempt_unfold ctx code args format_func env w) as Hatt.
  fold w0 in Hatt. cbv zeta in Hatt.
  destruct (send_eval ctx code args format_func env w0) as [r0 ws] eqn:Hsend.
  destruct (attempt ctx code args format_func env w) as [r w1] eqn:Hattempt.
  split.
  { unfold w0, jobs_set. simpl. apply lookup_insert_eq. }
  assert (forall rounds : nat,
       eval_loop (S rounds) ctx code args format_func env w =
         match r with
         | Ok response =>
             (code' ← continue_eval ctx response;
              match code' with
              | Some (c :: l) => eval_loop rounds ctx (c :: l) args format_func
              | _ => ret Returned
              end) env w1
         | Raise e => (Raise e, w1)
         end) as Hloop.
  { intros rounds. simpl. unfold mbind at 1. unfold M_bind at 1. unfold bind at 1.
    rewrite Hattempt. destruct r; reflexivity. }
  destruct (jobs ws !! author_id ctx) eqn:Hlook; inversion Hatt; subst.
  - split; [simpl; apply lookup_delete_eq |].
    split; [reflexivity |]. split; [left; reflexivity | exact Hloop].
  - split; [exact Hlook |].
    split; [reflexivity |]. split; [right; split; reflexivity | exact Hloop].
Qed.

Lemma quiet_step_refl (w : World) : quiet_step w w.
Proof. split; [reflexivity |]. exists []. rewrite app_nil_r. split; [reflexivity | constructor]. Qed.

Lemma quiet_step_trans (w1 w2 w3 : World) :
  quiet_step w1 w2 -> quiet_step w2 w3 -> quiet_step w1 w3.
Proof.
  intros [Hj1 (e1 & Ht1 & Hf1)] [Hj2 (e2 & Ht2 & Hf2)]. split; [congruence |].
  exists (e1 ++ e2). rewrite Ht2, Ht1, app_assoc. split; [reflexivity |].
  apply Forall_app; split; assumption.
Qed.

Lemma quiet_step_calls (w : World) (evs : list Event) :
  Forall (fun ev => is_post_eval ev = false) evs ->
  quiet_step w (MkWorld (jobs w) (trace w ++ evs)).
Proof. intros Hevs. split; [reflexivity |]. exists evs. split; [reflexivity | exact Hevs]. Qed.

Lemma continue_eval_quiet (ctx : Context) (response : Message) (env : Env) (w : World) :
  quiet_step w (snd (continue_eval ctx response env w)).
Proof.
  unfold continue_eval, wait_for_message_edit, wait_for_reaction_add, get_code.
  unfold_M. simpl.
  repeat match goal with
         | |- context [match ?x with _ => _ end] =>
             lazymatch x with
             | context [match _ with _ => _ end] => fail
             | _ => destruct x eqn:?
             end; simpl
         end;
    rewrite <- ?app_assoc;
    first [ apply quiet_step_refl
          | apply quiet_step_calls; simpl; repeat constructor ].
Qed.

(** C10: when [continue_eval] gives no code, or the empty string, after
    an attempt, the loop is left at once: the run ends in the world that
    [continue_eval] left, and nothing was sent to the evaluation service
    since the attempt ended. *)
Theorem C10_empty_code_ends_session
        (rounds : nat) (ctx : Context) (code : str) (args : option (list str))
        (format_func : FormatFunc) (env : Env) (w w1 w2 : World)
        (response : Message) (code' : option str) :
  attempt ctx code args format_func env w = (Ok response, w1) ->
  continue_eval ctx response env w1 = (Ok code', w2) ->
  code' = None \/ code' = Some [] ->
  eval_loop (S rounds) ctx code args format_func env w = (Ok Returned, w2)
  /\ Forall (fun ev => is_post_eval ev = false) (calls_since w1 w2).
Proof.
  intros Hatt Hcont Hcode. split.
  - simpl. unfold mbind at 1, M_bind at 1, bind at 1. rewrite Hatt.
    unfold mbind at 1, M_bind at 1, bind at 1. rewrite Hcont.
    destruct Hcode as [-> | ->]; reflexivity.
  - pose proof (continue_eval_quiet ctx response env w1) as [_ (evs & Htr & Hevs)].
    rewrite Hcont in Htr. simpl in Htr.
    unfold calls_since. rewrite Htr, drop_app_length. exact Hevs.
Qed.

(** The author edits the message to an empty code block and confirms:
    the session stops there. *)
Lemma C10_empty_code_ends_session_witness :
  let env := Scenario.edits_to (u "!eval ``` ```") in
  let ctx := Scenario.alice in
  let w1 := snd (attempt ctx (u "print(2+2)") None format_output env Scenario.idle) in
  let response := MkMessage 3%Z [] in
  let w2 := snd (continue_eval ctx response env w1) in
  attempt ctx (u "print(2+2)") None format_output env Scenario.idle = (Ok response, w1)
  /\ continue_eval ctx response env w1 = (Ok (Some []), w2)
  /\ eval_loop 5 ctx (u "print(2+2)") None format_output env Scenario.idle
     = (Ok Returned, w2)
  /\ Forall (fun ev => is_post_eval ev = false) (calls_since w1 w2).
Proof.
  intros env ctx w1 response w2.
  assert (attempt ctx (u "print(2+2)") None format_output env Scenario.idle
          = (Ok response, w1)) as Hatt by (vm_compute; reflexivity).
  assert (continue_eval ctx response env w1 = (Ok (Some []), w2)) as Hcont
      by (vm_compute; reflexivity).
  split; [exact Hatt |]. split; [exact Hcont |].
  exact (C10_empty_code_ends_session 4 ctx (u "print(2+2)") None format_output
           env Scenario.idle w1 w2 response (Some []) Hatt Hcont
           (or_intror eq_refl)).
Defined.

(** Both ways out of an attempt, on sample environments. *)
Example attempt_returns :
  attempt Scenario.alice (u "print(2+2)") None format_output
          Scenario.quiet Scenario.idle
  = (Ok (MkMessage 3%Z []),
     MkWorld ∅
       [EvTyping;
        EvPostEval (u "print(2+2)") None;
        EvStat (u "snekbox.python.success");
        EvSend (u "<@42> :white_check_mark: Your eval job has completed with return code 0."
                  ++ [NL; NL] ++ u "```" ++ [NL] ++ u "4" ++ [NL] ++ u "```");
        EvWaitForDeletion 3%Z]).
Proof. vm_compute. reflexivity. Qed.

Example attempt_raises :
  attempt Scenario.alice (u "print(2+2)") None format_output
          Scenario.unreachable Scenario.idle
  = (Raise ClientError, MkWorld ∅ [EvTyping; EvPostEval (u "print(2+2)") None]).
Proof. vm_compute. reflexivity. Qed.

Example attempt_typing_refused :
  attempt Scenario.alice (u "print(2+2)") None format_output
          Scenario.muted Scenario.idle
  = (Raise HTTPException, MkWorld ∅ [EvTyping]).
Proof. vm_compute. reflexivity. Qed.

(** ** The timing variant of the formatter *)

Lemma split_nl_length (s : str) : length (split_nl s) = S (count_nl s).
Proof.
  induction s as [| c t IH]; [reflexivity |]. simpl.
  destruct (is_nl c); simpl; [rewrite IH; reflexivity |].
  destruct (split_nl t); simpl in *; [discriminate IH | exact IH].
Qed.

Lemma rsplit1_nl_spec (s : str) :
  match rsplit1_nl s with
  | (_, Some b) => 0 < count_nl s /\ last (split_nl s) = Some b
  | (a, None) => count_nl s = 0 /\ split_nl s = [s] /\ a = s
  end.
Proof.
  induction s as [| c t IH]; simpl; [repeat split; reflexivity |].
  pose proof (split_nl_length t) as Hlen.
  destruct (rsplit1_nl t) as [a [b |]].
  - destruct IH as [Hcount Hlast].
    destruct (is_nl c).
    + split; [lia |]. destruct (split_nl t); [discriminate Hlast | exact Hlast].
    + split; [exact Hcount |].
      destruct (split_nl t) as [| l [| l' ls]]; simpl in *; [lia | lia | exact Hlast].
  - destruct IH as (Hcount & Hsplit & ->).
    destruct (is_nl c).
    + split; [lia |]. rewrite Hsplit. reflexivity.
    + rewrite Hsplit. repeat split. exact Hcount.
Qed.

Lemma C7_long_single_line_counterexample :
  ~ (forall (output : str) (env : Env) (w : World),
        is_timing_line (last_line (rstrip is_nl output)) = true ->
        format_timeit_output output env w
        = (Ok (last_line (rstrip is_nl output), None), w)).
Proof.
  intros H.
  specialize (H (replicate 1000 (digit 1) ++ u " loops, best of 5: 1 sec per loop")
                Scenario.quiet Scenario.idle).
  assert (is_timing_line
            (last_line (rstrip is_nl (replicate 1000 (digit 1)
                                        ++ u " loops, best of 5: 1 sec per loop")))
          = true) as Hline by (vm_compute; reflexivity).
  specialize (H Hline).
  apply (f_equal (fun r => match r with (Ok (_, None), _) => true | _ => false end)) in H.
  vm_compute in H. discriminate H.
Qed.

(** C7 (amended): when the output, without its trailing newlines, has more
    than one line and its last line is a timing line, the timing variant
    returns that line alone, with no paste link and without touching the
    paste service; in every other case, a one-line output included, it
    returns what the general formatter returns. *)
Theorem C7_timeit_output (output : str) (env : Env) (w : World) :
  format_timeit_output output env w =
    let s := rstrip is_nl output in
    if (0 <? count_nl s) && is_timing_line (last_line s)
    then (Ok (last_line s, None), w)
    else format_output output env w.
Proof.
  unfold format_timeit_output, is_timing_line, last_line. cbv zeta.
  pose proof (rsplit1_nl_spec (rstrip is_nl output)) as Hsplit.
  destruct (rsplit1_nl (rstrip is_nl output)) as [a [b |]].
  - destruct Hsplit as [Hcount ->]. simpl.
    destruct (Nat.ltb_spec 0 (count_nl (rstrip is_nl output))); [| lia]. simpl.
    destruct (fullmatch TIMEIT_OUTPUT_REGEX b); reflexivity.
  - destruct Hsplit as (-> & _ & _). reflexivity.
Qed.

(** A run of [timeit] that printed a warning first, then the timing. *)
Example timeit_two_lines :
  format_timeit_output
    (u "warning" ++ [NL] ++ u "500000 loops, best of 5: 1.25 usec per loop" ++ [NL])
    Scenario.quiet Scenario.idle
  = (Ok (u "500000 loops, best of 5: 1.25 usec per loop", None), Scenario.idle).
Proof. vm_compute. reflexivity. Qed.

(** ** The matcher: repetition *)

Lemma star_loop_total (g : bool) (body : cont -> cont) (k : cont) :
  (forall st, is_Some (k st)) ->
  forall fuel st, is_Some (star_loop g body k fuel st).
Proof.
  intros Hk fuel st. destruct fuel as [| fuel]; simpl; [apply Hk |].
  destruct (Hk st) as [r Hr]. rewrite Hr.
  destruct g; simpl; [| eauto].
  match goal with |- is_Some (orelse ?a _) => destruct a end; simpl; eauto.
Qed.

(** ** The escape pattern *)

Lemma match_at_escape (p : nat) (s : str) :
  is_Some (match_at ESCAPE_REGEX p s)
  <-> exists a b c t, s = a :: b :: c :: t
        /\ escape_char a = true /\ escape_char b = true /\ escape_char c = true.
Proof.
  unfold match_at, ESCAPE_REGEX, AtLeast3.
  split.
  - intros H.
    destruct s as [| a [| b [| c t]]]; cbn [exec rest advance skipn] in H.
    + destruct H as [? H]; discriminate H.
    + destruct (escape_char a); cbn [exec rest advance skipn] in H;
        destruct H as [? H]; discriminate H.
    + destruct (escape_char a); cbn [exec rest advance skipn] in H;
        [destruct (escape_char b); cbn [exec rest advance skipn] in H |];
        destruct H as [? H]; discriminate H.
    + destruct (escape_char a) eqn:Ha; cbn [exec rest advance skipn] in H;
        [| destruct H as [? H]; discriminate H].
      destruct (escape_char b) eqn:Hb; cbn [exec rest advance skipn] in H;
        [| destruct H as [? H]; discriminate H].
      destruct (escape_char c) eqn:Hc; cbn [exec rest advance skipn] in H;
        [| destruct H as [? H]; discriminate H].
      exists a, b, c, t. repeat split; assumption.
  - intros (a & b & c & t & -> & Ha & Hb & Hc).
    cbn [exec rest]. rewrite Ha. cbn [exec rest advance skipn].
    rewrite Hb. cbn [exec rest advance skipn]. rewrite Hc.
    match goal with
    | |- is_Some (match ?e with _ => _ end) =>
        assert (is_Some e) as [r ->]; [| eauto]
    end.
    cbn [exec]. apply star_loop_total. intros st. eauto.
Qed.

Lemma has_escape_run_cons (a : char) (s : str) :
  has_escape_run (a :: s) =
    match s with
    | b :: c :: _ => escape_char a && escape_char b && escape_char c
    | _ => false
    end || has_escape_run s.
Proof. reflexivity. Qed.

Lemma scan_escape (p : nat) (s : str) :
  scan ESCAPE_REGEX 0 p s = [] <-> has_escape_run s = false.
Proof.
  revert p. induction s as [| a t IH]; intros p.
  - simpl. split; reflexivity.
  - rewrite has_escape_run_cons. cbn [scan].
    destruct (match_at ESCAPE_REGEX p (a :: t)) as [m |] eqn:Hm.
    + assert (is_Some (match_at ESCAPE_REGEX p (a :: t))) as Hsome by (rewrite Hm; eauto).
      apply match_at_escape in Hsome as (a' & b & c & t' & Heq & Ha & Hb & Hc).
      inversion Heq; subst. rewrite Ha, Hb, Hc. simpl. split; discriminate.
    + rewrite IH.
      assert (match t with
              | b :: c :: _ => escape_char a && escape_char b && escape_char c
              | _ => false
              end = false) as ->; [| reflexivity].
      destruct t as [| b [| c t']]; try reflexivity.
      destruct (escape_char a && escape_char b && escape_char c) eqn:Habc; [| reflexivity].
      apply andb_prop in Habc as [Hab Hc]. apply andb_prop in Hab as [Ha Hb].
      assert (is_Some (match_at ESCAPE_REGEX p (a :: b :: c :: t'))) as [x Hx].
      { apply match_at_escape. exists a, b, c, t'. repeat split; assumption. }
      rewrite Hx in Hm. discriminate Hm.
Qed.

Lemma finditer_escape (s : str) :
  finditer ESCAPE_REGEX s = [] <-> has_escape_run s = false.
Proof. apply scan_escape. Qed.

(** ** Strings *)

Lemma strip_prefix_spec (w s r : str) : strip_prefix w s = Some r <-> s = w ++ r.
Proof.
  revert s. induction w as [| a w IH]; intros s; simpl.
  - split; [intros [= ->]; reflexivity | intros ->; reflexivity].
  - destruct s as [| b s]; [split; discriminate |].
    destruct (N.eqb_spec a b) as [-> | Hne].
    + rewrite IH. split; [intros ->; reflexivity | intros [= ->]; reflexivity].
    + split; [discriminate | intros [= <- _]; congruence].
Qed.

Lemma startswith_spec (s w : str) : startswith s w = true <-> exists r, s = w ++ r.
Proof.
  unfold startswith. destruct (strip_prefix w s) as [r |] eqn:H.
  - apply strip_prefix_spec in H. split; eauto.
  - split; [discriminate |]. intros [r Hr]. apply strip_prefix_spec in Hr. congruence.
Qed.

Lemma replace_from_skip (old new l t : str) :
  replace_from old new (length l) (l ++ t) = replace_from old new 0 t.
Proof. induction l as [| c l IH]; [reflexivity | exact IH]. Qed.

(** The equations of [replace] for a non-empty [old]. *)
Lemma replace_match (o : char) (old new t : str) :
  replace (o :: old) new ((o :: old) ++ t) = new ++ replace (o :: old) new t.
Proof.
  unfold replace. cbn [app replace_from].
  assert (startswith (o :: old ++ t) (o :: old) = true) as ->.
  { apply startswith_spec. exists t. reflexivity. }
  replace (length (o :: old) - 1) with (length old) by (simpl; lia).
  rewrite replace_from_skip. reflexivity.
Qed.

Lemma replace_no_match (old new : str) (c : char) (t : str) :
  startswith (c :: t) old = false ->
  replace old new (c :: t) = c :: replace old new t.
Proof. intros H. unfold replace. cbn [replace_from]. rewrite H. reflexivity. Qed.

(** Induction along the way [replace] walks through a text. *)
Lemma replace_ind (o : char) (old new : str) (P : str -> str -> Prop) :
  P [] [] ->
  (forall t r, P t r -> P ((o :: old) ++ t) (new ++ r)) ->
  (forall c t r, startswith (c :: t) (o :: old) = false -> P t r -> P (c :: t) (c :: r)) ->
  forall s, P s (replace (o :: old) new s).
Proof.
  intros Hnil Hmatch Hstep s.
  remember (length s) as n eqn:Hn. revert s Hn.
  induction n as [n IH] using lt_wf_ind. intros s Hn.
  destruct s as [| c t]; [exact Hnil |].
  destruct (startswith (c :: t) (o :: old)) eqn:Hsw.
  - apply startswith_spec in Hsw as [r Hr]. rewrite Hr, replace_match.
    apply Hmatch. apply (IH (length r)); [| reflexivity].
    subst n. rewrite Hr. rewrite length_app. simpl. lia.
  - rewrite replace_no_match by exact Hsw. apply Hstep; [exact Hsw |].
    apply (IH (length t)); [subst n; simpl; lia | reflexivity].
Qed.

Lemma count_nl_app (a b : str) : count_nl (a ++ b) = count_nl a + count_nl b.
Proof.
  induction a as [| c a IH]; [reflexivity |]. simpl.
  destruct (is_nl c); rewrite IH; reflexivity.
Qed.

Lemma replace_count_nl (o : char) (old new s : str) :
  count_nl new = count_nl (o :: old) ->
  count_nl (replace (o :: old) new s) = count_nl s.
Proof.
  intros Hnew. apply (replace_ind o old new (fun s r => count_nl r = count_nl s)).
  - reflexivity.
  - intros t r IH. rewrite !count_nl_app, IH, Hnew. reflexivity.
  - intros c t r _ IH. simpl. rewrite IH. reflexivity.
Qed.

Lemma replace_length (o : char) (old new s : str) :
  length (o :: old) <= length new ->
  length s <= length (replace (o :: old) new s).
Proof.
  intros Hnew. apply (replace_ind o old new (fun s r => length s <= length r)).
  - reflexivity.
  - intros t r IH. rewrite !length_app. lia.
  - intros c t r _ IH. simpl. lia.
Qed.

(** ** Escape runs and the neutralized mentions *)

Lemma has_escape_run_app_r (p t : str) :
  has_escape_run t = true -> has_escape_run (p ++ t) = true.
Proof.
  intros H. induction p as [| a p IH]; [exact H |].
  cbn [app]. rewrite has_escape_run_cons, IH. apply orb_true_r.
Qed.

Lemma has_escape_run_skip (old t : str) :
  forallb (fun c => negb (escape_char c)) old = true ->
  has_escape_run (old ++ t) = has_escape_run t.
Proof.
  intros H. induction old as [| a old IH]; [reflexivity |].
  cbn [forallb] in H. apply andb_prop in H as [Ha Hold].
  cbn [app]. rewrite has_escape_run_cons, (IH Hold).
  apply negb_true_iff in Ha. rewrite Ha.
  destruct (old ++ t) as [| b [| c l]]; reflexivity.
Qed.

Lemma replace_keeps_escape_run (o : char) (old new s : str) :
  forallb (fun c => negb (escape_char c)) (o :: old) = true ->
  has_escape_run s = true ->
  has_escape_run (replace (o :: old) new s) = true.
Proof.
  intros Hold.
  assert (forall c t, escape_char c = true -> startswith (c :: t) (o :: old) = false) as Hesc.
  { intros c t Hc. destruct (startswith (c :: t) (o :: old)) eqn:Hsw; [| reflexivity].
    apply startswith_spec in Hsw as [r Hr]. injection Hr as -> _.
    cbn [forallb] in Hold. rewrite Hc in Hold. discriminate Hold. }
  apply (replace_ind o old new
           (fun s r => (has_escape_run s = true -> has_escape_run r = true)
                       /\ (forall a b, escape_char a = true -> escape_char b = true ->
                                       (exists t, s = a :: b :: t) -> exists t', r = a :: b :: t')
                       /\ (forall a, escape_char a = true ->
                                     (exists t, s = a :: t) -> exists t', r = a :: t'))).
  - repeat split; [discriminate | intros ? ? _ _ [? [=]] | intros ? _ [? [=]]].
  - intros t r (IH & _ & _). split; [| split].
    + rewrite has_escape_run_skip by exact Hold. intros H. apply has_escape_run_app_r, IH, H.
    + intros a b Ha _ [t' Ht']. injection Ht' as -> _.
      cbn [forallb] in Hold. rewrite Ha in Hold. discriminate Hold.
    + intros a Ha [t' Ht']. injection Ht' as -> _.
      cbn [forallb] in Hold. rewrite Ha in Hold. discriminate Hold.
  - intros c t r Hsw (IH & IH2 & IH1). split; [| split].
    + rewrite !has_escape_run_cons. intros H. apply orb_prop in H as [H | H].
      * destruct t as [| b [| c' t']]; try discriminate H.
        apply andb_prop in H as [Hab Hc']. apply andb_prop in Hab as [Ha Hb].
        destruct (IH2 b c' Hb Hc' (ex_intro _ t' eq_refl)) as [r' ->].
        rewrite Ha, Hb, Hc'. reflexivity.
      * rewrite (IH H). apply orb_true_r.
    + intros a b Ha Hb [t' Ht']. injection Ht' as -> ->.
      destruct (IH1 b Hb (ex_intro _ t' eq_refl)) as [r' ->]. eauto.
    + intros a Ha [t' Ht']. injection Ht' as -> ->. eauto.
Qed.

Lemma neutralize_keeps_escape_run (s : str) :
  has_escape_run s = true -> has_escape_run (neutralize s) = true.
Proof.
  intros H. unfold neutralize.
  assert (has_escape_run
            (if contains (u "<@") s
             then replace (u "<@") (u "<@" ++ [ZWSP]) s else s) = true) as H1.
  { destruct (contains (u "<@") s); [| exact H].
    apply (replace_keeps_escape_run 60%N [64%N]); [reflexivity | exact H]. }
  destruct (contains (u "<!@") _); [| exact H1].
  apply (replace_keeps_escape_run 60%N [33%N; 64%N]); [reflexivity | exact H1].
Qed.

Lemma neutralize_count_nl (s : str) : count_nl (neutralize s) = count_nl s.
Proof.
  unfold neutralize.
  assert (count_nl (if contains (u "<@") s
                    then replace (u "<@") (u "<@" ++ [ZWSP]) s else s) = count_nl s) as H1.
  { destruct (contains (u "<@") s); [| reflexivity].
    apply (replace_count_nl 60%N [64%N]). reflexivity. }
  destruct (contains (u "<!@") _); [| exact H1].
  rewrite <- H1. apply (replace_count_nl 60%N [33%N; 64%N]). reflexivity.
Qed.

Lemma neutralize_length (s : str) : length s <= length (neutralize s).
Proof.
  unfold neutralize.
  assert (length s <= length (if contains (u "<@") s
                              then replace (u "<@") (u "<@" ++ [ZWSP]) s else s)) as H1.
  { destruct (contains (u "<@") s); [| reflexivity].
    apply (replace_length 60%N [64%N]). simpl. lia. }
  destruct (contains (u "<!@") _); [| exact H1].
  etransitivity; [exact H1 |]. apply (replace_length 60%N [33%N; 64%N]). simpl. lia.
Qed.

(** ** The general formatter *)

Lemma upload_output_spec (s : str) (env : Env) (w : World) :
  upload_output s env w =
    if N.ltb MAX_PASTE_LEN (N.of_nat (length s))
    then (Ok (Some (u "too long to upload")), w)
    else (Ok (paste_service env (trace w) s),
          MkWorld (jobs w) (trace w ++ [EvPaste s])).
Proof.
  unfold upload_output.
  destruct (N.ltb MAX_PASTE_LEN (N.of_nat (length s))); reflexivity.
Qed.

Lemma truncate_spec (lines : nat) (o : str) :
  let '(tr, out) := truncate lines o in
  (tr = true <-> 10 < lines \/ 1000 <= length o)
  /\ (tr = true ->
      exists head tail, out = head ++ tail /\ length head <= 1000
                        /\ tail ∈ MARKER_LINES)
  /\ (tr = false -> out = o /\ length o < 1000).
Proof.
  unfold truncate, MARKER_LINES.
  destruct (Nat.ltb_spec 10 lines) as [Hl | Hl];
    destruct (Nat.leb_spec 1000 (length o)) as [Ho | Ho].
  - split; [split; auto |]. split; [| discriminate]. intros _.
    eexists _, _. split; [reflexivity |].
    split; [rewrite length_firstn; lia | apply list_elem_of_here].
  - split; [split; auto |]. split; [| discriminate]. intros _.
    eexists _, _. split; [reflexivity |].
    split; [lia | apply list_elem_of_further, list_elem_of_here].
  - split; [split; auto |]. split; [| discriminate]. intros _.
    eexists _, _. split; [reflexivity |].
    split; [rewrite length_firstn; lia
           | apply list_elem_of_further, list_elem_of_further, list_elem_of_here].
  - split; [split; [discriminate | lia] |]. split; [discriminate |].
    intros _. split; [reflexivity | lia].
Qed.

(** The two branches of [format_output]. *)
Lemma format_output_cases (output : str) (env : Env) (w : World) :
  format_output output env w =
    let s := rstrip is_nl output in
    if has_escape_run (neutralize s) then escape_outcome s env w
    else
      let '(tr, out) := truncate (count_nl (neutralize s)) (numbered (neutralize s)) in
      if tr then
        match upload_output s env w with
        | (Ok link, w') => (Ok (out, link), w')
        | (Raise e, w') => (Raise e, w')
        end
      else (Ok (if is_empty out then u "[No output]" else out, None), w).
Proof.
  unfold format_output. cbv zeta.
  destruct (finditer ESCAPE_REGEX (neutralize (rstrip is_nl output))) as [| m ms] eqn:Hfind.
  - apply finditer_escape in Hfind. rewrite Hfind.
    fold (numbered (neutralize (rstrip is_nl output))).
    pose proof (truncate_spec (count_nl (neutralize (rstrip is_nl output)))
                  (numbered (neutralize (rstrip is_nl output)))) as Hspec.
    destruct (truncate _ _) as [tr out]. destruct tr.
    + destruct Hspec as (_ & Hcut & _).
      destruct (Hcut eq_refl) as (head & tail & -> & _ & Htail).
      unfold mbind, M_bind, bind, ret.
      destruct (upload_output (rstrip is_nl output) env w) as [[link | e] w']; [| reflexivity].
      assert (is_empty (head ++ tail) = false) as ->; [| reflexivity].
      destruct head; [| reflexivity]. simpl.
      unfold MARKER_LINES in Htail.
      repeat (apply elem_of_cons in Htail as [-> | Htail]; [reflexivity |]).
      inversion Htail.
    + reflexivity.
  - destruct (has_escape_run (neutralize (rstrip is_nl output))) eqn:Hrun; [reflexivity |].
    apply finditer_escape in Hrun. rewrite Hrun in Hfind. discriminate Hfind.
Qed.

Lemma marker_line_has_newline (tail : str) : tail ∈ MARKER_LINES -> NL ∈ tail.
Proof.
  unfold MARKER_LINES. intros H.
  repeat (apply elem_of_cons in H as [-> | H]; [apply list_elem_of_here |]).
  inversion H.
Qed.

Lemma escape_body_one_line : NL ∉ ESCAPE_BODY.
Proof.
  intros H. apply list_elem_of_In in H.
  assert (forallb (fun c => negb (N.eqb c NL)) ESCAPE_BODY = true) as Hall
      by (vm_compute; reflexivity).
  rewrite forallb_forall in Hall. specialize (Hall NL H).
  vm_compute in Hall. discriminate Hall.
Qed.

Lemma C1_mention_counterexample :
  ~ (forall (output : str) (env : Env) (w : World),
        format_output output env w = escape_outcome (rstrip is_nl output) env w
        <-> has_escape_run (rstrip is_nl output) = true).
Proof.
  intros H.
  destruct (H (u "<@``") Scenario.quiet Scenario.idle) as [H1 _].
  assert (has_escape_run (rstrip is_nl (u "<@``")) = true) as Hrun.
  { apply H1. vm_compute. reflexivity. }
  vm_compute in Hrun. discriminate Hrun.
Qed.

(** C1 (amended): [format_output] gives the outcome of the escape branch,
    the fixed warning with the stripped original handed to
    [upload_output], exactly when the output, without its trailing
    newlines and with the zero-width spaces put in behind the mention
    sigils, has three characters in a row out of backtick, U+202E and
    U+200B; this is so in particular when the stripped output itself has
    such a run, whatever its size. *)
Theorem C1_escape_check (output : str) (env : Env) (w : World) :
  let original := rstrip is_nl output in
  (format_output output env w = escape_outcome original env w
   <-> has_escape_run (neutralize original) = true)
  /\ (has_escape_run original = true ->
      format_output output env w = escape_outcome original env w).
Proof.
  intros original.
  assert (has_escape_run (neutralize original) = true ->
          format_output output env w = escape_outcome original env w) as Hif.
  { intros Hrun. rewrite format_output_cases. cbv zeta. fold original.
    rewrite Hrun. reflexivity. }
  split; [split; [| exact Hif] | intros H; apply Hif, neutralize_keeps_escape_run, H].
  intros Heq. destruct (has_escape_run (neutralize original)) eqn:Hrun; [reflexivity |].
  exfalso. rewrite format_output_cases in Heq. cbv zeta in Heq. fold original in Heq.
  rewrite Hrun in Heq.
  pose proof (truncate_spec (count_nl (neutralize original)) (numbered (neutralize original)))
    as Hspec.
  destruct (truncate _ _) as [tr out].
  unfold escape_outcome, mbind, M_bind, bind, ret in Heq.
  rewrite upload_output_spec in Heq.
  destruct tr.
  - destruct Hspec as (_ & Hcut & _).
    destruct (Hcut eq_refl) as (head & tail & -> & _ & Htail).
    assert (head ++ tail = ESCAPE_BODY) as Hbody.
    { destruct (N.ltb MAX_PASTE_LEN (N.of_nat (length original)));
        injection Heq as Hbody; exact Hbody. }
    apply escape_body_one_line. rewrite <- Hbody.
    apply elem_of_app. right. apply marker_line_has_newline, Htail.
  - destruct (N.ltb MAX_PASTE_LEN (N.of_nat (length original))); [discriminate Heq |].
    injection Heq as _ _ Hw. apply (f_equal (fun x => length (trace x))) in Hw.
    simpl in Hw. rewrite length_app in Hw. simpl in Hw. lia.
Qed.

Lemma C1_escape_check_witness :
  has_escape_run (rstrip is_nl (u "ok ```" ++ [NL])) = true
  /\ format_output (u "ok ```" ++ [NL]) Scenario.quiet Scenario.idle
     = escape_outcome (rstrip is_nl (u "ok ```" ++ [NL])) Scenario.quiet Scenario.idle.
Proof.
  assert (has_escape_run (rstrip is_nl (u "ok ```" ++ [NL])) = true) as Hrun
      by (vm_compute; reflexivity).
  split; [exact Hrun |].
  exact (proj2 (C1_escape_check (u "ok ```" ++ [NL]) Scenario.quiet Scenario.idle) Hrun).
Defined.

Lemma join_nl_cons (l l' : str) (ls : list str) :
  join_nl (l :: l' :: ls) = l ++ NL :: join_nl (l' :: ls).
Proof. reflexivity. Qed.

Lemma split_nl_cons (c : char) (t : str) :
  exists l ls, split_nl t = l :: ls
               /\ split_nl (c :: t) = if is_nl c then [] :: l :: ls else (c :: l) :: ls.
Proof.
  pose proof (split_nl_length t) as Hlen.
  destruct (split_nl t) as [| l ls] eqn:Hsplit; [discriminate Hlen |].
  exists l, ls. split; [reflexivity |]. simpl. rewrite Hsplit. reflexivity.
Qed.

Lemma join_split_nl (s : str) : join_nl (split_nl s) = s.
Proof.
  induction s as [| c t IH]; [reflexivity |].
  destruct (split_nl_cons c t) as (l & ls & Ht & ->). rewrite Ht in IH.
  unfold is_nl. destruct (N.eqb_spec c NL) as [-> | Hne].
  - rewrite join_nl_cons, IH. reflexivity.
  - destruct ls as [| l' ls]; simpl in *; rewrite IH; reflexivity.
Qed.

Lemma length_join_imap (f : nat -> str -> str) (ls : list str) :
  (forall i l, length l <= length (f i l)) ->
  length (join_nl ls) <= length (join_nl (imap f ls)).
Proof.
  revert f. induction ls as [| l ls IH]; intros f Hf; [reflexivity |].
  destruct ls as [| l' ls]; [apply Hf |].
  change (imap f (l :: l' :: ls)) with (f 0 l :: imap (f ∘ S) (l' :: ls)).
  specialize (IH (f ∘ S) (fun i x => Hf (S i) x)).
  destruct (imap (f ∘ S) (l' :: ls)) as [| y ys] eqn:Himap; [discriminate Himap |].
  rewrite !join_nl_cons, !length_app. cbn [length].
  specialize (Hf 0 l). lia.
Qed.

Lemma numbered_length (s : str) : count_nl s <= 10 -> length s <= length (numbered s).
Proof.
  intros Hcount. unfold numbered. destruct (0 <? count_nl s); [| reflexivity].
  rewrite firstn_all2.
  - rewrite <- (join_split_nl s) at 1. apply length_join_imap.
    intros i l. rewrite !length_app. lia.
  - unfold number_lines. rewrite length_imap, split_nl_length. lia.
Qed.

Lemma C2_trailing_newlines_counterexample :
  ~ (forall (output : str) (env : Env) (w : World),
        10 < length (split_nl output) \/ 1000 < length output ->
        exists body link w',
          format_output output env w = (Ok (body, Some link), w')).
Proof.
  intros H.
  destruct (H (u "a" ++ replicate 2000 NL) Scenario.quiet Scenario.idle)
    as (body & link & w' & Heq).
  { right. rewrite length_app, length_replicate. simpl. lia. }
  apply (f_equal (fun r => match r with (Ok (_, Some _), _) => true | _ => false end)) in Heq.
  vm_compute in Heq. discriminate Heq.
Qed.

(** C2 (amended): the body that [format_output] returns is at most 1000
    characters followed by at most one marker line.  When the output,
    without its trailing newlines, has more than ten newlines or at least
    1000 characters, the paste link is what [upload_output] gives for that
    text: the fixed string when it is longer than 10000 characters, and
    otherwise the answer of the paste service, which is null when the
    service failed; the body then ends with a marker line, unless the
    escape branch was taken, where it is the fixed warning. *)
Theorem C2_bounded_body (output : str) (env : Env) (w : World) :
  let s := rstrip is_nl output in
  exists body link w',
    format_output output env w = (Ok (body, link), w')
    /\ (exists head tail,
           body = head ++ tail /\ length head <= 1000
           /\ (tail = [] \/ tail ∈ MARKER_LINES))
    /\ (10 < count_nl s \/ 1000 <= length s ->
        upload_output s env w = (Ok link, w')
        /\ link = (if N.ltb MAX_PASTE_LEN (N.of_nat (length s))
                   then Some (u "too long to upload")
                   else paste_service env (trace w) s)
        /\ (if has_escape_run (neutralize s) then body = ESCAPE_BODY
            else exists head tail,
                body = head ++ tail /\ length head <= 1000
                /\ tail ∈ MARKER_LINES)).
Proof.
  intros s. rewrite format_output_cases. cbv zeta. fold s.
  assert (forall link w', upload_output s env w = (Ok link, w') ->
            link = (if N.ltb MAX_PASTE_LEN (N.of_nat (length s))
                    then Some (u "too long to upload")
                    else paste_service env (trace w) s)) as Hlink.
  { intros link w'. rewrite upload_output_spec.
    destruct (N.ltb MAX_PASTE_LEN (N.of_nat (length s))); intros [= <- _]; reflexivity. }
  destruct (upload_output s env w) as [[link | e] wu] eqn:Hup;
    [| rewrite upload_output_spec in Hup;
       destruct (N.ltb MAX_PASTE_LEN (N.of_nat (length s))); discriminate Hup].
  destruct (has_escape_run (neutralize s)) eqn:Hrun.
  - unfold escape_outcome, mbind, M_bind, bind, ret. rewrite Hup.
    exists ESCAPE_BODY, link, wu. split; [reflexivity |]. split.
    + exists ESCAPE_BODY, []. rewrite app_nil_r.
      split; [reflexivity |]. split; [vm_compute; lia | left; reflexivity].
    + intros _. split; [reflexivity |]. split; [eapply Hlink; reflexivity | reflexivity].
  - pose proof (truncate_spec (count_nl (neutralize s)) (numbered (neutralize s))) as Hspec.
    destruct (truncate _ _) as [tr out]. destruct Hspec as (Htr & Hcut & Hkeep).
    destruct tr.
    + destruct (Hcut eq_refl) as (head & tail & -> & Hhead & Htail).
      exists (head ++ tail), link, wu. split; [reflexivity |]. split.
      * exists head, tail. split; [reflexivity |]. split; [exact Hhead | right; exact Htail].
      * intros _. split; [reflexivity |]. split; [eapply Hlink; reflexivity |].
        exists head, tail. repeat split; assumption.
    + destruct (Hkeep eq_refl) as [-> Hshort].
      eexists _, None, w. split; [reflexivity |]. split.
      * destruct (is_empty (numbered (neutralize s))).
        -- exists (u "[No output]"), []. rewrite app_nil_r.
           split; [reflexivity |]. split; [vm_compute; lia | left; reflexivity].
        -- exists (numbered (neutralize s)), []. rewrite app_nil_r.
           split; [reflexivity |]. split; [lia | left; reflexivity].
      * intros Hbig. exfalso.
        assert (10 < count_nl (neutralize s) \/ 1000 <= length (numbered (neutralize s)))
          as Hcut'; [| apply Htr in Hcut'; discriminate Hcut'].
        rewrite neutralize_count_nl.
        destruct (Nat.lt_ge_cases 10 (count_nl s)) as [Hl | Hl]; [left; exact Hl | right].
        destruct Hbig as [Hbig | Hbig]; [lia |].
        pose proof (neutralize_length s) as Hn.
        pose proof (numbered_length (neutralize s)) as Hnum.
        rewrite neutralize_count_nl in Hnum. specialize (Hnum Hl). lia.
Qed.

Lemma C2_bounded_body_witness :
  let output := u "0" ++ concat (replicate 12 (NL :: u "x")) in
  (10 < count_nl (rstrip is_nl output) \/ 1000 <= length (rstrip is_nl output))
  /\ exists body link w',
       format_output output Scenario.quiet Scenario.idle = (Ok (body, link), w')
       /\ upload_output (rstrip is_nl output) Scenario.quiet Scenario.idle = (Ok link, w').
Proof.
  intros output.
  assert (10 < count_nl (rstrip is_nl output) \/ 1000 <= length (rstrip is_nl output))
    as Hbig by (left; vm_compute; lia).
  split; [exact Hbig |].
  destruct (C2_bounded_body output Scenario.quiet Scenario.idle)
    as (body & link & w' & Heq & _ & Hup).
  exists body, link, w'. split; [exact Heq | exact (proj1 (Hup Hbig))].
Defined.

(** ** The matcher and what a pattern can match *)

Lemma star_loop_ext (g : bool) (body : cont -> cont) (k1 k2 : cont) :
  cont_ext body -> (forall st, k1 st = k2 st) ->
  forall fuel st, star_loop g body k1 fuel st = star_loop g body k2 fuel st.
Proof.
  intros Hbody Hk fuel. induction fuel as [| fuel IH]; intros st; simpl; [apply Hk |].
  rewrite (Hk st).
  rewrite (Hbody _ (fun st' =>
                      if length (rest st') <? length (rest st)
                      then star_loop g body k2 fuel st' else None)); [reflexivity |].
  intros st'. destruct (length (rest st') <? length (rest st)); [apply IH | reflexivity].
Qed.

Lemma exec_ext (r : regex) : cont_ext (exec r).
Proof.
  induction r as [| c | p | a IHa b IHb | a IHa b IHb | g a IHa | n a IHa | n
                  | n a IHa b IHb | |];
    intros k1 k2 Hk st; cbn [exec];
    try (rewrite ?Hk; reflexivity).
  - apply IHa. intros st'. apply IHb, Hk.
  - rewrite (IHa k1 k2 Hk), (IHb k1 k2 Hk). reflexivity.
  - apply star_loop_ext; assumption.
  - apply IHa. intros st'. apply Hk.
  - destruct (group_get n (caps st)); [| reflexivity]. rewrite Hk. reflexivity.
  - destruct (group_get n (caps st)); [apply IHa | apply IHb]; exact Hk.
Qed.

(** Fuel beyond the length of the subject changes nothing. *)
Lemma star_loop_fuel (g : bool) (body : cont -> cont) (k : cont) :
  cont_ext body ->
  forall n st f1 f2,
    length (rest st) <= n -> length (rest st) < f1 -> length (rest st) < f2 ->
    star_loop g body k f1 st = star_loop g body k f2 st.
Proof.
  intros Hbody n. induction n as [| n IH]; intros st f1 f2 Hn H1 H2;
    (destruct f1 as [| f1]; [lia |]); (destruct f2 as [| f2]; [lia |]); simpl.
  - rewrite (Hbody _ (fun st' =>
                        if length (rest st') <? length (rest st)
                        then star_loop g body k f2 st' else None)); [reflexivity |].
    intros st'. destruct (Nat.ltb_spec (length (rest st')) (length (rest st)));
      [lia | reflexivity].
  - rewrite (Hbody _ (fun st' =>
                        if length (rest st') <? length (rest st)
                        then star_loop g body k f2 st' else None)); [reflexivity |].
    intros st'. destruct (Nat.ltb_spec (length (rest st')) (length (rest st)));
      [| reflexivity].
    apply IH; lia.
Qed.

Lemma orelse_Some (a b : option mstate) (res : mstate) :
  orelse a b = Some res -> a = Some res \/ (a = None /\ b = Some res).
Proof. destruct a; simpl; intros H; [left | right]; auto. Qed.

Lemma star_loop_sound (g : bool) (a : regex) :
  (forall k st res, exec a k st = Some res ->
                    exists st', Matches a st st' /\ k st' = Some res) ->
  forall k fuel st res,
    star_loop g (exec a) k fuel st = Some res ->
    exists st', Matches (Star g a) st st' /\ k st' = Some res.
Proof.
  intros Ha k fuel. induction fuel as [| fuel IH]; intros st res H; simpl in H.
  - exists st. split; [constructor | exact H].
  - assert (forall again,
               again = exec a (fun st' =>
                                 if length (rest st') <? length (rest st)
                                 then star_loop g (exec a) k fuel st' else None) st ->
               again = Some res ->
               exists st', Matches (Star g a) st st' /\ k st' = Some res) as Hagain.
    { intros again -> Hsome. apply Ha in Hsome as (st1 & Hm & Hk).
      destruct (Nat.ltb_spec (length (rest st1)) (length (rest st))) as [Hlt |];
        [| discriminate Hk].
      apply IH in Hk as (st' & Hstar & Hk).
      exists st'. split; [| exact Hk]. eapply M_StarS; eassumption. }
    destruct g; apply orelse_Some in H as [H | [_ H]];
      try (eapply Hagain; [reflexivity | exact H]);
      exists st; (split; [constructor | exact H]).
Qed.

(** Whatever the matcher finds is a match of the pattern. *)
Lemma exec_sound (r : regex) (k : cont) (st res : mstate) :
  exec r k st = Some res ->
  exists st', Matches r st st' /\ k st' = Some res.
Proof.
  revert k st res.
  induction r as [| c | p | a IHa b IHb | a IHa b IHb | g a IHa | n a IHa | n
                  | n a IHa b IHb | |];
    intros k st res H; cbn [exec] in H.
  - exists st. split; [constructor | exact H].
  - destruct (rest st) as [| x t] eqn:Hrest; [discriminate H |].
    destruct (N.eqb_spec x c) as [-> | _]; [| discriminate H].
    eexists. split; [econstructor; exact Hrest | exact H].
  - destruct (rest st) as [| x t] eqn:Hrest; [discriminate H |].
    destruct (p x) eqn:Hp; [| discriminate H].
    eexists. split; [econstructor; eassumption | exact H].
  - apply IHa in H as (st1 & Hm1 & H). apply IHb in H as (st2 & Hm2 & H).
    exists st2. split; [econstructor; eassumption | exact H].
  - apply orelse_Some in H as [H | [_ H]].
    + apply IHa in H as (st' & Hm & H). exists st'. split; [apply M_AltL, Hm | exact H].
    + apply IHb in H as (st' & Hm & H). exists st'. split; [apply M_AltR, Hm | exact H].
  - eapply star_loop_sound; eassumption.
  - apply IHa in H as (st' & Hm & H). eexists. split; [apply M_Group, Hm | exact H].
  - destruct (group_get n (caps st)) as [w |] eqn:Hget; [| discriminate H].
    destruct (startswith (rest st) w) eqn:Hsw; [| discriminate H].
    eexists. split; [econstructor; eassumption | exact H].
  - destruct (group_get n (caps st)) as [w |] eqn:Hget.
    + apply IHa in H as (st' & Hm & H). exists st'. split; [| exact H].
      eapply M_IfSet; eassumption.
    + apply IHb in H as (st' & Hm & H). exists st'. split; [| exact H].
      eapply M_IfUnset; eassumption.
  - destruct (Nat.eqb_spec (pos st) 0) as [Hp |]; [| discriminate H].
    exists st. split; [constructor; exact Hp | exact H].
  - destruct (rest st) as [| x [| y t]] eqn:Hrest; try discriminate H.
    + exists st. split; [constructor; left; exact Hrest | exact H].
    + unfold is_nl in H. destruct (N.eqb_spec x NL) as [-> |]; [| discriminate H].
      exists st. split; [constructor; right; exact Hrest | exact H].
Qed.

Lemma is_Some_orelse_l (a b : option mstate) : is_Some a -> is_Some (orelse a b).
Proof. intros [x ->]. simpl. eauto. Qed.

Lemma is_Some_orelse_r (a b : option mstate) : is_Some b -> is_Some (orelse a b).
Proof. intros [x ->]. destruct a; simpl; eauto. Qed.

(** Whatever the pattern can match, the matcher finds a match, if
    perhaps another one. *)
Lemma exec_complete (r : regex) (st st' : mstate) :
  Matches r st st' ->
  forall k, is_Some (k st') -> is_Some (exec r k st).
Proof.
  induction 1 as [st | c st t Hrest | p c st t Hrest Hp
                  | a b st1 st2 st3 _ IH1 _ IH2
                  | a b st st' _ IH | a b st st' _ IH
                  | g a st | g a st1 st2 st3 _ IH1 Hlt _ IH2
                  | n a st st' _ IH | n st w Hget Hsw
                  | n a b st st' w Hget _ IH | n a b st st' Hget _ IH
                  | st Hpos | st Hrest];
    intros k Hk; cbn [exec].
  - exact Hk.
  - rewrite Hrest, N.eqb_refl. exact Hk.
  - rewrite Hrest, Hp. exact Hk.
  - apply IH1, IH2, Hk.
  - apply is_Some_orelse_l, IH, Hk.
  - apply is_Some_orelse_r, IH, Hk.
  - simpl. destruct g; [apply is_Some_orelse_r | apply is_Some_orelse_l]; exact Hk.
  - simpl.
    assert (is_Some (exec a (fun st' =>
                               if length (rest st') <? length (rest st1)
                               then star_loop g (exec a) k (length (rest st1)) st'
                               else None) st1)) as Hagain.
    { apply IH1. destruct (Nat.ltb_spec (length (rest st2)) (length (rest st1))); [| lia].
      specialize (IH2 k Hk). cbn [exec] in IH2.
      rewrite (star_loop_fuel g (exec a) k (exec_ext a) (length (rest st2)) st2
                 (length (rest st1)) (S (length (rest st2)))); [exact IH2 | lia | lia | lia]. }
    destruct g; [apply is_Some_orelse_l | apply is_Some_orelse_r]; exact Hagain.
  - apply IH. exact Hk.
  - rewrite Hget, Hsw. exact Hk.
  - rewrite Hget. apply IH, Hk.
  - rewrite Hget. apply IH, Hk.
  - rewrite Hpos. exact Hk.
  - destruct Hrest as [-> | ->]; [exact Hk |]. exact Hk.
Qed.

Lemma gname_eqb_eq (a b : gname) : gname_eqb a b = true <-> a = b.
Proof. destruct a, b; simpl; split; intros H; try reflexivity; discriminate H. Qed.

Lemma gname_eqb_refl (a : gname) : gname_eqb a a = true.
Proof. destruct a; reflexivity. Qed.

(** A match consumes a prefix of what is left of the subject. *)
Lemma Matches_rest (r : regex) (st st' : mstate) :
  Matches r st st' ->
  exists w, rest st = w ++ rest st' /\ pos st' = pos st + length w.
Proof.
  induction 1 as [st | c st t Hrest | p c st t Hrest Hp
                  | a b st1 st2 st3 _ IH1 _ IH2
                  | a b st st' _ IH | a b st st' _ IH
                  | g a st | g a st1 st2 st3 _ IH1 Hlt _ IH2
                  | n a st st' _ IH | n st w Hget Hsw
                  | n a b st st' w Hget _ IH | n a b st st' Hget _ IH
                  | st Hpos | st Hrest];
    try (exists []; split; [reflexivity | simpl; lia]);
    try exact IH.
  - exists [c]. simpl. rewrite Hrest. split; reflexivity.
  - exists [c]. simpl. rewrite Hrest. split; reflexivity.
  - destruct IH1 as (w1 & Hr1 & Hp1), IH2 as (w2 & Hr2 & Hp2).
    exists (w1 ++ w2). rewrite Hr1, Hr2, Hp2, Hp1, length_app, app_assoc.
    split; [reflexivity | lia].
  - destruct IH1 as (w1 & Hr1 & Hp1), IH2 as (w2 & Hr2 & Hp2).
    exists (w1 ++ w2). rewrite Hr1, Hr2, Hp2, Hp1, length_app, app_assoc.
    split; [reflexivity | lia].
  - apply startswith_spec in Hsw as [t Ht]. exists w. simpl.
    rewrite Ht, drop_app_length. split; reflexivity.
Qed.

(** A match leaves the groups alone that the pattern does not set. *)
Lemma Matches_caps_other (r : regex) (st st' : mstate) :
  Matches r st st' ->
  forall n, binds r n = false -> group_get n (caps st') = group_get n (caps st).
Proof.
  induction 1 as [st | c st t Hrest | p c st t Hrest Hp
                  | a b st1 st2 st3 _ IH1 _ IH2
                  | a b st st' _ IH | a b st st' _ IH
                  | g a st | g a st1 st2 st3 _ IH1 Hlt _ IH2
                  | n a st st' _ IH | n st w Hget Hsw
                  | n a b st st' w Hget _ IH | n a b st st' Hget _ IH
                  | st Hpos | st Hrest];
    intros m Hm; cbn [binds] in Hm; try reflexivity;
    try (apply orb_false_elim in Hm as [Hm1 Hm2]).
  - rewrite IH2, IH1 by assumption. reflexivity.
  - apply IH, Hm1.
  - apply IH, Hm2.
  - rewrite IH2, IH1 by assumption. reflexivity.
  - simpl. rewrite Hm1. apply IH, Hm2.
  - apply IH, Hm1.
  - apply IH, Hm2.
Qed.

(** A group that has matched stays set. *)
Lemma Matches_caps_mono (r : regex) (st st' : mstate) :
  Matches r st st' ->
  forall n, is_Some (group_get n (caps st)) -> is_Some (group_get n (caps st')).
Proof.
  induction 1 as [st | c st t Hrest | p c st t Hrest Hp
                  | a b st1 st2 st3 _ IH1 _ IH2
                  | a b st st' _ IH | a b st st' _ IH
                  | g a st | g a st1 st2 st3 _ IH1 Hlt _ IH2
                  | n a st st' _ IH | n st w Hget Hsw
                  | n a b st st' w Hget _ IH | n a b st st' Hget _ IH
                  | st Hpos | st Hrest];
    intros m Hm; try exact Hm; try (apply IH, Hm); try (apply IH2, IH1, Hm).
  simpl. destruct (gname_eqb m n); [eauto | apply IH, Hm].
Qed.

(** A group holds the text that its pattern consumed. *)
Lemma Matches_group (n : gname) (a : regex) (st st' : mstate) :
  Matches (Group n a) st st' ->
  exists w st1, Matches a st st1
                /\ rest st = w ++ rest st' /\ pos st' = pos st + length w
                /\ rest st1 = rest st'
                /\ caps st' = (n, w) :: caps st1.
Proof.
  intros H. inversion H as [| | | | | | | | n' a' st0 st1 Ha | | | | |]; subst.
  destruct (Matches_rest _ _ _ Ha) as (w & Hr & Hp).
  exists w, st1. split; [exact Ha |]. simpl.
  repeat split; try assumption.
  rewrite Hp, Hr. replace (pos st + length w - pos st) with (length w) by lia.
  rewrite take_app_length. reflexivity.
Qed.

(** ** The pattern of the formatted code *)

Lemma Matches_Seq (a b : regex) (st st' : mstate) :
  Matches (Seq a b) st st' -> exists st1, Matches a st st1 /\ Matches b st1 st'.
Proof. intros H. inversion H; subst. eauto. Qed.

Lemma Matches_Alt (a b : regex) (st st' : mstate) :
  Matches (Alt a b) st st' -> Matches a st st' \/ Matches b st st'.
Proof. intros H. inversion H; subst; auto. Qed.

Lemma Matches_Chr (c : char) (st st' : mstate) :
  Matches (Chr c) st st' ->
  exists t, rest st = c :: t /\ rest st' = t /\ caps st' = caps st.
Proof.
  intros H. inversion H as [| c' st0 t Hrest | | | | | | | | | | | |]; subst.
  exists t. simpl. rewrite Hrest. repeat split; reflexivity.
Qed.

Lemma Matches_Backref (n : gname) (st st' : mstate) :
  Matches (Backref n) st st' ->
  exists w, group_get n (caps st) = Some w
            /\ rest st = w ++ rest st' /\ caps st' = caps st.
Proof.
  intros H. inversion H as [| | | | | | | | | n' st0 w Hget Hsw | | | |]; subst.
  apply startswith_spec in Hsw as [r Hr]. exists w. simpl.
  rewrite Hr, drop_app_length. repeat split; assumption || reflexivity.
Qed.

(** A match of the delimiter starts with a backtick and consumes it. *)
Lemma delimiter_inv (st st' : mstate) :
  Matches (Alt (Group g_block (Lit [BACKTICK; BACKTICK; BACKTICK]))
               (Seq (Chr BACKTICK) (Opt (Chr BACKTICK)))) st st' ->
  exists w, rest st = BACKTICK :: w ++ rest st'.
Proof.
  intros H. apply Matches_Alt in H as [H | H].
  - apply Matches_group in H as (wb & sb & Hlit & _ & _ & Hsb & _).
    unfold Lit in Hlit. cbn [foldr] in Hlit.
    apply Matches_Seq in Hlit as (s1 & Hc & Hm).
    apply Matches_Chr in Hc as (t & Ht & Ht' & _).
    apply Matches_rest in Hm as (x & Hx & _).
    exists x. rewrite Ht, <- Ht', Hx, Hsb. reflexivity.
  - apply Matches_Seq in H as (s1 & Hc & Hm).
    apply Matches_Chr in Hc as (t & Ht & Ht' & _).
    apply Matches_rest in Hm as (x & Hx & _).
    exists x. rewrite Ht, <- Ht', Hx. reflexivity.
Qed.

(** Every match of the formatted code starts with a run of backticks,
    ends with the same run, and has its code group set. *)
Lemma formatted_inv (st st' : mstate) :
  Matches FORMATTED_CODE_REGEX st st' ->
  exists w mid,
    rest st = (BACKTICK :: w) ++ mid ++ (BACKTICK :: w) ++ rest st'
    /\ group_get g_delim (caps st') = Some (BACKTICK :: w)
    /\ is_Some (group_get g_code (caps st')).
Proof.
  intros H. unfold FORMATTED_CODE_REGEX in H.
  apply Matches_Seq in H as (s1 & Hdelim & H).
  apply Matches_Seq in H as (s2 & Hlang & H).
  apply Matches_Seq in H as (s3 & Hblank & H).
  apply Matches_Seq in H as (s4 & Hcode & H).
  apply Matches_Seq in H as (s5 & Hws & Hback).
  apply Matches_group in Hdelim as (w & s1a & Halt & Hrest1 & _ & Hrest1a & Hcaps1).
  assert (exists w', w = BACKTICK :: w') as [w' ->].
  { apply delimiter_inv in Halt as (x & Hx). rewrite Hrest1a in Hx.
    rewrite Hx in Hrest1.
    change (BACKTICK :: x ++ rest s1) with ((BACKTICK :: x) ++ rest s1) in Hrest1.
    apply app_inv_tail in Hrest1. eauto. }
  assert (group_get g_delim (caps s5) = Some (BACKTICK :: w')) as Hget.
  { rewrite (Matches_caps_other _ _ _ Hws) by reflexivity.
    rewrite (Matches_caps_other _ _ _ Hcode) by reflexivity.
    rewrite (Matches_caps_other _ _ _ Hblank) by reflexivity.
    rewrite (Matches_caps_other _ _ _ Hlang) by reflexivity.
    rewrite Hcaps1. reflexivity. }
  assert (is_Some (group_get g_code (caps s5))) as Hcodeset.
  { apply (Matches_caps_mono _ _ _ Hws).
    apply Matches_group in Hcode as (c & s4a & _ & _ & _ & _ & ->). simpl. eauto. }
  apply Matches_rest in Hlang as (x2 & Hx2 & _).
  apply Matches_rest in Hblank as (x3 & Hx3 & _).
  apply Matches_rest in Hcode as (x4 & Hx4 & _).
  apply Matches_rest in Hws as (x5 & Hx5 & _).
  apply Matches_Backref in Hback as (w0 & Hget0 & Hr & Hcaps).
  rewrite Hget in Hget0. injection Hget0 as <-.
  exists w', (x2 ++ x3 ++ x4 ++ x5). rewrite Hcaps.
  split; [| split; [exact Hget | exact Hcodeset]].
  rewrite Hrest1, Hx2, Hx3, Hx4, Hx5, Hr. rewrite <- !app_assoc. reflexivity.
Qed.

Lemma Matches_any_star (g : bool) (w t : str) (p : nat) (cs : list (gname * str)) :
  Matches (Star g (Cls any_char)) (MState p (w ++ t) cs) (MState (p + length w) t cs).
Proof.
  revert p. induction w as [| c w IH]; intros p.
  - simpl. rewrite Nat.add_0_r. constructor.
  - eapply M_StarS.
    + eapply (M_Cls any_char c); reflexivity.
    + simpl. rewrite drop_0. lia.
    + specialize (IH (p + 1)). simpl. rewrite ?drop_0.
      replace (p + S (length w)) with (p + 1 + length w) by lia. exact IH.
Qed.

(** Two backticks are enough for a match: the text between them, taken
    as inline code. *)
Lemma formatted_two_backticks (p : nat) (mid post : str) :
  exists st', Matches FORMATTED_CODE_REGEX
                      (MState p (BACKTICK :: mid ++ BACKTICK :: post) []) st'.
Proof.
  eexists. unfold FORMATTED_CODE_REGEX.
  eapply M_Seq.
  { apply M_Group. apply M_AltR. eapply M_Seq.
    - eapply M_Chr. reflexivity.
    - apply M_AltR. apply M_Eps. }
  eapply M_Seq.
  { apply M_IfUnset; [reflexivity | apply M_Eps]. }
  eapply M_Seq.
  { apply M_Star0. }
  eapply M_Seq.
  { apply M_Group. simpl. apply (Matches_any_star false mid). }
  eapply M_Seq.
  { apply M_Star0. }
  eapply M_Backref.
  - simpl. reflexivity.
  - simpl. replace (p + 1 - p) with 1 by lia. reflexivity.
Qed.

(** ** Scanning a text for matches *)

Lemma scan_nil (r : regex) (p : nat) (s : str) :
  scan r 0 p s = [] <->
  forall pre t, s = pre ++ t -> match_at r (p + length pre) t = None.
Proof.
  revert p. induction s as [| c s IH]; intros p; cbn [scan].
  - split.
    + intros H pre t Heq. symmetry in Heq. apply app_eq_nil in Heq as [-> ->].
      simpl. rewrite Nat.add_0_r. destruct (match_at r p []); [discriminate H | reflexivity].
    + intros H. specialize (H [] [] eq_refl). simpl in H. rewrite Nat.add_0_r in H.
      rewrite H. reflexivity.
  - split.
    + intros H. destruct (match_at r p (c :: s)) as [m |] eqn:Hm; [discriminate H |].
      intros pre t Heq. destruct pre as [| c' pre].
      * simpl in Heq. subst t. simpl. rewrite Nat.add_0_r. exact Hm.
      * injection Heq as -> ->. simpl.
        replace (p + S (length pre)) with (S p + length pre) by lia.
        apply (proj1 (IH (S p)) H). reflexivity.
    + intros H. pose proof (H [] (c :: s) eq_refl) as H0. simpl in H0.
      rewrite Nat.add_0_r in H0. rewrite H0. apply IH. intros pre t ->.
      replace (S p + length pre) with (p + length (c :: pre)) by (simpl; lia).
      apply H. reflexivity.
Qed.

(** Every match that the scan reports was found by the matcher at some
    place of the text. *)
Lemma scan_elements (r : regex) (skip p : nat) (s : str) (m : Match) :
  In m (scan r skip p s) -> exists p' t, match_at r p' t = Some m.
Proof.
  revert skip p. induction s as [| c s IH]; intros skip p; cbn [scan].
  - destruct skip; [| intros []].
    destruct (match_at r p []) as [m' |] eqn:Hm; [| intros []].
    intros [<- | []]. eauto.
  - destruct skip as [| skip]; [| apply IH].
    destruct (match_at r p (c :: s)) as [m' |] eqn:Hm; [| apply IH].
    intros [<- | Hin]; [eauto | eapply IH, Hin].
Qed.

Lemma match_at_Matches (r : regex) (p : nat) (s : str) (m : Match) :
  match_at r p s = Some m ->
  exists st', Matches r (MState p s []) st' /\ m_groups m = caps st'.
Proof.
  unfold match_at. destruct (exec r Some (MState p s [])) as [st' |] eqn:Hexec; [| discriminate].
  intros [= <-]. apply exec_sound in Hexec as (st'' & Hm & [= ->]). eauto.
Qed.

Lemma count_backticks_app (a b : str) :
  count_backticks (a ++ b) = count_backticks a + count_backticks b.
Proof.
  induction a as [| c a IH]; [reflexivity |]. simpl.
  destruct (N.eqb c BACKTICK); rewrite IH; reflexivity.
Qed.

Lemma count_backticks_split (s : str) :
  0 < count_backticks s ->
  exists pre t, s = pre ++ BACKTICK :: t /\ count_backticks pre = 0.
Proof.
  induction s as [| c s IH]; simpl; [lia |].
  destruct (N.eqb_spec c BACKTICK) as [-> | Hne].
  - intros _. exists [], s. split; reflexivity.
  - intros H. destruct (IH H) as (pre & t & -> & Hpre).
    exists (c :: pre), t. split; [reflexivity |]. simpl.
    destruct (N.eqb_spec c BACKTICK); [contradiction | exact Hpre].
Qed.

(** The formatted code is found in a text exactly when the text has two
    backticks. *)
Lemma formatted_found_iff (s : str) :
  finditer FORMATTED_CODE_REGEX s = [] <-> count_backticks s < 2.
Proof.
  split.
  - intros Hnil. destruct (Nat.lt_ge_cases (count_backticks s) 2) as [| Hge]; [assumption |].
    exfalso.
    destruct (count_backticks_split s) as (pre & t & -> & Hpre); [lia |].
    rewrite count_backticks_app in Hge. simpl in Hge.
    destruct (count_backticks_split t) as (mid & post & -> & _); [lia |].
    destruct (formatted_two_backticks (0 + length pre) mid post) as [st' Hm].
    pose proof (exec_complete _ _ _ Hm Some (ex_intro _ st' eq_refl)) as [res Hres].
    pose proof (proj1 (scan_nil _ 0 _) Hnil pre _ eq_refl) as Hnone.
    unfold match_at in Hnone. rewrite Hres in Hnone. discriminate Hnone.
  - intros Hlt. apply scan_nil. intros pre t ->.
    destruct (match_at FORMATTED_CODE_REGEX (0 + length pre) t) as [m |] eqn:Hm;
      [| reflexivity].
    exfalso. apply match_at_Matches in Hm as (st' & Hm & _).
    apply formatted_inv in Hm as (w & mid & Hrest & _). simpl in Hrest.
    rewrite count_backticks_app, Hrest in Hlt.
    change (BACKTICK :: w ++ mid ++ (BACKTICK :: w) ++ rest st')
      with ([BACKTICK] ++ (w ++ mid) ++ [BACKTICK] ++ (w ++ rest st')) in Hlt
      || idtac.
    simpl in Hlt. rewrite !count_backticks_app in Hlt. simpl in Hlt. lia.
Qed.

(** ** The delimiter group holds backticks only

    This is why the backreference can be compared without case
    folding. *)

Lemma Matches_Eps (st st' : mstate) : Matches Eps st st' -> st' = st.
Proof. intros H. inversion H; subst. reflexivity. Qed.

Lemma delimiter_text (st st' : mstate) :
  Matches (Alt (Group g_block (Lit [BACKTICK; BACKTICK; BACKTICK]))
               (Seq (Chr BACKTICK) (Opt (Chr BACKTICK)))) st st' ->
  exists w, rest st = BACKTICK :: w ++ rest st'
            /\ (w = [] \/ w = [BACKTICK] \/ w = [BACKTICK; BACKTICK]).
Proof.
  intros H. apply Matches_Alt in H as [H | H].
  - apply Matches_group in H as (wb & sb & Hlit & _ & _ & Hsb & _).
    unfold Lit in Hlit. cbn [foldr] in Hlit.
    apply Matches_Seq in Hlit as (s1 & Hc1 & Hm).
    apply Matches_Seq in Hm as (s2 & Hc2 & Hm).
    apply Matches_Seq in Hm as (s3 & Hc3 & Hm).
    apply Matches_Eps in Hm as ->.
    apply Matches_Chr in Hc1 as (t1 & Ht1 & Ht1' & _).
    apply Matches_Chr in Hc2 as (t2 & Ht2 & Ht2' & _).
    apply Matches_Chr in Hc3 as (t3 & Ht3 & Ht3' & _).
    exists [BACKTICK; BACKTICK]. split; [| auto].
    rewrite Ht1, <- Ht1', Ht2, <- Ht2', Ht3, <- Ht3', Hsb. reflexivity.
  - apply Matches_Seq in H as (s1 & Hc & Hm).
    apply Matches_Chr in Hc as (t & Ht & Ht' & _).
    apply Matches_Alt in Hm as [Hm | Hm].
    + apply Matches_Chr in Hm as (t2 & Ht2 & Ht2' & _).
      exists [BACKTICK]. split; [| auto]. rewrite Ht, <- Ht', Ht2, <- Ht2'. reflexivity.
    + apply Matches_Eps in Hm as ->.
      exists []. split; [| auto]. rewrite Ht, <- Ht'. reflexivity.
Qed.

Lemma formatted_delimiter (st st' : mstate) :
  Matches FORMATTED_CODE_REGEX st st' ->
  exists w, group_get g_delim (caps st') = Some (BACKTICK :: w)
            /\ (w = [] \/ w = [BACKTICK] \/ w = [BACKTICK; BACKTICK]).
Proof.
  intros H. unfold FORMATTED_CODE_REGEX in H.
  apply Matches_Seq in H as (s1 & Hdelim & H).
  apply Matches_Seq in H as (s2 & Hlang & H).
  apply Matches_Seq in H as (s3 & Hblank & H).
  apply Matches_Seq in H as (s4 & Hcode & H).
  apply Matches_Seq in H as (s5 & Hws & Hback).
  apply Matches_group in Hdelim as (w & s1a & Halt & Hrest1 & _ & Hrest1a & Hcaps1).
  apply delimiter_text in Halt as (x & Hx & Hshape). rewrite Hrest1a in Hx.
  rewrite Hx in Hrest1.
  change (BACKTICK :: x ++ rest s1) with ((BACKTICK :: x) ++ rest s1) in Hrest1.
  apply app_inv_tail in Hrest1. subst w.
  exists x. split; [| exact Hshape].
  apply Matches_Backref in Hback as (_ & _ & _ & ->).
  rewrite (Matches_caps_other _ _ _ Hws) by reflexivity.
  rewrite (Matches_caps_other _ _ _ Hcode) by reflexivity.
  rewrite (Matches_caps_other _ _ _ Hblank) by reflexivity.
  rewrite (Matches_caps_other _ _ _ Hlang) by reflexivity.
  rewrite Hcaps1. reflexivity.
Qed.

(** ** Repetition of a character class *)

Lemma orelse_None_r (a : option mstate) : orelse a None = a.
Proof. destruct a; reflexivity. Qed.

Lemma star_cls_stop (g : bool) (p : char -> bool) (k : cont) (fuel q : nat)
      (s : str) (cs : list (gname * str)) :
  match s with [] => True | c :: _ => p c = false end ->
  star_loop g (exec (Cls p)) k fuel (MState q s cs) = k (MState q s cs).
Proof.
  intros Hs. destruct fuel as [| fuel]; [reflexivity |]. cbn [star_loop exec rest].
  destruct s as [| c t]; [| rewrite Hs]; destruct g; simpl; rewrite ?orelse_None_r; reflexivity.
Qed.

Lemma star_cls_step (g : bool) (p : char -> bool) (k : cont) (fuel q : nat)
      (c : char) (t : str) (cs : list (gname * str)) :
  p c = true ->
  star_loop g (exec (Cls p)) k (S fuel) (MState q (c :: t) cs) =
    if g
    then orelse (star_loop g (exec (Cls p)) k fuel (MState (q + 1) t cs))
                (k (MState q (c :: t) cs))
    else orelse (k (MState q (c :: t) cs))
                (star_loop g (exec (Cls p)) k fuel (MState (q + 1) t cs)).
Proof.
  intros Hc. cbn [star_loop exec rest]. rewrite Hc.
  change (advance 1 (MState q (c :: t) cs)) with (MState (q + 1) t cs).
  cbn [rest length]. rewrite (proj2 (Nat.ltb_lt (length t) (S (length t)))) by lia.
  reflexivity.
Qed.

(** Trailing whitespace up to the end of the text. *)
Lemma exec_ws_tail (fuel q : nat) (s : str) (cs : list (gname * str)) :
  length s < fuel ->
  star_loop true (exec (Cls isspace)) (exec Eol at_end) fuel (MState q s cs) =
    if forallb isspace s then Some (MState (q + length s) [] cs) else None.
Proof.
  revert fuel q. induction s as [| c t IH]; intros fuel q Hfuel.
  - rewrite star_cls_stop by exact I. simpl. rewrite Nat.add_0_r. reflexivity.
  - assert (exec Eol at_end (MState q (c :: t) cs) = None) as Hk.
    { cbn [exec rest]. destruct t; [destruct (is_nl c) |]; reflexivity. }
    cbn [forallb]. destruct (isspace c) eqn:Hc.
    + destruct fuel as [| fuel]; [simpl in Hfuel; lia |].
      rewrite star_cls_step by exact Hc. rewrite Hk, orelse_None_r.
      rewrite IH by (simpl in Hfuel; lia). simpl.
      destruct (forallb isspace t); [| reflexivity].
      do 2 f_equal. simpl. lia.
    + rewrite star_cls_stop by exact Hc. exact Hk.
Qed.

Lemma exec_ws_end (q : nat) (s : str) (cs : list (gname * str)) :
  exec (Star true (Cls isspace)) (exec Eol at_end) (MState q s cs) =
    if forallb isspace s then Some (MState (q + length s) [] cs) else None.
Proof.
  change (exec (Star true (Cls isspace)) (exec Eol at_end) (MState q s cs))
    with (star_loop true (exec (Cls isspace)) (exec Eol at_end) (S (length s))
                    (MState q s cs)).
  apply exec_ws_tail. lia.
Qed.

(** A lazy run of any characters stops at the first place where the
    rest of the pattern matches. *)
Lemma exec_lazy_any (k : cont) (fuel q : nat) (s : str) (cs : list (gname * str)) :
  length s < fuel ->
  star_loop false (exec (Cls any_char)) k fuel (MState q s cs) = first_split k q s cs.
Proof.
  revert fuel q. induction s as [| c t IH]; intros fuel q Hfuel.
  - rewrite star_cls_stop by exact I. simpl. rewrite orelse_None_r. reflexivity.
  - destruct fuel as [| fuel]; [simpl in Hfuel; lia |].
    rewrite star_cls_step by reflexivity. rewrite IH by (simpl in Hfuel; lia).
    reflexivity.
Qed.

(** ** Trailing whitespace *)

Lemma forallb_rev (p : char -> bool) (s : str) : forallb p (rev s) = forallb p s.
Proof.
  induction s as [| c t IH]; [reflexivity |]. simpl.
  rewrite forallb_app, IH. simpl. rewrite andb_true_r. apply andb_comm.
Qed.

Lemma lstrip_all (p : char -> bool) (a b : str) :
  forallb p a = true -> lstrip p (a ++ b) = lstrip p b.
Proof.
  induction a as [| c a IH]; [reflexivity |]. simpl.
  intros H. apply andb_prop in H as [-> H]. apply IH, H.
Qed.

Lemma lstrip_not_all (p : char -> bool) (a b : str) :
  forallb p a = false -> lstrip p (a ++ b) = lstrip p a ++ b.
Proof.
  induction a as [| c a IH]; [discriminate |]. simpl.
  destruct (p c); [apply IH | reflexivity].
Qed.

Lemma rstrip_cons (p : char -> bool) (c : char) (t : str) :
  rstrip p (c :: t) = if forallb p (c :: t) then [] else c :: rstrip p t.
Proof.
  unfold rstrip. cbn [rev forallb].
  destruct (forallb p t) eqn:Ht.
  - rewrite lstrip_all by (rewrite forallb_rev; exact Ht). simpl.
    rewrite <- (app_nil_r (rev t)), lstrip_all by (rewrite forallb_rev; exact Ht).
    destruct (p c); reflexivity.
  - rewrite lstrip_not_all by (rewrite forallb_rev; exact Ht).
    rewrite rev_app_distr, andb_false_r. reflexivity.
Qed.

Lemma rstrip_prefix (p : char -> bool) (s : str) :
  firstn (length (rstrip p s)) s = rstrip p s.
Proof.
  induction s as [| c t IH]; [reflexivity |].
  rewrite rstrip_cons. destruct (forallb p (c :: t)); [reflexivity |].
  simpl. rewrite IH. reflexivity.
Qed.

(** The code group of the raw pattern: the lazy run ends where only
    whitespace is left. *)
Lemma exec_code_then_ws (q0 : nat) (s0 : str) (q : nat) (s : str)
      (cs : list (gname * str)) :
  first_split
    (fun st' => exec (Star true (Cls isspace)) (exec Eol at_end)
                     (set_group g_code (MState q0 s0 cs) st'))
    q s cs
  = Some (MState (q + length s) []
                 ((g_code, firstn (q + length (rstrip isspace s) - q0) s0) :: cs)).
Proof.
  revert q. induction s as [| c t IH]; intros q.
  - cbn [first_split]. unfold set_group. cbn [rest pos caps].
    rewrite exec_ws_end. simpl. rewrite Nat.add_0_r. reflexivity.
  - cbn [first_split]. unfold set_group at 1. cbn [rest pos caps].
    rewrite exec_ws_end. rewrite rstrip_cons.
    destruct (forallb isspace (c :: t)).
    + simpl. rewrite Nat.add_0_r. reflexivity.
    + cbn [orelse]. rewrite IH. cbn [length].
      replace (q + 1 + length t) with (q + S (length t)) by lia.
      replace (q + 1 + length (rstrip isspace t) - q0)
        with (q + S (length (rstrip isspace t)) - q0) by lia.
      reflexivity.
Qed.

(** ** Leading blank lines *)

Lemma blank_prefix_length (s t : str) : blank_prefix s = Some t -> length t < length s.
Proof.
  revert t. induction s as [| c s IH]; intros t; simpl; [discriminate |].
  destruct (is_nl c); [intros [= ->]; lia |].
  destruct (is_sptab c); [| discriminate]. intros H. apply IH in H. lia.
Qed.

Lemma skip_blank_unfold (line s : str) :
  skip_blank line s =
    match blank_prefix s with Some t => skip_blank_lines t | None => line end.
Proof.
  induction s as [| c s IH]; simpl; [reflexivity |].
  destruct (is_nl c); [reflexivity |]. destruct (is_sptab c); [exact IH | reflexivity].
Qed.

Lemma skip_blank_lines_unfold (s : str) :
  skip_blank_lines s =
    match blank_prefix s with Some t => skip_blank_lines t | None => s end.
Proof. apply skip_blank_unfold. Qed.

Lemma skip_blank_lines_suffix (s : str) : exists pre, s = pre ++ skip_blank_lines s.
Proof.
  remember (length s) as n eqn:Hn. revert s Hn.
  induction n as [n IH] using lt_wf_ind. intros s Hn.
  rewrite skip_blank_lines_unfold.
  destruct (blank_prefix s) as [t |] eqn:Hbp; [| exists []; reflexivity].
  destruct (IH (length t)) with (s := t) as [pre Hpre];
    [subst n; eapply blank_prefix_length, Hbp | reflexivity |].
  assert (exists pre', s = pre' ++ t) as [pre' ->].
  { clear -Hbp. revert t Hbp. induction s as [| c s IH]; intros t; simpl; [discriminate |].
    destruct (is_nl c); [intros [= ->]; exists [c]; reflexivity |].
    destruct (is_sptab c); [| discriminate].
    intros H. destruct (IH _ H) as [pre ->]. exists (c :: pre). reflexivity. }
  exists (pre' ++ pre). rewrite <- app_assoc, <- Hpre. reflexivity.
Qed.

Lemma skip_blank_lines_length (s : str) : length (skip_blank_lines s) <= length s.
Proof.
  destruct (skip_blank_lines_suffix s) as [pre Hpre].
  rewrite Hpre at 2. rewrite length_app. lia.
Qed.

(** One blank line: spaces and tabs, then the newline. *)
Lemma exec_blank_line (k : cont) (fuel q : nat) (s : str) (cs : list (gname * str)) :
  length s < fuel ->
  star_loop true (exec (Cls is_sptab)) (exec (Chr NL) k) fuel (MState q s cs) =
    match blank_prefix s with
    | Some t => k (MState (q + (length s - length t)) t cs)
    | None => None
    end.
Proof.
  revert fuel q. induction s as [| c s IH]; intros fuel q Hfuel.
  - rewrite star_cls_stop by exact I. reflexivity.
  - cbn [blank_prefix]. unfold is_nl. destruct (N.eqb_spec c NL) as [-> | Hnl].
    + rewrite star_cls_stop by reflexivity. cbn [exec rest]. rewrite N.eqb_refl.
      change (advance 1 (MState q (NL :: s) cs)) with (MState (q + 1) s cs).
      f_equal. f_equal. simpl. lia.
    + assert (exec (Chr NL) k (MState q (c :: s) cs) = None) as Hk.
      { cbn [exec rest]. destruct (N.eqb_spec c NL); [contradiction | reflexivity]. }
      destruct (is_sptab c) eqn:Hc.
      * destruct fuel as [| fuel]; [simpl in Hfuel; lia |].
        rewrite star_cls_step by exact Hc. rewrite Hk, orelse_None_r.
        rewrite IH by (simpl in Hfuel; lia).
        destruct (blank_prefix s) as [t |] eqn:Hbp; [| reflexivity].
        apply blank_prefix_length in Hbp. f_equal. f_equal. simpl. lia.
      * rewrite star_cls_stop by exact Hc. exact Hk.
Qed.

(** The leading blank lines, before a rest of the pattern that cannot
    fail: all of them are taken. *)
Lemma exec_blank_lines (k : cont) :
  (forall st, is_Some (k st)) ->
  forall fuel q s cs,
    length s < fuel ->
    star_loop true (exec (Seq (Star true (Cls is_sptab)) (Chr NL))) k fuel (MState q s cs)
    = k (MState (q + (length s - length (skip_blank_lines s))) (skip_blank_lines s) cs).
Proof.
  intros Hk fuel. induction fuel as [| fuel IH]; intros q s cs Hfuel; [lia |].
  cbn [star_loop]. rewrite skip_blank_lines_unfold.
  change (exec (Seq (Star true (Cls is_sptab)) (Chr NL)) ?kk (MState q s cs))
    with (star_loop true (exec (Cls is_sptab)) (exec (Chr NL) kk) (S (length s))
                    (MState q s cs)).
  rewrite exec_blank_line by lia.
  destruct (blank_prefix s) as [t |] eqn:Hbp.
  - pose proof (blank_prefix_length _ _ Hbp) as Hlt.
    pose proof (skip_blank_lines_length t) as Hle.
    cbn [rest]. rewrite (proj2 (Nat.ltb_lt _ _) Hlt).
    rewrite IH by lia.
    replace (q + (length s - length t) + (length t - length (skip_blank_lines t)))
      with (q + (length s - length (skip_blank_lines t))) by lia.
    destruct (Hk (MState (q + (length s - length (skip_blank_lines t)))
                         (skip_blank_lines t) cs)) as [r ->].
    reflexivity.
  - cbn [orelse]. replace (q + (length s - length s)) with q by lia. reflexivity.
Qed.

(** ** The pattern of the raw code *)

Lemma exec_raw_code (q : nat) (s : str) (cs : list (gname * str)) :
  exec (Seq (Group g_code (Star false (Cls any_char)))
            (Seq (Star true (Cls isspace)) Eol))
       at_end (MState q s cs)
  = Some (MState (q + length s) [] ((g_code, rstrip isspace s) :: cs)).
Proof.
  change (exec (Seq (Group g_code (Star false (Cls any_char)))
                    (Seq (Star true (Cls isspace)) Eol))
               at_end (MState q s cs))
    with (star_loop false (exec (Cls any_char))
            (fun st' => exec (Star true (Cls isspace)) (exec Eol at_end)
                             (set_group g_code (MState q s cs) st'))
            (S (length s)) (MState q s cs)).
  rewrite exec_lazy_any by lia. rewrite exec_code_then_ws.
  replace (q + length (rstrip isspace s) - q) with (length (rstrip isspace s)) by lia.
  rewrite rstrip_prefix. reflexivity.
Qed.

(** The raw pattern matches every text; its code is the text without
    the leading blank lines and the trailing whitespace. *)
Lemma raw_fullmatch (s : str) :
  fullmatch RAW_CODE_REGEX s
  = Some (MkMatch 0 (length s) [(g_code, rstrip isspace (skip_blank_lines s))]).
Proof.
  unfold fullmatch, RAW_CODE_REGEX, blank_lines.
  change (exec (Seq Bol ?x) at_end (MState 0 s []))
    with (star_loop true (exec (Seq (Star true (Cls is_sptab)) (Chr NL)))
            (exec (Seq (Group g_code (Star false (Cls any_char)))
                       (Seq (Star true (Cls isspace)) Eol)) at_end)
            (S (length s)) (MState 0 s [])).
  rewrite exec_blank_lines; [| | lia].
  - rewrite exec_raw_code. cbn [pos caps]. f_equal. f_equal.
    pose proof (skip_blank_lines_length s). lia.
  - intros [q t cs]. rewrite exec_raw_code. eauto.
Qed.

(** ** Extraction *)

Lemma finditer_code_set (text : str) (m : Match) :
  In m (finditer FORMATTED_CODE_REGEX text) -> is_Some (group g_code m).
Proof.
  intros Hin. apply scan_elements in Hin as (p & t & Hm).
  apply match_at_Matches in Hm as (st' & Hm & Hgroups).
  apply formatted_inv in Hm as (_ & _ & _ & _ & Hcode).
  unfold group. rewrite Hgroups. exact Hcode.
Qed.

Lemma group_code_of (text : str) (m : Match) :
  In m (finditer FORMATTED_CODE_REGEX text) -> group g_code m = Some (code_of m).
Proof.
  intros Hin. apply finditer_code_set in Hin as [c Hc].
  unfold code_of. rewrite Hc. reflexivity.
Qed.

Lemma mapM_code_of (text : str) (ms : list Match) :
  (forall m, In m ms -> In m (finditer FORMATTED_CODE_REGEX text)) ->
  mapM (group g_code) ms = Some (map code_of ms).
Proof.
  induction ms as [| m ms IH]; intros Hin; [reflexivity |].
  cbn [mapM map]. rewrite (group_code_of text m) by (apply Hin; left; reflexivity).
  rewrite IH by (intros m' Hm'; apply Hin; right; exact Hm').
  reflexivity.
Qed.

(** What [prepare_input] extracts, case by case. *)
Lemma prepare_input_cases (text : str) :
  prepare_input text =
    Some (dedent
            match finditer FORMATTED_CODE_REGEX text with
            | [] => rstrip isspace (skip_blank_lines text)
            | first :: _ =>
                if 1 <? length (fenced_blocks text)
                then join_nl (map code_of (fenced_blocks text))
                else code_of match fenced_blocks text with
                             | [] => first
                             | b :: _ => b
                             end
            end).
Proof.
  unfold prepare_input, fenced_blocks. cbv zeta.
  destruct (finditer FORMATTED_CODE_REGEX text) as [| first found] eqn:Hfound.
  - rewrite raw_fullmatch. reflexivity.
  - assert (forall m, In m (List.filter is_block (first :: found)) ->
                      In m (finditer FORMATTED_CODE_REGEX text)) as Hblocks.
    { intros m Hm. apply filter_In in Hm as [Hm _]. rewrite Hfound. exact Hm. }
    destruct (1 <? length (List.filter is_block (first :: found))).
    + rewrite (mapM_code_of text) by exact Hblocks. reflexivity.
    + destruct (List.filter is_block (first :: found)) as [| b bs].
      * rewrite (group_code_of text first) by (rewrite Hfound; left; reflexivity).
        reflexivity.
      * rewrite (group_code_of text b) by (apply Hblocks; left; reflexivity).
        reflexivity.
Qed.

(** C9: [prepare_input] returns a code string for every text, and the
    raw pattern matches every text in full, with its code group set. *)
Theorem C9_prepare_input_total (text : str) :
  (exists code, prepare_input text = Some code)
  /\ (exists m code, fullmatch RAW_CODE_REGEX text = Some m
                     /\ group g_code m = Some code).
Proof.
  split.
  - rewrite prepare_input_cases. eauto.
  - rewrite raw_fullmatch. eexists _, _. split; reflexivity.
Qed.

Example prepare_input_empty : prepare_input [] = Some [].
Proof. vm_compute. reflexivity. Qed.

Example prepare_input_blank : prepare_input (u "   " ++ [NL; TAB; NL]) = Some [].
Proof. vm_compute. reflexivity. Qed.

Example prepare_input_unbalanced :
  prepare_input (u "  `print(1)  ") = Some (u "`print(1)").
Proof. vm_compute. reflexivity. Qed.

(** ** Lines *)

Lemma split_nl_one_line (s : str) : Forall one_line (split_nl s).
Proof.
  induction s as [| c t IH]; [repeat constructor |].
  destruct (split_nl_cons c t) as (l & ls & Ht & ->). rewrite Ht in IH.
  apply Forall_cons in IH as [Hl Hls].
  destruct (is_nl c) eqn:Hc.
  - repeat constructor; assumption.
  - constructor; [| exact Hls]. unfold one_line. simpl. rewrite Hc. exact Hl.
Qed.

Lemma split_nl_ne (s : str) : split_nl s <> [].
Proof. pose proof (split_nl_length s). destruct (split_nl s); [discriminate | discriminate]. Qed.

Lemma split_nl_line (l : str) : one_line l -> split_nl l = [l].
Proof.
  unfold one_line. induction l as [| c l IH]; [reflexivity |]. simpl.
  intros H. apply andb_prop in H as [Hc Hl]. apply negb_true_iff in Hc.
  rewrite Hc, (IH Hl). reflexivity.
Qed.

Lemma split_nl_app (l t : str) :
  one_line l -> split_nl (l ++ NL :: t) = l :: split_nl t.
Proof.
  unfold one_line. induction l as [| c l IH]; [reflexivity |]. simpl.
  intros H. apply andb_prop in H as [Hc Hl]. apply negb_true_iff in Hc.
  rewrite Hc, (IH Hl). reflexivity.
Qed.

Lemma split_join_nl (ls : list str) :
  ls <> [] -> Forall one_line ls -> split_nl (join_nl ls) = ls.
Proof.
  induction ls as [| l ls IH]; [congruence |]. intros _ Hall.
  apply Forall_cons in Hall as [Hl Hls].
  destruct ls as [| l' ls]; [apply split_nl_line, Hl |].
  rewrite join_nl_cons, split_nl_app by exact Hl.
  rewrite IH by (congruence || exact Hls). reflexivity.
Qed.

Lemma blank_prefix_line (l t : str) :
  one_line l ->
  blank_prefix (l ++ NL :: t) = if forallb is_sptab l then Some t else None.
Proof.
  unfold one_line. induction l as [| c l IH]; [reflexivity |]. simpl.
  intros H. apply andb_prop in H as [Hc Hl]. apply negb_true_iff in Hc.
  rewrite Hc. destruct (is_sptab c); [apply IH, Hl | reflexivity].
Qed.

Lemma blank_prefix_last (l : str) : one_line l -> blank_prefix l = None.
Proof.
  unfold one_line. induction l as [| c l IH]; [reflexivity |]. simpl.
  intros H. apply andb_prop in H as [Hc Hl]. apply negb_true_iff in Hc.
  rewrite Hc. destruct (is_sptab c); [apply IH, Hl | reflexivity].
Qed.

Lemma skip_blank_lines_join (ls : list str) :
  ls <> [] -> Forall one_line ls ->
  skip_blank_lines (join_nl ls) = join_nl (drop_blank ls).
Proof.
  induction ls as [| l ls IH]; [congruence |]. intros _ Hall.
  apply Forall_cons in Hall as [Hl Hls].
  rewrite skip_blank_lines_unfold.
  destruct ls as [| l' ls]; [simpl; rewrite blank_prefix_last by exact Hl; reflexivity |].
  rewrite join_nl_cons, blank_prefix_line by exact Hl.
  cbn [drop_blank]. destruct (forallb is_sptab l); [| reflexivity].
  apply IH; [congruence | exact Hls].
Qed.

(** The matcher's way of passing over blank lines is the removal of the
    leading blank lines. *)
Lemma skip_blank_lines_spec (s : str) : skip_blank_lines s = strip_leading_blank_lines s.
Proof.
  unfold strip_leading_blank_lines.
  rewrite <- (join_split_nl s) at 1.
  apply skip_blank_lines_join; [apply split_nl_ne | apply split_nl_one_line].
Qed.

(** ** The common margin *)

Lemma take_while_all (p : char -> bool) (l : str) : forallb p (take_while p l) = true.
Proof.
  induction l as [| c l IH]; [reflexivity |]. simpl.
  destruct (p c) eqn:Hc; [simpl; rewrite Hc; exact IH | reflexivity].
Qed.

Lemma take_while_split (p : char -> bool) (l : str) :
  forallb p l = false ->
  exists x t, l = take_while p l ++ x :: t /\ p x = false.
Proof.
  induction l as [| c l IH]; [discriminate |]. simpl.
  destruct (p c) eqn:Hc.
  - intros H. destruct (IH H) as (x & t & Hl & Hx).
    exists x, t. split; [simpl; rewrite <- Hl; reflexivity | exact Hx].
  - intros _. exists c, l. split; [reflexivity | exact Hc].
Qed.

Lemma take_while_app (p : char -> bool) (i : str) (x : char) (t : str) :
  forallb p i = true -> p x = false -> take_while p (i ++ x :: t) = i.
Proof.
  intros Hi Hx. induction i as [| c i IH]; simpl; [rewrite Hx; reflexivity |].
  simpl in Hi. apply andb_prop in Hi as [Hc Hi]. rewrite Hc, (IH Hi). reflexivity.
Qed.

Lemma common_prefix_nil_r (a : str) : common_prefix a [] = [].
Proof. destruct a; reflexivity. Qed.

Lemma common_prefix_app (m a b : str) :
  common_prefix (m ++ a) (m ++ b) = m ++ common_prefix a b.
Proof.
  induction m as [| c m IH]; [reflexivity |]. simpl.
  rewrite N.eqb_refl, IH. reflexivity.
Qed.

Lemma common_prefix_l (a b : str) : exists a', a = common_prefix a b ++ a'.
Proof.
  revert b. induction a as [| x a IH]; intros b; [exists []; reflexivity |].
  destruct b as [| y b]; [exists (x :: a); reflexivity |]. simpl.
  destruct (N.eqb x y); [| exists (x :: a); reflexivity].
  destruct (IH b) as [a' Ha]. exists a'. simpl. rewrite <- Ha. reflexivity.
Qed.

Lemma common_prefix_r (a b : str) : exists b', b = common_prefix a b ++ b'.
Proof.
  revert b. induction a as [| x a IH]; intros b; [exists b; reflexivity |].
  destruct b as [| y b]; [exists []; reflexivity |]. simpl.
  destruct (N.eqb_spec x y) as [-> |]; [| exists (y :: b); reflexivity].
  destruct (IH b) as [b' Hb]. exists b'. simpl. rewrite <- Hb. reflexivity.
Qed.

Lemma common_prefix_of_prefix_l (m r : str) : common_prefix m (m ++ r) = m.
Proof.
  induction m as [| c m IH]; [reflexivity |]. simpl. rewrite N.eqb_refl, IH. reflexivity.
Qed.

Lemma common_prefix_of_prefix_r (i r : str) : common_prefix (i ++ r) i = i.
Proof.
  induction i as [| c i IH]; [apply common_prefix_nil_r |].
  simpl. rewrite N.eqb_refl, IH. reflexivity.
Qed.

Lemma next_margin_Some (m i : str) :
  next_margin (Some m) i = Some (common_prefix m i).
Proof.
  unfold next_margin.
  destruct (startswith i m) eqn:H1.
  - apply startswith_spec in H1 as [r ->].
    rewrite common_prefix_of_prefix_l. reflexivity.
  - destruct (startswith m i) eqn:H2; [| reflexivity].
    apply startswith_spec in H2 as [r ->].
    rewrite common_prefix_of_prefix_r. reflexivity.
Qed.

Lemma fold_next_margin (I : list str) (a : str) :
  fold_left next_margin I (Some a) = Some (fold_left common_prefix I a).
Proof.
  revert a. induction I as [| i I IH]; intros a; [reflexivity |].
  cbn [fold_left]. rewrite next_margin_Some. apply IH.
Qed.

Lemma fold_common_prefix_acc (I : list str) (a : str) :
  exists a', a = fold_left common_prefix I a ++ a'.
Proof.
  revert a. induction I as [| i I IH]; intros a; [exists []; rewrite app_nil_r; reflexivity |].
  cbn [fold_left]. destruct (IH (common_prefix a i)) as [x Hx].
  destruct (common_prefix_l a i) as [y Hy].
  exists (x ++ y). rewrite app_assoc, <- Hx. exact Hy.
Qed.

Lemma fold_common_prefix_each (I : list str) (a i : str) :
  In i I -> exists i', i = fold_left common_prefix I a ++ i'.
Proof.
  revert a. induction I as [| j I IH]; intros a; [intros [] |].
  cbn [fold_left]. intros [-> | Hin]; [| apply IH, Hin].
  destruct (fold_common_prefix_acc I (common_prefix a i)) as [x Hx].
  destruct (common_prefix_r a i) as [y Hy].
  exists (x ++ y). rewrite app_assoc, <- Hx. exact Hy.
Qed.

Lemma fold_common_prefix_app (m : str) (I : list str) (a : str) :
  fold_left common_prefix (map (app m) I) (m ++ a) = m ++ fold_left common_prefix I a.
Proof.
  revert a. induction I as [| i I IH]; intros a; [reflexivity |].
  cbn [map fold_left]. rewrite common_prefix_app. apply IH.
Qed.

(** Once the common margin is cut off, no common margin is left. *)
Lemma fold_common_prefix_cut (I : list str) (a m : str) :
  m = fold_left common_prefix I a ->
  fold_left common_prefix (map (skipn (length m)) I) (skipn (length m) a) = [].
Proof.
  intros Hm.
  destruct (fold_common_prefix_acc I a) as [a' Ha]. rewrite <- Hm in Ha.
  assert (map (app m) (map (skipn (length m)) I) = I) as HI.
  { rewrite map_map. rewrite <- (map_id I) at 2. apply map_ext_in.
    intros i Hi. destruct (fold_common_prefix_each I a i Hi) as [i' Hi'].
    rewrite <- Hm in Hi'. rewrite Hi', drop_app_length. reflexivity. }
  assert (m ++ skipn (length m) a = a) as Ha2.
  { rewrite Ha, drop_app_length. reflexivity. }
  pose proof (fold_common_prefix_app m (map (skipn (length m)) I) (skipn (length m) a))
    as Happ.
  rewrite HI, Ha2, <- Hm in Happ.
  rewrite <- (app_nil_r m) in Happ at 1. apply app_inv_head in Happ.
  symmetry. exact Happ.
Qed.

(** ** [dedent] *)

Lemma blank_out_tidy (l : str) : tidy (blank_out l).
Proof.
  unfold tidy, blank_out. destruct (forallb is_sptab l) eqn:H; [left | right]; auto.
Qed.

Lemma tidy_blank_out (l : str) : tidy l -> blank_out l = l.
Proof. unfold blank_out. intros [-> | ->]; reflexivity. Qed.

Lemma map_blank_out_tidy (B : list str) : Forall tidy B -> map blank_out B = B.
Proof.
  induction 1 as [| l B Hl _ IH]; [reflexivity |].
  simpl. rewrite (tidy_blank_out l Hl), IH. reflexivity.
Qed.

Lemma nonblank_split (l : str) :
  forallb is_sptab l = false ->
  exists i x t, l = i ++ x :: t /\ forallb is_sptab i = true /\ is_sptab x = false
                /\ indent_of l = Some i.
Proof.
  intros H. destruct (take_while_split is_sptab l H) as (x & t & Hl & Hx).
  exists (take_while is_sptab l), x, t.
  split; [exact Hl |]. split; [apply take_while_all |]. split; [exact Hx |].
  unfold indent_of. rewrite H. reflexivity.
Qed.

Lemma indent_of_app (i : str) (x : char) (t : str) :
  forallb is_sptab i = true -> is_sptab x = false ->
  indent_of (i ++ x :: t) = Some i.
Proof.
  intros Hi Hx. unfold indent_of.
  rewrite forallb_app. simpl. rewrite Hx, andb_false_r.
  rewrite take_while_app by assumption. reflexivity.
Qed.

Lemma margin_of_cons (B : list str) (M : str) :
  margin_of B = Some M ->
  exists a I, indents B = a :: I /\ M = fold_left common_prefix I a.
Proof.
  unfold margin_of. destruct (indents B) as [| a I]; [discriminate |].
  cbn [fold_left next_margin]. rewrite fold_next_margin. intros [= <-]. eauto.
Qed.

(** Every line with something on it starts with the margin. *)
Lemma margin_prefix (B : list str) (M l : str) :
  margin_of B = Some M -> In l B -> forallb is_sptab l = false ->
  exists i x t, l = M ++ i ++ x :: t
                /\ forallb is_sptab (M ++ i) = true /\ is_sptab x = false.
Proof.
  intros HM Hin Hl.
  destruct (margin_of_cons B M HM) as (a & I & HI & ->).
  destruct (nonblank_split l Hl) as (i & x & t & -> & Hi & Hx & Hind).
  assert (In i (indents B)) as Hii.
  { apply list_elem_of_In. unfold indents. apply list_elem_of_omap.
    exists (i ++ x :: t). split; [apply list_elem_of_In, Hin | exact Hind]. }
  assert (exists i', i = fold_left common_prefix I a ++ i') as [i' Hi'].
  { rewrite HI in Hii. destruct Hii as [<- | Hii];
      [apply fold_common_prefix_acc | eapply fold_common_prefix_each, Hii]. }
  exists i', x, t. rewrite <- Hi'. rewrite app_assoc, <- Hi'.
  repeat split; assumption.
Qed.

Lemma cut_margin_app (M l : str) : cut_margin M (M ++ l) = l.
Proof.
  unfold cut_margin.
  destruct (strip_prefix M (M ++ l)) as [r |] eqn:H.
  - apply strip_prefix_spec in H. apply app_inv_head in H. congruence.
  - assert (strip_prefix M (M ++ l) = Some l) as H' by (apply strip_prefix_spec; reflexivity).
    congruence.
Qed.

Lemma cut_margin_nil (c : char) (M : str) : cut_margin (c :: M) [] = [].
Proof. reflexivity. Qed.

(** The lines after the margin was cut off. *)
Lemma cut_margin_sublines (B B' : list str) (c : char) (m : str) :
  margin_of B = Some (c :: m) ->
  Forall tidy B' -> (forall l, In l B' -> In l B) ->
  Forall tidy (map (cut_margin (c :: m)) B')
  /\ indents (map (cut_margin (c :: m)) B')
     = map (skipn (length (c :: m))) (indents B').
Proof.
  intros HM Htidy Hsub.
  induction B' as [| l B' IH]; [split; [constructor | reflexivity] |].
  apply Forall_cons in Htidy as [Hl Htidy].
  destruct IH as [IH1 IH2]; [exact Htidy | intros l' Hl'; apply Hsub; right; exact Hl' |].
  destruct Hl as [-> | Hl].
  - cbn [map]. rewrite cut_margin_nil. split; [constructor; [left; reflexivity | exact IH1] |].
    exact IH2.
  - destruct (margin_prefix B (c :: m) l HM (Hsub l (or_introl eq_refl)) Hl)
      as (i & x & t & -> & HMi & Hx).
    pose proof HMi as HMi'.
    rewrite forallb_app in HMi'. apply andb_prop in HMi' as [HMs Hi].
    cbn [map]. rewrite cut_margin_app. split.
    + constructor; [| exact IH1]. right. rewrite forallb_app. simpl.
      rewrite Hx, andb_false_r. reflexivity.
    + unfold indents in *. cbn [omap list_omap].
      rewrite indent_of_app by assumption.
      rewrite app_assoc, indent_of_app by assumption.
      cbn [map]. rewrite drop_app_length. f_equal. exact IH2.
Qed.

Lemma cut_margin_lines (B : list str) (c : char) (m : str) :
  Forall tidy B -> margin_of B = Some (c :: m) ->
  Forall tidy (map (cut_margin (c :: m)) B)
  /\ indents (map (cut_margin (c :: m)) B)
     = map (skipn (length (c :: m))) (indents B).
Proof. intros Htidy HM. apply (cut_margin_sublines B B c m HM Htidy). auto. Qed.

Lemma cut_margin_margin (B : list str) (c : char) (m : str) :
  Forall tidy B -> margin_of B = Some (c :: m) ->
  margin_of (map (cut_margin (c :: m)) B) = Some [].
Proof.
  intros Htidy HM.
  destruct (cut_margin_lines B c m Htidy HM) as [_ Hind].
  destruct (margin_of_cons B _ HM) as (a & I & HI & HMI).
  unfold margin_of. rewrite Hind, HI. cbn [map fold_left next_margin].
  rewrite fold_next_margin. f_equal. apply fold_common_prefix_cut. exact HMI.
Qed.

Lemma one_line_suffix (a b : str) : one_line (a ++ b) -> one_line b.
Proof. unfold one_line. rewrite forallb_app. intros H. apply andb_prop in H as [_ H]. exact H. Qed.

Lemma one_line_cut_margin (M l : str) : one_line l -> one_line (cut_margin M l).
Proof.
  unfold cut_margin. destruct (strip_prefix M l) as [r |] eqn:H; [| auto].
  apply strip_prefix_spec in H as ->. apply one_line_suffix.
Qed.

Lemma one_line_blank_out (l : str) : one_line l -> one_line (blank_out l).
Proof. unfold blank_out. destruct (forallb is_sptab l); [reflexivity | auto]. Qed.

(** [dedent] on lines that are tidy already. *)
Lemma dedent_join (B : list str) :
  B <> [] -> Forall one_line B -> Forall tidy B ->
  dedent (join_nl B) =
    match margin_of B with
    | Some (c :: m) => join_nl (map (cut_margin (c :: m)) B)
    | _ => join_nl B
    end.
Proof.
  intros Hne Hone Htidy. unfold dedent.
  rewrite split_join_nl by assumption. rewrite map_blank_out_tidy by assumption.
  reflexivity.
Qed.

Lemma dedent_lines (text : str) :
  exists B, B <> [] /\ Forall one_line B /\ Forall tidy B
            /\ dedent text = join_nl B
            /\ (margin_of B = None \/ margin_of B = Some []).
Proof.
  set (B := map blank_out (split_nl text)).
  assert (B <> []) as Hne.
  { unfold B. pose proof (split_nl_ne text). destruct (split_nl text); [congruence | discriminate]. }
  assert (Forall one_line B) as Hone.
  { unfold B. apply Forall_map. eapply Forall_impl; [apply split_nl_one_line |].
    intros l. apply one_line_blank_out. }
  assert (Forall tidy B) as Htidy.
  { unfold B. apply Forall_map. apply Forall_forall. intros l _. apply blank_out_tidy. }
  unfold dedent. fold B.
  destruct (margin_of B) as [[| c m] |] eqn:HM.
  - exists B. repeat split; auto.
  - exists (map (cut_margin (c :: m)) B).
    split; [destruct B; [congruence | discriminate] |].
    split; [apply Forall_map; eapply Forall_impl; [exact Hone |];
            intros l; apply one_line_cut_margin |].
    split; [apply (cut_margin_lines B c m Htidy HM) |].
    split; [reflexivity |]. right. apply cut_margin_margin; assumption.
  - exists B. repeat split; auto.
Qed.

(** [dedent] does nothing to a text that it has been through. *)
Lemma dedent_idempotent (text : str) : dedent (dedent text) = dedent text.
Proof.
  destruct (dedent_lines text) as (B & Hne & Hone & Htidy & -> & HM).
  rewrite dedent_join by assumption.
  destruct HM as [-> | ->]; reflexivity.
Qed.

Lemma dedent_map (text : str) :
  exists g, dedent text = join_nl (map g (split_nl text))
            /\ forall l, In l (split_nl text) -> trims g l.
Proof.
  unfold dedent. set (B := map blank_out (split_nl text)).
  assert (Forall tidy B) as Htidy.
  { unfold B. apply Forall_map. apply Forall_forall. intros l _. apply blank_out_tidy. }
  assert (forall l, In l (split_nl text) -> one_line l) as Hone.
  { intros l Hl. apply (proj1 (Forall_forall _ _) (split_nl_one_line text)).
    apply list_elem_of_In, Hl. }
  destruct (margin_of B) as [[| c m] |] eqn:HM.
  1, 3: exists blank_out; (split; [reflexivity |]); intros l Hl;
    (split; [apply one_line_blank_out, Hone, Hl |]); unfold blank_out;
    (split; [intros ->; reflexivity |]); intros Hnb; rewrite Hnb;
    exists []; repeat split; assumption.
  exists (fun l => cut_margin (c :: m) (blank_out l)).
  split; [unfold B; rewrite map_map; reflexivity |].
  intros l Hl. split; [apply one_line_cut_margin, one_line_blank_out, Hone, Hl |].
  unfold blank_out. split; [intros ->; reflexivity |].
  intros Hnb. rewrite Hnb.
  assert (In l B) as HlB.
  { unfold B. apply in_map_iff. exists l. split; [| exact Hl].
    unfold blank_out. rewrite Hnb. reflexivity. }
  destruct (margin_prefix B (c :: m) l HM HlB Hnb) as (i & x & t & -> & HMi & Hx).
  rewrite forallb_app in HMi. apply andb_prop in HMi as [HMs Hi].
  rewrite cut_margin_app. exists (c :: m). split; [reflexivity |].
  split; [exact HMs |]. rewrite forallb_app. simpl. rewrite Hx. apply andb_false_r.
Qed.

Lemma count_backticks_join_map (g : str -> str) (ls : list str) :
  (forall l, In l ls -> count_backticks (g l) <= count_backticks l) ->
  count_backticks (join_nl (map g ls)) <= count_backticks (join_nl ls).
Proof.
  induction ls as [| l ls IH]; intros Hg; [reflexivity |].
  assert (count_backticks (g l) <= count_backticks l) as Hl by (apply Hg; left; reflexivity).
  assert (count_backticks (join_nl (map g ls)) <= count_backticks (join_nl ls)) as Hls
      by (apply IH; intros l' Hl'; apply Hg; right; exact Hl').
  destruct ls as [| l' ls]; [exact Hl |].
  cbn [map] in *. rewrite !join_nl_cons, !count_backticks_app.
  cbn [count_backticks]. change (N.eqb NL BACKTICK) with false. cbv iota. lia.
Qed.

Lemma trims_count (g : str -> str) (l : str) :
  trims g l -> count_backticks (g l) <= count_backticks l.
Proof.
  intros (_ & Hblank & Hnb). destruct (forallb is_sptab l) eqn:Hl.
  - rewrite (Hblank eq_refl). simpl. lia.
  - destruct (Hnb eq_refl) as (k & Hk & _). rewrite Hk at 2.
    rewrite count_backticks_app. lia.
Qed.

Lemma dedent_count_backticks (text : str) :
  count_backticks (dedent text) <= count_backticks text.
Proof.
  destruct (dedent_map text) as (g & -> & Hg).
  rewrite <- (join_split_nl text) at 2.
  apply count_backticks_join_map. intros l Hl. apply trims_count, Hg, Hl.
Qed.

Lemma rstrip_split (p : char -> bool) (s : str) : exists x, s = rstrip p s ++ x.
Proof.
  exists (skipn (length (rstrip p s)) s).
  pose proof (take_drop (length (rstrip p s)) s) as H.
  rewrite rstrip_prefix in H. symmetry. exact H.
Qed.

Lemma clean_count_backticks (text : str) :
  count_backticks (rstrip isspace (skip_blank_lines text)) <= count_backticks text.
Proof.
  destruct (skip_blank_lines_suffix text) as [pre Hpre].
  destruct (rstrip_split isspace (skip_blank_lines text)) as [x Hx].
  rewrite Hpre at 2. rewrite Hx at 2. rewrite !count_backticks_app. lia.
Qed.

(** ** A text that is clean stays as it is *)

Lemma forallb_last (p : char -> bool) (s : str) (z : char) :
  last s = Some z -> p z = false -> forallb p s = false.
Proof.
  intros Hlast Hz. apply last_Some in Hlast as [s' ->].
  rewrite forallb_app. simpl. rewrite Hz. apply andb_false_r.
Qed.

Lemma rstrip_nil_iff (p : char -> bool) (s : str) :
  rstrip p s = [] <-> forallb p s = true.
Proof.
  destruct s as [| c t]; [split; reflexivity |].
  rewrite rstrip_cons. destruct (forallb p (c :: t)); split; congruence.
Qed.

Lemma rstrip_last (p : char -> bool) (s : str) (z : char) :
  last (rstrip p s) = Some z -> p z = false.
Proof.
  induction s as [| c t IH]; [discriminate |].
  rewrite rstrip_cons. destruct (forallb p (c :: t)) eqn:Hall; [discriminate |].
  rewrite last_cons. destruct (last (rstrip p t)) as [y |] eqn:Hlast.
  - intros [= ->]. apply IH. reflexivity.
  - intros [= ->]. apply last_None, rstrip_nil_iff in Hlast.
    simpl in Hall. rewrite Hlast, andb_true_r in Hall. exact Hall.
Qed.

Lemma rstrip_id (p : char -> bool) (s : str) :
  (forall z, last s = Some z -> p z = false) -> rstrip p s = s.
Proof.
  induction s as [| c t IH]; intros Hlast; [reflexivity |].
  rewrite rstrip_cons.
  destruct (last (c :: t)) as [z |] eqn:Hz; [| apply last_None in Hz; discriminate Hz].
  rewrite (forallb_last p (c :: t) z Hz (Hlast z eq_refl)).
  rewrite IH; [reflexivity |].
  intros y Hy. apply Hlast. rewrite <- Hz, last_cons, Hy. reflexivity.
Qed.

Lemma is_sptab_isspace (c : char) : is_sptab c = true -> isspace c = true.
Proof.
  unfold is_sptab. intros H. apply orb_prop in H as [H | H];
    apply N.eqb_eq in H; subst c; reflexivity.
Qed.

Lemma is_nl_isspace (c : char) : is_nl c = true -> isspace c = true.
Proof. unfold is_nl. intros H. apply N.eqb_eq in H. subst c. reflexivity. Qed.

Lemma last_join_map (g : str -> str) (ls : list str) (z : char) :
  (forall l, In l ls -> trims g l) ->
  last (join_nl ls) = Some z -> is_nl z = false -> is_sptab z = false ->
  last (join_nl (map g ls)) = Some z.
Proof.
  intros Hg Hlast Hnl Hsp. induction ls as [| l ls IH]; [discriminate Hlast |].
  destruct ls as [| l' ls].
  - cbn [map join_nl] in *.
    destruct (Hg l (or_introl eq_refl)) as (_ & _ & Hnb).
    destruct (Hnb (forallb_last _ _ _ Hlast Hsp)) as (k & Hk & _ & Hgl).
    rewrite Hk, last_app in Hlast.
    destruct (last (g l)) as [y |] eqn:Hy; [exact Hlast |].
    apply last_None in Hy. rewrite Hy in Hgl. discriminate Hgl.
  - cbn [map]. rewrite join_nl_cons in *. rewrite last_app_cons, last_cons in Hlast.
    rewrite last_app_cons, last_cons.
    change (g l' :: map g ls) with (map g (l' :: ls)).
    destruct (last (join_nl (l' :: ls))) as [y |] eqn:Hy.
    + rewrite IH; [reflexivity | | exact Hlast].
      intros l0 Hl0. apply Hg. right. exact Hl0.
    + injection Hlast as <-. discriminate Hnl.
Qed.

Lemma dedent_nil : dedent [] = [].
Proof. reflexivity. Qed.

(** [dedent] keeps the end of a text that ends in something other than
    whitespace. *)
Lemma dedent_last (r : str) (z : char) :
  last r = Some z -> isspace z = false -> last (dedent r) = Some z.
Proof.
  intros Hlast Hz. destruct (dedent_map r) as (g & -> & Hg).
  apply last_join_map; try assumption.
  - rewrite join_split_nl. exact Hlast.
  - destruct (is_nl z) eqn:H; [| reflexivity]. apply is_nl_isspace in H. congruence.
  - destruct (is_sptab z) eqn:H; [| reflexivity]. apply is_sptab_isspace in H. congruence.
Qed.

(** [dedent] makes no blank line at the start of a text that has none. *)
Lemma dedent_blank_prefix (r : str) :
  blank_prefix r = None -> blank_prefix (dedent r) = None.
Proof.
  intros Hr. destruct (dedent_map r) as (g & -> & Hg).
  pose proof (split_nl_one_line r) as Hone.
  rewrite <- (join_split_nl r) in Hr.
  destruct (split_nl r) as [| l0 ls]; [reflexivity |].
  apply Forall_cons in Hone as [Hl0 _].
  destruct (Hg l0 (or_introl eq_refl)) as (Hgone & _ & Hnb).
  destruct ls as [| l1 ls]; [apply blank_prefix_last, Hgone |].
  cbn [map]. rewrite join_nl_cons in *.
  rewrite blank_prefix_line in Hr by exact Hl0.
  rewrite blank_prefix_line by exact Hgone.
  destruct (forallb is_sptab l0); [discriminate Hr |].
  destruct (Hnb eq_refl) as (_ & _ & _ & ->). reflexivity.
Qed.

Lemma skip_blank_lines_blank_prefix (s : str) :
  blank_prefix (skip_blank_lines s) = None.
Proof.
  remember (length s) as n eqn:Hn. revert s Hn.
  induction n as [n IH] using lt_wf_ind. intros s Hn.
  rewrite skip_blank_lines_unfold.
  destruct (blank_prefix s) as [t |] eqn:Hbp; [| exact Hbp].
  apply (IH (length t)); [subst n; eapply blank_prefix_length, Hbp | reflexivity].
Qed.

Lemma blank_prefix_app_None (a b : str) :
  blank_prefix (a ++ b) = None -> blank_prefix a = None.
Proof.
  induction a as [| c a IH]; [reflexivity |]. simpl.
  destruct (is_nl c); [discriminate |]. destruct (is_sptab c); [exact IH | reflexivity].
Qed.

Lemma clean_blank_prefix (s : str) :
  blank_prefix (rstrip isspace (skip_blank_lines s)) = None.
Proof.
  destruct (rstrip_split isspace (skip_blank_lines s)) as [x Hx].
  apply (blank_prefix_app_None _ x). rewrite <- Hx. apply skip_blank_lines_blank_prefix.
Qed.

(** The code of an unformatted text comes out of the raw pattern as it
    went in. *)
Lemma clean_fixpoint (s : str) :
  let y := dedent (rstrip isspace (skip_blank_lines s)) in
  rstrip isspace (skip_blank_lines y) = y.
Proof.
  intros y.
  assert (skip_blank_lines y = y) as ->.
  { rewrite skip_blank_lines_unfold. unfold y.
    rewrite dedent_blank_prefix by apply clean_blank_prefix. reflexivity. }
  apply rstrip_id. intros z Hz.
  destruct (last (rstrip isspace (skip_blank_lines s))) as [z' |] eqn:Hlast.
  - pose proof (rstrip_last _ _ _ Hlast) as Hz'.
    unfold y in Hz. rewrite (dedent_last _ _ Hlast Hz') in Hz. congruence.
  - apply last_None in Hlast. unfold y in Hz. rewrite Hlast in Hz. discriminate Hz.
Qed.

Lemma C8_indented_text_counterexample :
  ~ (forall text : str,
        finditer FORMATTED_CODE_REGEX text = [] ->
        prepare_input text = Some (clean_text text)).
Proof.
  intros H. specialize (H (u "  a") eq_refl). vm_compute in H. discriminate H.
Qed.

(** C8 (amended): for a text in which the formatted-code pattern finds
    nothing (a text with at most one backtick), [prepare_input] returns
    the text with its leading blank lines and its trailing whitespace
    removed and then dedented: the indentation common to all lines is
    cut off and lines of spaces and tabs become empty.  Extraction of that
    result gives the same result again. *)
Theorem C8_unformatted_text (text : str) :
  finditer FORMATTED_CODE_REGEX text = [] ->
  prepare_input text = Some (dedent (clean_text text))
  /\ prepare_input (dedent (clean_text text)) = Some (dedent (clean_text text)).
Proof.
  intros Hnone. unfold clean_text. rewrite <- skip_blank_lines_spec.
  split.
  - rewrite prepare_input_cases, Hnone. reflexivity.
  - rewrite prepare_input_cases.
    assert (finditer FORMATTED_CODE_REGEX
              (dedent (rstrip isspace (skip_blank_lines text))) = []) as ->.
    { apply formatted_found_iff. apply formatted_found_iff in Hnone.
      pose proof (dedent_count_backticks (rstrip isspace (skip_blank_lines text))).
      pose proof (clean_count_backticks text). lia. }
    rewrite (clean_fixpoint text), dedent_idempotent. reflexivity.
Qed.

Lemma C8_unformatted_text_witness :
  let text := [NL] ++ u "    x = 1" ++ [NL] ++ u "    print(x)  " ++ [NL; NL] in
  finditer FORMATTED_CODE_REGEX text = []
  /\ prepare_input text = Some (u "x = 1" ++ [NL] ++ u "print(x)")
  /\ prepare_input (u "x = 1" ++ [NL] ++ u "print(x)")
     = Some (u "x = 1" ++ [NL] ++ u "print(x)").
Proof.
  intros text.
  assert (finditer FORMATTED_CODE_REGEX text = []) as Hnone by (vm_compute; reflexivity).
  split; [exact Hnone |].
  destruct (C8_unformatted_text text Hnone) as [H1 H2].
  assert (dedent (clean_text text) = u "x = 1" ++ [NL] ++ u "print(x)") as Hcode
      by (vm_compute; reflexivity).
  rewrite Hcode in H1, H2. split; [exact H1 | exact H2].
Defined.

(** ** A fenced block, step by step *)

Lemma exec_greedy_cls (p : char -> bool) (k : cont) (fuel q : nat) (s : str)
      (cs : list (gname * str)) :
  length s < fuel ->
  star_loop true (exec (Cls p)) k fuel (MState q s cs) = greedy_split p k q s cs.
Proof.
  revert fuel q. induction s as [| c t IH]; intros fuel q Hfuel.
  - rewrite star_cls_stop by exact I. reflexivity.
  - cbn [greedy_split]. destruct (p c) eqn:Hc.
    + destruct fuel as [| fuel]; [simpl in Hfuel; lia |].
      rewrite star_cls_step by exact Hc. rewrite IH by (simpl in Hfuel; lia). reflexivity.
    + rewrite star_cls_stop by exact Hc. reflexivity.
Qed.

(** When the continuation cannot start at a character of the run, only
    the end of the longest run counts. *)
Lemma greedy_split_stuck (p : char -> bool) (k : cont) (q : nat) (s : str)
      (cs : list (gname * str)) :
  (forall q' c t, p c = true -> k (MState q' (c :: t) cs) = None) ->
  greedy_split p k q s cs
  = k (MState (q + length (take_while p s)) (skipn (length (take_while p s)) s) cs).
Proof.
  intros Hk. revert q. induction s as [| c t IH]; intros q.
  - simpl. rewrite Nat.add_0_r. reflexivity.
  - cbn [greedy_split take_while]. destruct (p c) eqn:Hc.
    + rewrite IH, (Hk q c t Hc), orelse_None_r. cbn [length skipn].
      replace (q + 1 + length (take_while p t)) with (q + S (length (take_while p t))) by lia.
      reflexivity.
    + simpl. rewrite Nat.add_0_r. reflexivity.
Qed.

Lemma take_while_drop (p : char -> bool) (s : str) :
  s = take_while p s ++ skipn (length (take_while p s)) s.
Proof.
  induction s as [| c t IH]; [reflexivity |]. simpl.
  destruct (p c); [simpl; rewrite <- IH |]; reflexivity.
Qed.

Lemma take_while_app_stop (p : char -> bool) (b : str) (f : char) (t : str) :
  p f = false -> take_while p (b ++ f :: t) = take_while p b.
Proof.
  intros Hf. induction b as [| c b IH]; simpl; [rewrite Hf; reflexivity |].
  destruct (p c); [rewrite IH |]; reflexivity.
Qed.

Lemma take_while_length (p : char -> bool) (s : str) :
  length (take_while p s) <= length s.
Proof.
  induction s as [| c t IH]; [reflexivity |]. simpl. destruct (p c); simpl; lia.
Qed.

Lemma isspace_not_backtick (c : char) : isspace c = true -> N.eqb c BACKTICK = false.
Proof.
  intros H. destruct (N.eqb_spec c BACKTICK) as [-> |]; [discriminate H | reflexivity].
Qed.

Lemma startswith_cons_ne (c d : char) (s w : str) :
  N.eqb d c = false -> startswith (c :: s) (d :: w) = false.
Proof. intros H. unfold startswith. simpl. rewrite H. reflexivity. Qed.

Lemma startswith_app (w t : str) : startswith (w ++ t) w = true.
Proof. apply startswith_spec. exists t. reflexivity. Qed.

Lemma exec_backref_end (n : gname) (q : nat) (s : str) (cs : list (gname * str)) (w : str) :
  group_get n cs = Some w ->
  exec (Backref n) Some (MState q s cs)
  = if startswith s w then Some (MState (q + length w) (skipn (length w) s) cs) else None.
Proof. intros Hget. cbn [exec caps rest]. rewrite Hget. reflexivity. Qed.

(** Whitespace, then the closing delimiter. *)
Lemma greedy_ws_fence (q : nat) (x w t : str) (cs : list (gname * str)) :
  forallb isspace x = true ->
  group_get g_delim cs = Some (BACKTICK :: w) ->
  greedy_split isspace (exec (Backref g_delim) Some) q (x ++ (BACKTICK :: w) ++ t) cs
  = Some (MState (q + length x + length (BACKTICK :: w)) t cs).
Proof.
  intros Hx Hget. revert q. induction x as [| c x IH]; intros q.
  - cbn [app greedy_split]. change (isspace BACKTICK) with false. cbv iota.
    rewrite (exec_backref_end _ _ _ _ _ Hget).
    change (BACKTICK :: w ++ t) with ((BACKTICK :: w) ++ t).
    rewrite startswith_app, drop_app_length. rewrite Nat.add_0_r. reflexivity.
  - cbn [forallb] in Hx. apply andb_prop in Hx as [Hc Hx].
    cbn [app greedy_split]. rewrite Hc, (IH Hx). cbn [orelse length].
    replace (q + 1 + length x) with (q + S (length x)) by lia. reflexivity.
Qed.

(** Whitespace, then some other character than a backtick: the closing
    delimiter is not there. *)
Lemma greedy_ws_no_fence (q : nat) (x : str) (c : char) (t w : str)
      (cs : list (gname * str)) :
  forallb isspace x = true -> isspace c = false -> N.eqb c BACKTICK = false ->
  group_get g_delim cs = Some (BACKTICK :: w) ->
  greedy_split isspace (exec (Backref g_delim) Some) q (x ++ c :: t) cs = None.
Proof.
  intros Hx Hc Hbt Hget. revert q. induction x as [| d x IH]; intros q.
  - cbn [app greedy_split]. rewrite Hc.
    rewrite (exec_backref_end _ _ _ _ _ Hget).
    rewrite startswith_cons_ne; [reflexivity |]. rewrite N.eqb_sym. exact Hbt.
  - cbn [forallb] in Hx. apply andb_prop in Hx as [Hd Hx].
    cbn [app greedy_split]. rewrite Hd, (IH Hx). cbn [orelse].
    rewrite (exec_backref_end _ _ _ _ _ Hget).
    rewrite startswith_cons_ne; [reflexivity |].
    rewrite N.eqb_sym. apply isspace_not_backtick, Hd.
Qed.

Lemma exec_ws_backref (q : nat) (s : str) (cs : list (gname * str)) :
  exec (Star true (Cls isspace)) (exec (Backref g_delim) Some) (MState q s cs)
  = greedy_split isspace (exec (Backref g_delim) Some) q s cs.
Proof.
  change (exec (Star true (Cls isspace)) (exec (Backref g_delim) Some) (MState q s cs))
    with (star_loop true (exec (Cls isspace)) (exec (Backref g_delim) Some)
                    (S (length s)) (MState q s cs)).
  apply exec_greedy_cls. lia.
Qed.

Lemma no_backtick_cons (c : char) (s : str) :
  no_backtick (c :: s) <-> N.eqb c BACKTICK = false /\ no_backtick s.
Proof.
  unfold no_backtick. cbn [forallb]. rewrite andb_true_iff, negb_true_iff. reflexivity.
Qed.

Lemma no_backtick_app (a b : str) :
  no_backtick (a ++ b) <-> no_backtick a /\ no_backtick b.
Proof. unfold no_backtick. rewrite forallb_app, andb_true_iff. reflexivity. Qed.

(** The code of a block: the lazy run ends where only whitespace is left
    before the closing delimiter. *)
Lemma first_split_code_fence (q0 : nat) (s0 : str) (q : nat) (b w t : str)
      (cs : list (gname * str)) :
  no_backtick b ->
  group_get g_delim cs = Some (BACKTICK :: w) ->
  first_split
    (fun st' => exec (Star true (Cls isspace)) (exec (Backref g_delim) Some)
                     (set_group g_code (MState q0 s0 cs) st'))
    q (b ++ (BACKTICK :: w) ++ t) cs
  = Some (MState (q + length b + length (BACKTICK :: w)) t
                 ((g_code, firstn (q + length (rstrip isspace b) - q0) s0) :: cs)).
Proof.
  intros Hb Hget. revert q. induction b as [| c b IH]; intros q.
  - cbn [app first_split]. unfold set_group at 1. cbn [pos rest caps].
    rewrite exec_ws_backref.
    rewrite (greedy_ws_fence q [] w t) by (reflexivity || exact Hget).
    cbn [orelse length]. rewrite !Nat.add_0_r. reflexivity.
  - apply no_backtick_cons in Hb as [Hc Hb].
    cbn [app first_split]. unfold set_group at 1. cbn [pos rest caps].
    rewrite exec_ws_backref, rstrip_cons.
    change (c :: b ++ (BACKTICK :: w) ++ t) with ((c :: b) ++ (BACKTICK :: w) ++ t).
    destruct (forallb isspace (c :: b)) eqn:Hall.
    + rewrite (greedy_ws_fence q (c :: b) w t) by (exact Hall || exact Hget).
      cbn [orelse length]. rewrite Nat.add_0_r. reflexivity.
    + destruct (take_while_split isspace (c :: b) Hall) as (x & t' & Hsplit & Hx).
      pose proof (take_while_all isspace (c :: b)) as Hrun.
      set (r := take_while isspace (c :: b)) in *.
      assert (N.eqb x BACKTICK = false) as Hxbt.
      { assert (no_backtick (c :: b)) as Hcb by (apply no_backtick_cons; auto).
        rewrite Hsplit in Hcb. apply no_backtick_app in Hcb as [_ Hcb].
        apply no_backtick_cons in Hcb as [Hcb _]. exact Hcb. }
      match goal with
      | |- orelse ?g _ = _ => assert (g = None) as ->
      end.
      { change (c :: b ++ BACKTICK :: w ++ t) with ((c :: b) ++ (BACKTICK :: w) ++ t).
        rewrite Hsplit, <- app_assoc. cbn [app].
        apply (greedy_ws_no_fence _ _ _ _ w); assumption. }
      cbn [orelse]. rewrite (IH Hb). cbn [length].
      replace (q + 1 + length b) with (q + S (length b)) by lia.
      replace (q + 1 + length (rstrip isspace b) - q0)
        with (q + S (length (rstrip isspace b)) - q0) by lia.
      reflexivity.
Qed.

(** The leading blank lines, before a rest of the pattern that matches
    after them: all of them are taken. *)
Lemma exec_blank_lines_then (k : cont) (fuel q : nat) (s : str) (cs : list (gname * str)) :
  length s < fuel ->
  is_Some (k (MState (q + (length s - length (skip_blank_lines s)))
                     (skip_blank_lines s) cs)) ->
  star_loop true (exec (Seq (Star true (Cls is_sptab)) (Chr NL))) k fuel (MState q s cs)
  = k (MState (q + (length s - length (skip_blank_lines s))) (skip_blank_lines s) cs).
Proof.
  revert q s. induction fuel as [| fuel IH]; intros q s Hfuel Hk; [lia |].
  cbn [star_loop]. rewrite skip_blank_lines_unfold in *.
  change (exec (Seq (Star true (Cls is_sptab)) (Chr NL)) ?kk (MState q s cs))
    with (star_loop true (exec (Cls is_sptab)) (exec (Chr NL) kk) (S (length s))
                    (MState q s cs)).
  rewrite exec_blank_line by lia.
  destruct (blank_prefix s) as [t |] eqn:Hbp.
  - pose proof (blank_prefix_length _ _ Hbp) as Hlt.
    pose proof (skip_blank_lines_length t) as Hle.
    cbn [rest]. rewrite (proj2 (Nat.ltb_lt _ _) Hlt).
    replace (q + (length s - length (skip_blank_lines t)))
      with (q + (length s - length t) + (length t - length (skip_blank_lines t)))
      in * by lia.
    rewrite IH by (lia || exact Hk).
    destruct Hk as [r ->]. reflexivity.
  - cbn [orelse]. replace (q + (length s - length s)) with q by lia. reflexivity.
Qed.

Lemma blank_prefix_app_fence (b : str) (f : char) (t : str) :
  is_nl f = false -> is_sptab f = false ->
  blank_prefix (b ++ f :: t) = (fun r => r ++ f :: t) <$> blank_prefix b.
Proof.
  intros Hnl Hsp. induction b as [| c b IH]; simpl; [rewrite Hnl, Hsp; reflexivity |].
  destruct (is_nl c); [reflexivity |]. destruct (is_sptab c); [exact IH | reflexivity].
Qed.

Lemma skip_blank_lines_app_fence (b : str) (f : char) (t : str) :
  is_nl f = false -> is_sptab f = false ->
  skip_blank_lines (b ++ f :: t) = skip_blank_lines b ++ f :: t.
Proof.
  intros Hnl Hsp. remember (length b) as n eqn:Hn. revert b Hn.
  induction n as [n IH] using lt_wf_ind. intros b Hn.
  rewrite (skip_blank_lines_unfold (b ++ f :: t)), (skip_blank_lines_unfold b).
  rewrite blank_prefix_app_fence by assumption.
  destruct (blank_prefix b) as [r |] eqn:Hbp; [| reflexivity].
  simpl. apply (IH (length r)); [subst n; eapply blank_prefix_length, Hbp | reflexivity].
Qed.

Lemma no_backtick_suffix (a b : str) : no_backtick (a ++ b) -> no_backtick b.
Proof. intros H. apply no_backtick_app in H as [_ H]. exact H. Qed.

Lemma no_backtick_skip_blank_lines (b : str) :
  no_backtick b -> no_backtick (skip_blank_lines b).
Proof.
  destruct (skip_blank_lines_suffix b) as [pre Hpre]. intros H.
  rewrite Hpre in H. eapply no_backtick_suffix, H.
Qed.

Lemma letter_not_nl (c : char) : letter_i c = true -> N.eqb c NL = false.
Proof.
  intros H. destruct (N.eqb_spec c NL) as [-> |]; [discriminate H | reflexivity].
Qed.

Lemma lang_prefix_spec (s w t : str) :
  lang_prefix s = Some (w, t) -> s = w ++ NL :: t /\ w = take_while letter_i s.
Proof.
  unfold lang_prefix. pose proof (take_while_drop letter_i s) as Hs.
  destruct (take_while letter_i s) as [| c r]; [discriminate |].
  destruct (skipn (length (c :: r)) s) as [| x t'] eqn:Hdrop; [discriminate |].
  unfold is_nl. destruct (N.eqb_spec x NL) as [-> |]; [| discriminate].
  intros [= <- <-]. split; [exact Hs | reflexivity].
Qed.

(** The language tag and its newline. *)
Lemma exec_lang_line (k : cont) (q : nat) (s : str) (cs : list (gname * str)) :
  exec (Seq (Group g_lang (Plus (Cls letter_i))) (Chr NL)) k (MState q s cs)
  = match lang_prefix s with
    | Some (w, t) => k (MState (q + length w + 1) t ((g_lang, w) :: cs))
    | None => None
    end.
Proof.
  unfold Plus, lang_prefix.
  destruct s as [| c t]; [reflexivity |].
  change (exec (Seq (Group g_lang (Seq (Cls letter_i) (Star true (Cls letter_i))))
                    (Chr NL)) k (MState q (c :: t) cs))
    with (if letter_i c
          then star_loop true (exec (Cls letter_i))
                 (fun st' => exec (Chr NL) k
                                  (set_group g_lang (MState q (c :: t) cs) st'))
                 (S (length t)) (MState (q + 1) t cs)
          else None).
  cbn [take_while]. destruct (letter_i c) eqn:Hc; [| reflexivity].
  rewrite exec_greedy_cls by lia.
  rewrite greedy_split_stuck.
  - pose proof (take_while_drop letter_i t) as Ht.
    set (r := take_while letter_i t) in *.
    unfold set_group. cbn [pos rest caps length skipn].
    replace (q + 1 + length r - q) with (S (length r)) by lia.
    cbn [firstn].
    assert (firstn (length r) t = r) as ->.
    { rewrite Ht at 1. apply take_app_length. }
    destruct (skipn (length r) t) as [| x t'']; [reflexivity |].
    cbn [exec rest]. unfold is_nl. destruct (N.eqb x NL); [| reflexivity].
    change (advance 1 (MState (q + 1 + length r) (x :: t'') ((g_lang, c :: r) :: cs)))
      with (MState (q + 1 + length r + 1) t'' ((g_lang, c :: r) :: cs)).
    replace (q + 1 + length r + 1) with (q + S (length r) + 1) by lia. reflexivity.
  - intros q' c' t' Hc'. unfold set_group. cbn [exec pos rest caps].
    rewrite (letter_not_nl c' Hc'). reflexivity.
Qed.

Lemma lang_prefix_app_fence (b t : str) :
  lang_prefix (b ++ BACKTICK :: t)
  = (fun wt => (fst wt, snd wt ++ BACKTICK :: t)) <$> lang_prefix b.
Proof.
  unfold lang_prefix. rewrite take_while_app_stop by reflexivity.
  pose proof (take_while_length letter_i b) as Hlen.
  destruct (take_while letter_i b) as [| c r]; [reflexivity |].
  rewrite drop_app_le by exact Hlen.
  destruct (skipn (length (c :: r)) b) as [| x t']; [reflexivity |].
  cbn [app]. destruct (is_nl x); reflexivity.
Qed.

Lemma exec_Chr_here (c : char) (k : cont) (q : nat) (t : str) (cs : list (gname * str)) :
  exec (Chr c) k (MState q (c :: t) cs) = k (MState (q + 1) t cs).
Proof. cbn [exec rest]. rewrite N.eqb_refl. reflexivity. Qed.

Lemma rstrip_length (p : char -> bool) (s : str) : length (rstrip p s) <= length s.
Proof.
  destruct (rstrip_split p s) as [x Hx]. rewrite Hx at 2. rewrite length_app. lia.
Qed.

(** The code and the closing delimiter. *)
Lemma exec_code_close (q : nat) (b w t : str) (cs : list (gname * str)) :
  no_backtick b ->
  group_get g_delim cs = Some (BACKTICK :: w) ->
  exec (Seq (Group g_code (Star false (Cls any_char)))
            (Seq (Star true (Cls isspace)) (Backref g_delim)))
       Some (MState q (b ++ (BACKTICK :: w) ++ t) cs)
  = Some (MState (q + length b + length (BACKTICK :: w)) t
                 ((g_code, rstrip isspace b) :: cs)).
Proof.
  intros Hb Hget.
  change (exec (Seq (Group g_code (Star false (Cls any_char)))
                    (Seq (Star true (Cls isspace)) (Backref g_delim)))
               Some (MState q (b ++ (BACKTICK :: w) ++ t) cs))
    with (star_loop false (exec (Cls any_char))
            (fun st' => exec (Star true (Cls isspace)) (exec (Backref g_delim) Some)
                             (set_group g_code
                                (MState q (b ++ (BACKTICK :: w) ++ t) cs) st'))
            (S (length (b ++ (BACKTICK :: w) ++ t)))
            (MState q (b ++ (BACKTICK :: w) ++ t) cs)).
  rewrite exec_lazy_any by lia.
  rewrite first_split_code_fence by assumption.
  replace (q + length (rstrip isspace b) - q) with (length (rstrip isspace b)) by lia.
  rewrite take_app_le by apply rstrip_length.
  rewrite rstrip_prefix. reflexivity.
Qed.

(** Blank lines, the code and the closing delimiter. *)
Lemma exec_blank_code_close (q : nat) (b w t : str) (cs : list (gname * str)) :
  no_backtick b ->
  group_get g_delim cs = Some (BACKTICK :: w) ->
  exec (Seq blank_lines
            (Seq (Group g_code (Star false (Cls any_char)))
                 (Seq (Star true (Cls isspace)) (Backref g_delim))))
       Some (MState q (b ++ (BACKTICK :: w) ++ t) cs)
  = Some (MState (q + length b + length (BACKTICK :: w)) t
                 ((g_code, rstrip isspace (skip_blank_lines b)) :: cs)).
Proof.
  intros Hb Hget. unfold blank_lines.
  change (exec (Seq (Star true (Seq (Star true (Cls is_sptab)) (Chr NL))) ?r) Some
               (MState q (b ++ (BACKTICK :: w) ++ t) cs))
    with (star_loop true (exec (Seq (Star true (Cls is_sptab)) (Chr NL)))
            (exec r Some)
            (S (length (b ++ (BACKTICK :: w) ++ t)))
            (MState q (b ++ (BACKTICK :: w) ++ t) cs)).
  pose proof (skip_blank_lines_length b) as Hlen.
  assert (skip_blank_lines (b ++ (BACKTICK :: w) ++ t)
          = skip_blank_lines b ++ (BACKTICK :: w) ++ t) as Hskip
      by (apply skip_blank_lines_app_fence; reflexivity).
  assert (exec (Seq (Group g_code (Star false (Cls any_char)))
                    (Seq (Star true (Cls isspace)) (Backref g_delim)))
               Some
               (MState (q + (length (b ++ (BACKTICK :: w) ++ t)
                             - length (skip_blank_lines (b ++ (BACKTICK :: w) ++ t))))
                       (skip_blank_lines (b ++ (BACKTICK :: w) ++ t)) cs)
          = Some (MState (q + length b + length (BACKTICK :: w)) t
                         ((g_code, rstrip isspace (skip_blank_lines b)) :: cs))) as Hk.
  { rewrite Hskip.
    rewrite exec_code_close by (apply no_backtick_skip_blank_lines, Hb || exact Hget).
    f_equal. f_equal. rewrite !length_app. lia. }
  rewrite exec_blank_lines_then; [exact Hk | lia | rewrite Hk; eauto].
Qed.

(** What follows the opening fence: the tag, blank lines, the code and
    the closing fence. *)
Lemma exec_block_body (q : nat) (b w t x : str) (cs : list (gname * str)) :
  no_backtick b ->
  group_get g_delim cs = Some (BACKTICK :: w) ->
  group_get g_block cs = Some x ->
  exists cs',
    exec (Seq (IfGroup g_block
                 (Opt (Seq (Group g_lang (Plus (Cls letter_i))) (Chr NL)))
                 Eps)
              (Seq blank_lines
                   (Seq (Group g_code (Star false (Cls any_char)))
                        (Seq (Star true (Cls isspace)) (Backref g_delim)))))
         Some (MState q (b ++ (BACKTICK :: w) ++ t) cs)
    = Some (MState (q + length b + length (BACKTICK :: w)) t
                   ((g_code, body_code b) :: cs'))
    /\ group_get g_block cs' = Some x.
Proof.
  intros Hb Hget Hblock.
  set (K := exec (Seq blank_lines
                      (Seq (Group g_code (Star false (Cls any_char)))
                           (Seq (Star true (Cls isspace)) (Backref g_delim)))) Some).
  change (exec (Seq (IfGroup g_block ?a Eps) ?r) Some ?st)
    with (exec (IfGroup g_block a Eps) K st).
  cbn [exec caps]. rewrite Hblock. unfold Opt.
  change (exec (Alt ?a Eps) K ?st) with (orelse (exec a K st) (K st)).
  rewrite exec_lang_line.
  change ((BACKTICK :: w) ++ t) with (BACKTICK :: w ++ t) at 1.
  rewrite lang_prefix_app_fence. unfold body_code.
  destruct (lang_prefix b) as [[w0 t0] |] eqn:Hlang.
  - apply lang_prefix_spec in Hlang as [Hbeq _]. cbn [fmap option_fmap option_map fst snd].
    assert (no_backtick t0) as Ht0.
    { rewrite Hbeq in Hb. apply no_backtick_suffix in Hb.
      apply no_backtick_cons in Hb as [_ Hb]. exact Hb. }
    unfold K.
    change (t0 ++ BACKTICK :: w ++ t) with (t0 ++ (BACKTICK :: w) ++ t).
    rewrite exec_blank_code_close by assumption.
    cbn [orelse]. exists ((g_lang, w0) :: cs). split; [| exact Hblock].
    f_equal. f_equal. rewrite Hbeq, length_app. simpl. lia.
  - cbn [fmap option_fmap option_map orelse]. unfold K.
    rewrite exec_blank_code_close by assumption.
    exists cs. split; [reflexivity | exact Hblock].
Qed.

(** The matcher at the start of a fenced block without backticks in
    it: the block is found, with its code. *)
Lemma match_at_fenced (p : nat) (b t : str) :
  no_backtick b ->
  exists cs,
    match_at FORMATTED_CODE_REGEX p (fenced b ++ t)
    = Some (MkMatch p (p + length (fenced b)) ((g_code, body_code b) :: cs))
    /\ group_get g_block cs = Some FENCE.
Proof.
  intros Hb.
  destruct (exec_block_body (p + 1 + 1 + 1) b [BACKTICK; BACKTICK] t FENCE
              [(g_delim, FENCE); (g_block, FENCE)] Hb eq_refl eq_refl)
    as (cs' & Hexec & Hblock).
  exists cs'. split; [| exact Hblock].
  unfold match_at, fenced, FORMATTED_CODE_REGEX.
  set (K := exec (Seq (IfGroup g_block
                         (Opt (Seq (Group g_lang (Plus (Cls letter_i))) (Chr NL)))
                         Eps)
                      (Seq blank_lines
                           (Seq (Group g_code (Star false (Cls any_char)))
                                (Seq (Star true (Cls isspace)) (Backref g_delim)))))
                 Some) in *.
  rewrite <- !app_assoc.
  set (st0 := MState p (FENCE ++ b ++ FENCE ++ t) []).
  change (exec (Seq (Group g_delim (Alt (Group g_block (Lit [BACKTICK; BACKTICK; BACKTICK]))
                                       ?r2)) ?r) Some st0)
    with (orelse
            (K (set_group g_delim st0
                  (set_group g_block st0
                     (MState (p + 1 + 1 + 1) (b ++ FENCE ++ t) []))))
            (exec r2 (fun st' => K (set_group g_delim st0 st')) st0)).
  unfold set_group, st0. cbn [pos rest caps].
  replace (p + 1 + 1 + 1 - p) with 3 by lia.
  change (firstn 3 (FENCE ++ b ++ FENCE ++ t)) with FENCE.
  change (b ++ FENCE ++ t) with (b ++ (BACKTICK :: [BACKTICK; BACKTICK]) ++ t).
  match goal with
  | |- match orelse ?x _ with _ => _ end = _ =>
      match type of Hexec with
      | _ = ?r => assert (x = r) as -> by exact Hexec
      end
  end.
  cbn [orelse pos caps]. f_equal. f_equal.
  unfold FENCE. rewrite !length_app. simpl. lia.
Qed.

(** ** Prose and fenced blocks *)

Lemma match_at_other_char (p : nat) (c : char) (s : str) :
  N.eqb c BACKTICK = false -> match_at FORMATTED_CODE_REGEX p (c :: s) = None.
Proof.
  intros Hc. unfold match_at, FORMATTED_CODE_REGEX.
  cbn [exec rest Lit foldr orelse]. rewrite Hc. reflexivity.
Qed.

Lemma match_at_end (p : nat) : match_at FORMATTED_CODE_REGEX p [] = None.
Proof. reflexivity. Qed.

Lemma scan_prose (p : nat) (prose s : str) :
  no_backtick prose ->
  scan FORMATTED_CODE_REGEX 0 p (prose ++ s)
  = scan FORMATTED_CODE_REGEX 0 (p + length prose) s.
Proof.
  revert p. induction prose as [| c prose IH]; intros p Hprose.
  - simpl. rewrite Nat.add_0_r. reflexivity.
  - apply no_backtick_cons in Hprose as [Hc Hprose].
    cbn [app scan]. rewrite (match_at_other_char p c _ Hc), (IH _ Hprose).
    cbn [length]. f_equal. lia.
Qed.

Lemma scan_skip (r : regex) (p : nat) (l s : str) :
  scan r (length l) p (l ++ s) = scan r 0 (p + length l) s.
Proof.
  revert p. induction l as [| c l IH]; intros p.
  - simpl. rewrite Nat.add_0_r. reflexivity.
  - cbn [app length scan]. rewrite IH. f_equal. lia.
Qed.

Lemma scan_fenced (p : nat) (b t : str) :
  no_backtick b ->
  exists cs,
    scan FORMATTED_CODE_REGEX 0 p (fenced b ++ t)
    = MkMatch p (p + length (fenced b)) ((g_code, body_code b) :: cs)
      :: scan FORMATTED_CODE_REGEX 0 (p + length (fenced b)) t
    /\ group_get g_block cs = Some FENCE.
Proof.
  intros Hb. destruct (match_at_fenced p b t Hb) as (cs & Hm & Hblock).
  exists cs. split; [| exact Hblock].
  assert (fenced b ++ t = BACKTICK :: ([BACKTICK; BACKTICK] ++ b ++ FENCE) ++ t) as Hshape.
  { unfold fenced, FENCE. rewrite <- !app_assoc. reflexivity. }
  rewrite Hshape in *. cbn [scan]. rewrite Hm. cbn [m_end]. f_equal.
  assert (length (fenced b) = S (length ([BACKTICK; BACKTICK] ++ b ++ FENCE))) as Hlen.
  { unfold fenced, FENCE. rewrite !length_app. simpl. lia. }
  rewrite Hlen.
  replace (p + S (length ([BACKTICK; BACKTICK] ++ b ++ FENCE)) - p - 1)
    with (length ([BACKTICK; BACKTICK] ++ b ++ FENCE)) by lia.
  rewrite scan_skip. f_equal. lia.
Qed.

Lemma filter_all {A} (f : A -> bool) (l : list A) :
  forallb f l = true -> List.filter f l = l.
Proof.
  induction l as [| x l IH]; [reflexivity |]. simpl.
  intros H. apply andb_prop in H as [-> H]. rewrite (IH H). reflexivity.
Qed.

(** In a text made of prose and fenced blocks, with no other backticks
    than those of the fences, the pattern finds the blocks and nothing
    else, each with its code. *)
Lemma scan_layout (blocks : list (str * str)) (tail : str) (p : nat) :
  Forall (fun pb => no_backtick (fst pb) /\ no_backtick (snd pb)) blocks ->
  no_backtick tail ->
  let found := scan FORMATTED_CODE_REGEX 0 p (layout blocks tail) in
  map code_of found = map (fun pb => body_code (snd pb)) blocks
  /\ forallb is_block found = true.
Proof.
  intros Hblocks Htail. revert p.
  induction Hblocks as [| [prose b] blocks [Hprose Hb] _ IH]; intros p; cbn zeta.
  - cbn [layout]. rewrite <- (app_nil_r tail), scan_prose by exact Htail.
    split; reflexivity.
  - cbn [layout fst snd] in *. rewrite scan_prose by exact Hprose.
    destruct (scan_fenced (p + length prose) b (layout blocks tail) Hb)
      as (cs & -> & Hblock).
    destruct (IH (p + length prose + length (fenced b))) as [IH1 IH2].
    split.
    + cbn [map]. rewrite IH1. reflexivity.
    + cbn [forallb]. rewrite IH2, andb_true_r.
      unfold is_block, group. cbn [m_groups group_get gname_eqb]. rewrite Hblock.
      reflexivity.
Qed.

(** X25: in a text laid out as prose and fenced blocks, with no backtick
    in the prose nor inside the blocks, every block is found with its
    code: the body of the block without the language line, the leading
    blank lines and the trailing whitespace.  [prepare_input] returns the
    code of the blocks joined by newlines and dedented, whatever the
    prose says. *)
Theorem prepare_input_fenced_layout (blocks : list (str * str)) (tail : str) :
  Forall (fun pb => no_backtick (fst pb) /\ no_backtick (snd pb)) blocks ->
  no_backtick tail ->
  blocks <> [] ->
  map code_of (finditer FORMATTED_CODE_REGEX (layout blocks tail))
  = map (fun pb => body_code (snd pb)) blocks
  /\ prepare_input (layout blocks tail)
     = Some (dedent (join_nl (map (fun pb => body_code (snd pb)) blocks))).
Proof.
  intros Hblocks Htail Hne.
  destruct (scan_layout blocks tail 0 Hblocks Htail) as [Hcodes Hall].
  cbv zeta in Hcodes, Hall. fold (finditer FORMATTED_CODE_REGEX (layout blocks tail)) in *.
  split; [exact Hcodes |].
  rewrite prepare_input_cases. unfold fenced_blocks.
  rewrite (filter_all _ _ Hall).
  assert (length (finditer FORMATTED_CODE_REGEX (layout blocks tail)) = length blocks)
    as Hfound.
  { rewrite <- (length_map code_of), Hcodes, length_map. reflexivity. }
  destruct (finditer FORMATTED_CODE_REGEX (layout blocks tail)) as [| first found];
    [destruct blocks; [congruence | discriminate Hfound] |].
  destruct (Nat.ltb_spec 1 (length (first :: found))); [rewrite Hcodes; reflexivity |].
  destruct found as [| second found]; [| simpl in *; lia].
  rewrite <- Hcodes. reflexivity.
Qed.

Lemma prepare_input_fenced_layout_witness :
  prepare_input
    (layout [(u "Try this: ", u "python" ++ [NL; NL] ++ u "  print(1)  " ++ [NL])]
            (u " thanks"))
  = Some (u "print(1)").
Proof.
  destruct (prepare_input_fenced_layout
              [(u "Try this: ", u "python" ++ [NL; NL] ++ u "  print(1)  " ++ [NL])]
              (u " thanks")) as [_ H].
  - repeat constructor.
  - reflexivity.
  - discriminate.
  - rewrite H. vm_compute. reflexivity.
Defined.

Example prepare_input_two_blocks :
  prepare_input
    (layout [(u "First ", u "py" ++ [NL] ++ u "a = 1" ++ [NL]);
             (u " then ", [NL] ++ u "print(a)  ")]
            (u " thanks"))
  = Some (u "a = 1" ++ [NL] ++ u "print(a)").
Proof. vm_compute. reflexivity. Qed.

(** ** The body of the formatter cannot close the code block *)


Lemma has_escape_run_plain (s : str) : plain s -> has_escape_run s = false.
Proof.
  intros H. rewrite <- (app_nil_r s), has_escape_run_skip by exact H. reflexivity.
Qed.

Lemma has_escape_run_sep (a : str) (c : char) (b : str) :
  escape_char c = false ->
  has_escape_run (a ++ c :: b) = has_escape_run a || has_escape_run b.
Proof.
  intros Hc. induction a as [| x a IH].
  - cbn [app]. rewrite has_escape_run_cons, Hc.
    destruct b as [| ? [| ? ?]]; reflexivity.
  - cbn [app]. rewrite !has_escape_run_cons, IH, orb_assoc. f_equal.
    destruct a as [| y [| z a]]; cbn [app]; rewrite ?Hc, ?andb_false_r; try reflexivity.
    destruct b; reflexivity.
Qed.

Lemma has_escape_run_prefix (a b : str) :
  has_escape_run (a ++ b) = false -> has_escape_run a = false.
Proof.
  induction a as [| x a IH]; [reflexivity |].
  cbn [app]. rewrite !has_escape_run_cons. intros H.
  apply orb_false_elim in H as [H1 H2]. rewrite (IH H2), orb_false_r.
  destruct a as [| y [| z a]]; try reflexivity. exact H1.
Qed.

Lemma has_escape_run_firstn (n : nat) (s : str) :
  has_escape_run s = false -> has_escape_run (firstn n s) = false.
Proof.
  intros H. apply (has_escape_run_prefix _ (skipn n s)).
  rewrite firstn_skipn. exact H.
Qed.

Lemma has_escape_run_iff (s : str) :
  has_escape_run s = true
  <-> exists pre a b c post,
        s = pre ++ a :: b :: c :: post
        /\ escape_char a = true /\ escape_char b = true /\ escape_char c = true.
Proof.
  split.
  - induction s as [| x s IH]; [discriminate |].
    rewrite has_escape_run_cons. intros H. apply orb_prop in H as [H | H].
    + destruct s as [| y [| z s]]; try discriminate H.
      apply andb_prop in H as [Hxy Hz]. apply andb_prop in Hxy as [Hx Hy].
      exists [], x, y, z, s. auto.
    + destruct (IH H) as (pre & a & b & c & post & -> & Habc).
      exists (x :: pre), a, b, c, post. auto.
  - intros (pre & a & b & c & post & -> & Ha & Hb & Hc).
    apply has_escape_run_app_r. rewrite has_escape_run_cons, Ha, Hb, Hc. reflexivity.
Qed.

Lemma has_escape_run_join (ls : list str) :
  Forall (fun l => has_escape_run l = false) ls -> has_escape_run (join_nl ls) = false.
Proof.
  induction 1 as [| l ls Hl _ IH]; [reflexivity |].
  destruct ls as [| l' ls]; [exact Hl |].
  rewrite join_nl_cons, has_escape_run_sep, Hl, IH by reflexivity. reflexivity.
Qed.

Lemma has_escape_run_split (s : str) :
  has_escape_run s = false -> Forall (fun l => has_escape_run l = false) (split_nl s).
Proof.
  induction s as [| c t IH]; [repeat constructor |].
  intros H. change (c :: t) with ([c] ++ t) in H.
  cbn [split_nl]. destruct (is_nl c) eqn:Hc.
  - apply N.eqb_eq in Hc. subst c.
    change ([NL] ++ t) with ([] ++ NL :: t) in H.
    rewrite has_escape_run_sep in H by reflexivity.
    constructor; [reflexivity | apply IH, H].
  - assert (has_escape_run t = false) as Ht.
    { cbn [app] in H. rewrite has_escape_run_cons in H.
      apply orb_false_elim in H as [_ H]. exact H. }
    specialize (IH Ht). pose proof (join_split_nl t) as Hjoin.
    destruct (split_nl t) as [| l ls]; [constructor; [| constructor] |].
    + cbn [app] in H. simpl in Hjoin. subst t. exact H.
    + apply Forall_cons in IH as [_ Hls]. constructor; [| exact Hls].
      destruct ls as [| l' ls].
      * simpl in Hjoin. subst t. exact H.
      * rewrite join_nl_cons in Hjoin. subst t.
        change ([c] ++ l ++ NL :: join_nl (l' :: ls))
          with ((c :: l) ++ NL :: join_nl (l' :: ls)) in H.
        rewrite has_escape_run_sep in H by reflexivity.
        apply orb_false_elim in H as [H _]. exact H.
Qed.

Lemma digit_in (d : nat) : d < 10 -> In (digit d) (u "0123456789").
Proof.
  intros H.
  destruct d as [| [| [| [| [| [| [| [| [| [| d]]]]]]]]]]; [| | | | | | | | | | lia];
    vm_compute; tauto.
Qed.

Lemma digits_fuel_digits (fuel n : nat) (acc : str) :
  Forall (fun c => In c (u "0123456789")) acc ->
  Forall (fun c => In c (u "0123456789")) (digits_fuel fuel n acc).
Proof.
  revert n acc. induction fuel as [| f IH]; intros n acc Hacc; [exact Hacc |].
  cbn [digits_fuel].
  assert (Forall (fun c => In c (u "0123456789")) (digit (n mod 10) :: acc)) as Hacc'.
  { constructor; [| exact Hacc]. apply digit_in, Nat.mod_upper_bound. lia. }
  destruct (n / 10 =? 0); [exact Hacc' | apply IH, Hacc'].
Qed.

Lemma pad3_digits (n : nat) : Forall (fun c => In c (u "0123456789")) (pad3 n).
Proof.
  unfold pad3. apply Forall_app. split.
  - apply Forall_replicate, (digit_in 0). lia.
  - apply digits_fuel_digits. constructor.
Qed.

Lemma pad3_plain (n : nat) : plain (pad3 n).
Proof.
  unfold plain. apply forallb_forall. intros c Hc.
  pose proof (pad3_digits n) as Hd. rewrite Forall_forall in Hd.
  apply list_elem_of_In in Hc. specialize (Hd c Hc).
  vm_compute in Hd. repeat (destruct Hd as [<- | Hd]; [reflexivity |]). destruct Hd.
Qed.

Lemma Forall_imap_keep {A} (P : A -> Prop) (f : nat -> A -> A) (ls : list A) :
  (forall i l, P l -> P (f i l)) -> Forall P ls -> Forall P (imap f ls).
Proof.
  intros Hf H. revert f Hf.
  induction H as [| l ls Hl _ IH]; intros f Hf; [constructor |].
  cbn [imap]. constructor; [apply Hf, Hl |].
  apply IH. intros i x. apply Hf.
Qed.

Lemma number_lines_run (ls : list str) :
  Forall (fun l => has_escape_run l = false) ls ->
  Forall (fun l => has_escape_run l = false) (number_lines ls).
Proof.
  apply Forall_imap_keep. intros i l Hl.
  rewrite app_assoc, has_escape_run_skip; [exact Hl |].
  rewrite forallb_app. rewrite (pad3_plain (S i)). reflexivity.
Qed.

Lemma numbered_run (s : str) :
  has_escape_run s = false -> has_escape_run (numbered s) = false.
Proof.
  intros H. unfold numbered. destruct (0 <? count_nl s); [| exact H].
  apply has_escape_run_join, Forall_take, number_lines_run, has_escape_run_split, H.
Qed.

Lemma marker_plain (tail : str) : tail ∈ MARKER_LINES -> plain tail.
Proof.
  unfold MARKER_LINES. intros H.
  repeat (apply elem_of_cons in H as [-> | H]; [reflexivity |]).
  inversion H.
Qed.

Lemma truncate_run (lines : nat) (o : str) :
  has_escape_run o = false -> has_escape_run (snd (truncate lines o)) = false.
Proof.
  intros H. unfold truncate.
  destruct (10 <? lines); [destruct (1000 <=? length o) |
                           destruct (1000 <=? length o)]; cbn [snd];
    try exact H;
    rewrite has_escape_run_sep by reflexivity;
    rewrite ?has_escape_run_firstn, ?H by exact H; reflexivity.
Qed.

Lemma format_output_returns (output : str) (env : Env) (w : World) :
  exists body link w', format_output output env w = (Ok (body, link), w').
Proof.
  rewrite format_output_cases. cbv zeta.
  unfold escape_outcome, mbind, M_bind, bind, ret.
  rewrite upload_output_spec.
  destruct (has_escape_run _).
  - destruct (N.ltb _ _); eauto.
  - destruct (truncate _ _) as [[|] out]; [destruct (N.ltb _ _) |]; eauto.
Qed.

Lemma format_output_body_run (output : str) (env : Env) (w : World)
      (body : str) (link : option str) (w' : World) :
  format_output output env w = (Ok (body, link), w') -> has_escape_run body = false.
Proof.
  intros Heq. rewrite format_output_cases in Heq. cbv zeta in Heq.
  unfold escape_outcome, mbind, M_bind, bind, ret in Heq.
  rewrite upload_output_spec in Heq.
  destruct (has_escape_run (neutralize (rstrip is_nl output))) eqn:Hn.
  - destruct (N.ltb _ _); injection Heq as <- _ _; reflexivity.
  - pose proof (truncate_run (count_nl (neutralize (rstrip is_nl output)))
                  _ (numbered_run _ Hn)) as Hcut.
    destruct (truncate _ _) as [tr out]. cbn [snd] in Hcut.
    destruct tr.
    + destruct (N.ltb _ _); injection Heq as <- _ _; exact Hcut.
    + injection Heq as <- _ _. destruct out; [reflexivity | exact Hcut].
Qed.

(** X1: the body that [format_output] returns never has three characters
    in a row out of backtick, U+202E and U+200B, so it cannot close the
    code block that [send_eval] puts around it; and [format_output]
    always returns. *)
Theorem format_output_body_keeps_fence (output : str) (env : Env) (w : World) :
  exists body link w',
    format_output output env w = (Ok (body, link), w')
    /\ has_escape_run body = false
    /\ ~ (exists pre a b c post,
             body = pre ++ a :: b :: c :: post
             /\ escape_char a = true /\ escape_char b = true /\ escape_char c = true).
Proof.
  destruct (format_output_returns output env w) as (body & link & w' & Heq).
  exists body, link, w'. split; [exact Heq |].
  pose proof (format_output_body_run _ _ _ _ _ _ Heq) as Hrun.
  split; [exact Hrun |].
  intros H. apply has_escape_run_iff in H. congruence.
Qed.

(** ** Mentions *)


Lemma contains_spec (w s : str) :
  contains w s = true <-> exists pre post, s = pre ++ w ++ post.
Proof.
  induction s as [| c t IH]; cbn [contains].
  - rewrite startswith_spec. split.
    + intros [r Hr]. exists [], r. exact Hr.
    + intros (pre & post & H). destruct pre; [| discriminate H]. eauto.
  - rewrite orb_true_iff, startswith_spec, IH. split.
    + intros [[r Hr] | (pre & post & ->)].
      * exists [], r. exact Hr.
      * exists (c :: pre), post. reflexivity.
    + intros (pre & post & H). destruct pre as [| x pre].
      * left. eauto.
      * right. injection H as _ ->. eauto.
Qed.

Lemma followed_suffix (Q : char -> Prop) (sigil a s : str) :
  followed_by Q sigil (a ++ s) -> followed_by Q sigil s.
Proof.
  intros H pre post ->. apply (H (a ++ pre) post). rewrite <- app_assoc. reflexivity.
Qed.


Lemma followed_step (Q : char -> Prop) (sigil : str) (c : char) (r : str) :
  followed_by Q sigil r ->
  (forall post, c :: r = sigil ++ post -> exists x post', post = x :: post' /\ Q x) ->
  followed_by Q sigil (c :: r).
Proof.
  intros Hr Hhead pre post Heq. destruct pre as [| x pre].
  - apply Hhead. exact Heq.
  - injection Heq as _ Heq. apply (Hr pre post Heq).
Qed.

(** [replace] keeps the first character of the text, when [new] starts
    like [old]. *)
Lemma replace_head (o : char) (old new : str) (c : char) (s r : str) :
  replace (o :: old) (o :: new) s = c :: r -> exists t, s = c :: t.
Proof.
  destruct s as [| x t]; [discriminate |].
  destruct (startswith (x :: t) (o :: old)) eqn:Hsw.
  - apply startswith_spec in Hsw as [t' Ht']. rewrite Ht', replace_match.
    injection Ht' as -> _. intros [= <- _]. eauto.
  - rewrite replace_no_match by exact Hsw. intros [= <- _]. eauto.
Qed.

Lemma replace_lt_at_followed (s : str) :
  followed_by_zwsp [LT; AT] (replace [LT; AT] [LT; AT; ZWSP] s).
Proof.
  apply (replace_ind LT [AT] [LT; AT; ZWSP]
           (fun s r => r = replace [LT; AT] [LT; AT; ZWSP] s
                       /\ followed_by_zwsp [LT; AT] r)).
  - split; [reflexivity |]. intros [| ? ?] ? H; discriminate H.
  - intros t r [-> IH]. split; [rewrite replace_match; reflexivity |].
    cbn [app]. apply followed_step; [| intros post [= <-]; eauto].
    apply followed_step; [| intros post [= ?]; discriminate].
    apply followed_step; [exact IH | intros post [= ?]; discriminate].
  - intros c t r Hsw [-> IH]. split; [rewrite replace_no_match by exact Hsw; reflexivity |].
    apply followed_step; [exact IH |].
    intros post [= -> Hr]. exfalso.
    apply replace_head in Hr as [t' ->]. vm_compute in Hsw. discriminate Hsw.
Qed.

Lemma replace_lt_bang_at_followed (s : str) :
  followed_by_zwsp [LT; BANG; AT] (replace [LT; BANG; AT] [LT; BANG; AT; ZWSP] s).
Proof.
  apply (replace_ind LT [BANG; AT] [LT; BANG; AT; ZWSP]
           (fun s r => r = replace [LT; BANG; AT] [LT; BANG; AT; ZWSP] s
                       /\ followed_by_zwsp [LT; BANG; AT] r)).
  - split; [reflexivity |]. intros [| ? ?] ? H; discriminate H.
  - intros t r [-> IH]. split; [rewrite replace_match; reflexivity |].
    cbn [app]. apply followed_step; [| intros post [= <-]; eauto].
    apply followed_step; [| intros post [= ?]; discriminate].
    apply followed_step; [| intros post [= ?]; discriminate].
    apply followed_step; [exact IH | intros post [= ?]; discriminate].
  - intros c t r Hsw [-> IH]. split; [rewrite replace_no_match by exact Hsw; reflexivity |].
    apply followed_step; [exact IH |].
    intros post [= -> Hr]. exfalso.
    pose proof Hr as Hr'. apply replace_head in Hr' as [t' ->].
    rewrite replace_no_match in Hr by reflexivity. injection Hr as Hr.
    apply replace_head in Hr as [t'' ->]. vm_compute in Hsw. discriminate Hsw.
Qed.

Lemma replace_keeps_followed (s : str) :
  followed_by_zwsp [LT; AT] s ->
  followed_by_zwsp [LT; AT] (replace [LT; BANG; AT] [LT; BANG; AT; ZWSP] s).
Proof.
  apply (replace_ind LT [BANG; AT] [LT; BANG; AT; ZWSP]
           (fun s r => r = replace [LT; BANG; AT] [LT; BANG; AT; ZWSP] s
                       /\ (followed_by_zwsp [LT; AT] s -> followed_by_zwsp [LT; AT] r))).
  - split; [reflexivity | auto].
  - intros t r [-> IH]. split; [rewrite replace_match; reflexivity |].
    intros Hs. apply (followed_suffix _ _ [LT; BANG; AT]) in Hs. specialize (IH Hs).
    cbn [app]. apply followed_step; [| intros post [= ?]; discriminate].
    apply followed_step; [| intros post [= ?]; discriminate].
    apply followed_step; [| intros post [= ?]; discriminate].
    apply followed_step; [exact IH | intros post [= ?]; discriminate].
  - intros c t r Hsw [-> IH]. split; [rewrite replace_no_match by exact Hsw; reflexivity |].
    intros Hs. pose proof (followed_suffix _ _ [c] _ Hs) as Ht. specialize (IH Ht).
    apply followed_step; [exact IH |].
    intros post [= -> Hr].
    pose proof Hr as Hr'. apply replace_head in Hr' as [t' ->].
    destruct (Hs [] t' eq_refl) as (x & t'' & -> & ->).
    rewrite replace_no_match in Hr by reflexivity. injection Hr as <-.
    rewrite replace_no_match by reflexivity. eauto.
Qed.

Lemma not_contains_followed (Q : char -> Prop) (sigil s : str) :
  contains sigil s = false -> followed_by Q sigil s.
Proof.
  intros H pre post Heq.
  assert (contains sigil s = true) as Hc by (apply contains_spec; eauto).
  congruence.
Qed.

Lemma neutralize_breaks_mentions (s : str) :
  followed_by_zwsp (u "<@") (neutralize s)
  /\ followed_by_zwsp (u "<!@") (neutralize s).
Proof.
  unfold neutralize.
  assert (followed_by_zwsp (u "<@")
            (if contains (u "<@") s
             then replace (u "<@") (u "<@" ++ [ZWSP]) s else s)) as H1.
  { destruct (contains (u "<@") s) eqn:Hc;
      [apply replace_lt_at_followed | apply not_contains_followed, Hc]. }
  destruct (contains (u "<!@") _) eqn:Hc.
  - split; [apply replace_keeps_followed, H1 | apply replace_lt_bang_at_followed].
  - split; [exact H1 | apply not_contains_followed, Hc].
Qed.

Section Sigil.
Variables (o : char) (old : str).
Hypothesis o_not_nl : o <> NL.
Hypothesis old_no_nl : ~ In NL old.

Let sigil : str := o :: old.

Lemma followed_mono (Q Q' : char -> Prop) (s : str) :
  (forall c, Q c -> Q' c) -> followed_by Q sigil s -> followed_by Q' sigil s.
Proof.
  intros HQ H pre post Heq. destruct (H pre post Heq) as (c & post' & -> & Hc). eauto.
Qed.

Lemma followed_clean (Q : char -> Prop) (s : str) : ~ In o s -> followed_by Q sigil s.
Proof.
  intros Hs pre post ->. exfalso. apply Hs.
  apply in_or_app. right. left. reflexivity.
Qed.

Lemma followed_clean_app (Q : char -> Prop) (p s : str) :
  ~ In o p -> followed_by Q sigil s -> followed_by Q sigil (p ++ s).
Proof.
  intros Hp Hs. induction p as [| c p IH]; [exact Hs |].
  cbn [app]. apply followed_step.
  - apply IH. intros Hin. apply Hp. right. exact Hin.
  - intros post [= -> _]. exfalso. apply Hp. left. reflexivity.
Qed.

Lemma sigil_no_nl : ~ In NL sigil.
Proof. intros [H | H]; [apply o_not_nl, H | apply old_no_nl, H]. Qed.

(** An occurrence in [a ++ NL :: b] that starts in [a] lies in [a]. *)
Lemma sigil_before_nl (a b post : str) :
  a ++ NL :: b = sigil ++ post -> a <> [] ->
  exists r, a = sigil ++ r /\ post = r ++ NL :: b.
Proof.
  intros Heq Ha. apply app_eq_inv in Heq as [(k & Hk & Hpost) | (k & Hk & Hb)].
  - eauto.
  - destruct k as [| x k].
    + rewrite app_nil_r in Hk. exists []. rewrite app_nil_r. simpl in Hb. auto.
    + injection Hb as <- _. exfalso. apply sigil_no_nl. rewrite Hk.
      apply in_or_app. right. left. reflexivity.
Qed.

Lemma followed_line_app (Q : char -> Prop) (a b : str) :
  followed_by Q sigil a -> followed_by Q sigil b ->
  followed_by Q sigil (a ++ NL :: b).
Proof.
  intros Ha Hb. induction a as [| c a IH].
  - cbn [app]. apply followed_step; [exact Hb |].
    intros post [= Hc _]. exfalso. apply o_not_nl. congruence.
  - cbn [app]. apply followed_step.
    + apply IH. apply (followed_suffix _ _ [c]). exact Ha.
    + intros post Heq.
      destruct (sigil_before_nl (c :: a) b post Heq ltac:(discriminate)) as (r & Hr & ->).
      destruct (Ha [] r Hr) as (x & r' & -> & Hx). eauto.
Qed.

Lemma followed_join (Q : char -> Prop) (ls : list str) :
  Forall (followed_by Q sigil) ls -> followed_by Q sigil (join_nl ls).
Proof.
  induction 1 as [| l ls Hl _ IH].
  - intros [| ? ?] ? H; discriminate H.
  - destruct ls as [| l' ls]; [exact Hl |].
    rewrite join_nl_cons. apply followed_line_app; assumption.
Qed.

Lemma followed_lines (ls : list str) :
  followed_by_zwsp sigil (join_nl ls) -> Forall (followed_by_zwsp sigil) ls.
Proof.
  induction ls as [| l ls IH]; [constructor |].
  destruct ls as [| l' ls]; [intros H; repeat constructor; exact H |].
  rewrite join_nl_cons. intros H. constructor.
  - intros pre post ->. rewrite <- !app_assoc in H.
    destruct (H pre _ eq_refl) as (x & r & Hr & ->).
    destruct post as [| y post]; [discriminate Hr |].
    injection Hr as -> _. eauto.
  - apply IH. apply (followed_suffix _ _ (l ++ [NL])). rewrite <- app_assoc. exact H.
Qed.

Lemma followed_numbered (s : str) :
  ~ In o (u "0123456789 |") ->
  followed_by_zwsp sigil s -> followed_by_zwsp sigil (numbered s).
Proof.
  intros Ho H. unfold numbered. destruct (0 <? count_nl s); [| exact H].
  apply followed_join, Forall_take. unfold number_lines.
  apply Forall_imap_keep.
  - intros i l Hl. rewrite app_assoc. apply followed_clean_app; [| exact Hl].
    intros Hin. apply Ho. change (u "0123456789 |") with (u "0123456789" ++ u " |").
    apply in_or_app. apply in_app_or in Hin as [Hin | Hin].
    + pose proof (pad3_digits (S i)) as Hd. rewrite Forall_forall in Hd.
      apply list_elem_of_In in Hin. left. exact (Hd _ Hin).
    + right. vm_compute in Hin |- *. tauto.
  - apply followed_lines. rewrite join_split_nl. exact H.
Qed.

Lemma followed_cut (n : nat) (y m : str) :
  followed_by_zwsp sigil y -> ~ In o m ->
  followed_by zwsp_or_nl sigil (firstn n y ++ NL :: m).
Proof.
  intros Hy Hm pre post Heq. rewrite app_assoc in Heq.
  apply app_eq_inv in Heq as [(k & Hk & Hpost) | (k & Hk & Hpost)].
  - destruct k as [| c k].
    + exists NL, m. split; [exact Hpost | right; reflexivity].
    + destruct (Hy pre (c :: k ++ skipn n y)) as (x & r & [= -> _] & ->).
      { rewrite <- (firstn_skipn n y) at 1. rewrite Hk, <- !app_assoc. reflexivity. }
      exists ZWSP, (k ++ NL :: m). split; [exact Hpost | left; reflexivity].
  - destruct k as [| x k].
    + rewrite app_nil_r in Hk. exists NL, m. split; [| right; reflexivity].
      simpl in Hpost. congruence.
    + exfalso. injection Hpost as <- ->.
      change (firstn n y ++ NL :: k) with (firstn n y ++ [NL] ++ k) in Hk.
      rewrite app_assoc in Hk.
      apply app_eq_inv in Hk as [(j & _ & Hj) | (j & Hj & Hs)].
      * apply Hm. rewrite Hj, <- app_assoc. apply in_or_app. right. left. reflexivity.
      * destruct (nil_or_length_pos j) as [-> | Hlen].
        { apply Hm. simpl in Hs. rewrite <- Hs. apply in_or_app. left. left. reflexivity. }
        apply sigil_no_nl. rewrite Hs. apply in_or_app. left.
        apply (f_equal (@last char)) in Hj. rewrite last_snoc in Hj.
        destruct j as [| a j] using rev_ind; [simpl in Hlen; lia |].
        rewrite app_assoc, last_snoc in Hj. injection Hj as <-.
        apply in_or_app. right. left. reflexivity.
Qed.

Lemma followed_truncate (lines : nat) (y : str) :
  ~ In o (concat MARKER_LINES) ->
  followed_by_zwsp sigil y ->
  followed_by zwsp_or_nl sigil (snd (truncate lines y)).
Proof.
  intros Ho Hy.
  assert (forall m, NL :: m ∈ MARKER_LINES -> ~ In o m) as Hm.
  { intros m Hin Hom. apply Ho. apply in_concat. exists (NL :: m).
    split; [apply list_elem_of_In, Hin | right; exact Hom]. }
  assert (followed_by zwsp_or_nl sigil y) as Hy'.
  { revert Hy. apply followed_mono. intros c ->. left. reflexivity. }
  unfold truncate.
  destruct (10 <? lines); [destruct (1000 <=? length y) | destruct (1000 <=? length y)];
    cbn [snd]; try exact Hy'.
  - apply followed_cut; [exact Hy |]. apply Hm. apply list_elem_of_here.
  - apply followed_line_app; [exact Hy' |]. apply followed_clean, Hm.
    apply list_elem_of_further, list_elem_of_here.
  - apply followed_cut; [exact Hy |]. apply Hm.
    apply list_elem_of_further, list_elem_of_further, list_elem_of_here.
Qed.

End Sigil.

Lemma not_in_lt (s : str) : forallb (fun c => negb (N.eqb c LT)) s = true -> ~ In LT s.
Proof.
  intros H Hin. rewrite forallb_forall in H. specialize (H _ Hin).
  rewrite N.eqb_refl in H. discriminate H.
Qed.

Lemma body_breaks_sigil (old : str) (lines : nat) (s : str) :
  ~ In NL old ->
  followed_by_zwsp (LT :: old) s ->
  followed_by zwsp_or_nl (LT :: old)
    (let out := snd (truncate lines (numbered s)) in
     if is_empty out then u "[No output]" else out).
Proof.
  intros Hold Hs. cbv zeta.
  destruct (is_empty _).
  - apply followed_clean, not_in_lt. reflexivity.
  - apply followed_truncate; [discriminate | exact Hold | apply not_in_lt; reflexivity |].
    apply followed_numbered; [discriminate | exact Hold | apply not_in_lt; reflexivity | exact Hs].
Qed.

Lemma format_output_body_mentions (output : str) (env : Env) (w : World)
      (body : str) (link : option str) (w' : World) :
  format_output output env w = (Ok (body, link), w') ->
  followed_by zwsp_or_nl (u "<@") body /\ followed_by zwsp_or_nl (u "<!@") body.
Proof.
  intros Heq.
  rewrite format_output_cases in Heq. cbv zeta in Heq.
  unfold escape_outcome, mbind, M_bind, bind, ret in Heq.
  rewrite upload_output_spec in Heq.
  destruct (neutralize_breaks_mentions (rstrip is_nl output)) as [H1 H2].
  pose proof (body_breaks_sigil [AT] (count_nl (neutralize (rstrip is_nl output)))
                _ ltac:(vm_compute; intuition discriminate) H1) as B1.
  pose proof (body_breaks_sigil [BANG; AT] (count_nl (neutralize (rstrip is_nl output)))
                _ ltac:(vm_compute; intuition discriminate) H2) as B2.
  cbv zeta in B1, B2.
  destruct (has_escape_run (neutralize (rstrip is_nl output))).
  - assert (body = ESCAPE_BODY) as -> by (destruct (N.ltb _ _); congruence).
    split; apply followed_clean, not_in_lt; reflexivity.
  - pose proof (truncate_spec (count_nl (neutralize (rstrip is_nl output)))
                  (numbered (neutralize (rstrip is_nl output)))) as Hspec.
    destruct (truncate _ _) as [tr out]. cbn [snd] in B1, B2.
    destruct tr.
    + assert (body = out) as -> by (destruct (N.ltb _ _); congruence).
      destruct Hspec as (_ & Hcut & _).
      destruct (Hcut eq_refl) as (head & tail & -> & _ & Htail).
      assert (is_empty (head ++ tail) = false) as Hne.
      { destruct head; [| reflexivity]. unfold MARKER_LINES in Htail.
        repeat (apply elem_of_cons in Htail as [-> | Htail]; [reflexivity |]).
        inversion Htail. }
      rewrite Hne in B1, B2. split; assumption.
    + injection Heq as <- _ _. split; assumption.
Qed.

(** X2: in the body that [format_output] returns, every [<@] and every
    [<!@] is followed by a zero-width space, or by the newline of the
    truncation marker where the body was cut right behind it: the body
    cannot mention anybody. *)
Theorem format_output_breaks_mentions (output : str) (env : Env) (w : World) :
  exists body link w',
    format_output output env w = (Ok (body, link), w')
    /\ followed_by zwsp_or_nl (u "<@") body
    /\ followed_by zwsp_or_nl (u "<!@") body.
Proof.
  destruct (format_output_returns output env w) as (body & link & w' & Heq).
  exists body, link, w'. split; [exact Heq |].
  exact (format_output_body_mentions _ _ _ _ _ _ Heq).
Qed.

(** ** What the formatter does to the outside, and what it shows in full *)

Lemma calls_since_refl (w : World) : calls_since w w = [].
Proof. unfold calls_since. apply drop_all. Qed.

Lemma calls_since_app (w : World) (j : gmap Z Z) (evs : list Event) :
  calls_since w (MkWorld j (trace w ++ evs)) = evs.
Proof. unfold calls_since. simpl. apply drop_app_length. Qed.

(** X3: [format_output] always returns, leaves the registry alone and
    makes at most one external call: the upload of the output without
    its trailing newlines, and only when that text has at most 10000
    characters; the link is then what the paste service answered.
    Without an upload the link is null or the fixed string. *)
Theorem format_output_effects (output : str) (env : Env) (w : World) :
  let s := rstrip is_nl output in
  exists body link w',
    format_output output env w = (Ok (body, link), w')
    /\ jobs w' = jobs w
    /\ (calls_since w w' = []
        /\ (link = None \/ link = Some (u "too long to upload")
                /\ (MAX_PASTE_LEN < N.of_nat (length s))%N)
        \/ calls_since w w' = [EvPaste s]
           /\ (N.of_nat (length s) <= MAX_PASTE_LEN)%N
           /\ link = paste_service env (trace w) s).
Proof.
  intros s. rewrite format_output_cases. cbv zeta. fold s.
  unfold escape_outcome, mbind, M_bind, bind, ret.
  rewrite upload_output_spec.
  destruct (N.ltb_spec MAX_PASTE_LEN (N.of_nat (length s))) as [Hlen | Hlen];
    (destruct (has_escape_run (neutralize s));
     [| destruct (truncate _ _) as [[|] out]]);
    eexists _, _, _; (split; [reflexivity |]); (split; [reflexivity |]);
    first [ left; split; [apply calls_since_refl |];
            first [ left; reflexivity | right; split; [reflexivity | exact Hlen] ]
          | right; split; [apply calls_since_app |];
            split; [exact Hlen | reflexivity] ].
Qed.

(** X4: an output of newlines only, the empty output included, is shown
    as [[No output]], with no link and no external call. *)
Theorem format_output_blank (output : str) (env : Env) (w : World) :
  forallb is_nl output = true ->
  format_output output env w = (Ok (u "[No output]", None), w).
Proof.
  intros H. apply rstrip_nil_iff in H.
  rewrite format_output_cases. cbv zeta. rewrite H. reflexivity.
Qed.

Lemma format_output_blank_witness :
  forallb is_nl [NL; NL; NL] = true
  /\ format_output [NL; NL; NL] Scenario.quiet Scenario.idle
     = (Ok (u "[No output]", None), Scenario.idle).
Proof.
  split; [reflexivity |].
  apply (format_output_blank [NL; NL; NL] Scenario.quiet Scenario.idle). reflexivity.
Defined.

(** X5: an output that, without its trailing newlines, is one line of
    fewer than 1000 characters with no mention sigil in it and no run of
    three escape characters is returned as it is, without a line number,
    a link or an external call. *)
Theorem format_output_single_line (output : str) (env : Env) (w : World) :
  let s := rstrip is_nl output in
  s <> [] -> count_nl s = 0 -> length s < 1000 ->
  contains (u "<@") s = false -> contains (u "<!@") s = false ->
  has_escape_run s = false ->
  format_output output env w = (Ok (s, None), w).
Proof.
  intros s Hne Hnl Hlen H1 H2 Hrun.
  rewrite format_output_cases. cbv zeta. fold s.
  assert (neutralize s = s) as ->.
  { unfold neutralize. rewrite H1, H2. reflexivity. }
  rewrite Hrun. unfold numbered, truncate. rewrite Hnl.
  change (0 <? 0) with false. change (10 <? 0) with false. cbv iota.
  destruct (Nat.leb_spec 1000 (length s)); [lia |].
  destruct s; [congruence | reflexivity].
Qed.

Lemma format_output_single_line_witness :
  format_output (u "4" ++ [NL]) Scenario.quiet Scenario.idle
  = (Ok (u "4", None), Scenario.idle).
Proof.
  apply (format_output_single_line (u "4" ++ [NL]) Scenario.quiet Scenario.idle);
    vm_compute; solve [reflexivity | lia | discriminate].
Defined.

Lemma pad3_length (n : nat) : n <= 11 -> length (pad3 n) = 3.
Proof.
  intros H.
  do 12 (destruct n as [| n]; [reflexivity |]). lia.
Qed.

Lemma pad3_one_line (n : nat) : one_line (pad3 n).
Proof.
  unfold one_line. apply forallb_forall. intros c Hc.
  pose proof (pad3_digits n) as Hd. rewrite Forall_forall in Hd.
  apply list_elem_of_In in Hc. specialize (Hd c Hc).
  vm_compute in Hd. repeat (destruct Hd as [<- | Hd]; [reflexivity |]). destruct Hd.
Qed.

Lemma imap_prefix_facts (f : nat -> str) (ls : list str) :
  (forall i, i < length ls -> length (f i) = 6) ->
  (forall i, one_line (f i)) ->
  Forall one_line ls ->
  map (skipn 6) (imap (fun i l => f i ++ l) ls) = ls
  /\ Forall one_line (imap (fun i l => f i ++ l) ls)
  /\ (ls <> [] ->
      length (join_nl (imap (fun i l => f i ++ l) ls))
      = length (join_nl ls) + 6 * length ls).
Proof.
  intros Hlen Hone Hls. revert f Hlen Hone.
  induction Hls as [| l ls Hl Hls IH]; intros f Hlen Hone.
  - split; [reflexivity | split; [constructor | congruence]].
  - cbn [imap].
    match goal with
    | |- context [imap ?g ls] =>
        replace (imap g ls) with (imap (fun i x => (f ∘ S) i ++ x) ls)
          by (apply imap_ext; reflexivity)
    end.
    destruct (IH (f ∘ S)) as (IH1 & IH2 & IH3).
    { intros i Hi. apply Hlen. simpl. lia. }
    { intros i. apply Hone. }
    assert (length (f 0) = 6) as H0 by (apply Hlen; simpl; lia).
    split; [| split].
    + cbn [map]. rewrite drop_app_length' by (symmetry; exact H0). f_equal. exact IH1.
    + constructor; [| exact IH2].
      unfold one_line. rewrite forallb_app. rewrite (Hone 0), Hl. reflexivity.
    + intros _. destruct ls as [| l' ls].
      * cbn. rewrite length_app, H0. lia.
      * specialize (IH3 ltac:(discriminate)).
        destruct (imap (fun i x => (f ∘ S) i ++ x) (l' :: ls)) as [| y ys] eqn:Himap;
          [discriminate Himap |].
        rewrite !join_nl_cons, !length_app. cbn [length] in *.
        unfold str in *. lia.
Qed.

Lemma numbered_facts (s : str) :
  0 < count_nl s <= 10 ->
  split_nl (numbered s) = number_lines (split_nl s)
  /\ map (skipn 6) (split_nl (numbered s)) = split_nl s
  /\ length (numbered s) = length s + 6 * S (count_nl s).
Proof.
  intros [Hpos Hle]. unfold numbered.
  destruct (Nat.ltb_spec 0 (count_nl s)); [| lia].
  pose proof (split_nl_length s) as Hlen.
  rewrite firstn_all2 by (unfold number_lines; rewrite length_imap; unfold str in *; lia).
  unfold number_lines.
  destruct (imap_prefix_facts (fun i => pad3 (S i) ++ u " | ") (split_nl s))
    as (H1 & H2 & H3).
  { intros i Hi. rewrite length_app, pad3_length; [reflexivity |].
    unfold str in *. lia. }
  { intros i. unfold one_line. rewrite forallb_app, (pad3_one_line (S i)). reflexivity. }
  { apply split_nl_one_line. }
  assert (forall ls : list str,
             imap (fun i line => pad3 (S i) ++ u " | " ++ line) ls
             = imap (fun i l => (pad3 (S i) ++ u " | ") ++ l) ls) as Himap.
  { intros ls. apply imap_ext. intros i x _. simpl. rewrite <- app_assoc. reflexivity. }
  rewrite !Himap.
  assert (split_nl (join_nl (imap (fun i l => (pad3 (S i) ++ u " | ") ++ l) (split_nl s)))
          = imap (fun i l => (pad3 (S i) ++ u " | ") ++ l) (split_nl s)) as Hsplit.
  { apply split_join_nl; [| exact H2].
    intros Hnil. apply (f_equal length) in Hnil. rewrite length_imap in Hnil.
    simpl in Hnil. unfold str in *. lia. }
  rewrite Hsplit. split; [reflexivity |]. split; [exact H1 |].
  rewrite H3 by apply split_nl_ne. rewrite join_split_nl. unfold str in *. lia.
Qed.

(** X6: an output that, without its trailing newlines and with the
    mentions neutralized, has two to eleven lines, no run of three escape
    characters, and fewer than 1000 characters once every line has its
    six characters of numbering, is shown in full: line [i] is the
    three-digit number [i], [ | ] and the line of the output; cutting the
    six characters off every line gives the output back.  There is no
    link and no external call. *)
Theorem format_output_numbered (output : str) (env : Env) (w : World) :
  let s := neutralize (rstrip is_nl output) in
  has_escape_run s = false ->
  0 < count_nl s <= 10 ->
  length s + 6 * S (count_nl s) < 1000 ->
  exists body,
    format_output output env w = (Ok (body, None), w)
    /\ split_nl body = imap (fun i line => pad3 (S i) ++ u " | " ++ line) (split_nl s)
    /\ map (skipn 6) (split_nl body) = split_nl s
    /\ join_nl (map (skipn 6) (split_nl body)) = s.
Proof.
  intros s Hrun Hlines Hlen.
  destruct (numbered_facts s Hlines) as (H1 & H2 & H3).
  exists (numbered s). split; [| split; [exact H1 | split; [exact H2 |]]].
  - rewrite format_output_cases. cbv zeta. fold s. rewrite Hrun.
    unfold truncate.
    destruct (Nat.ltb_spec 10 (count_nl s)); [lia |].
    destruct (Nat.leb_spec 1000 (length (numbered s))); [lia |].
    destruct (numbered s) eqn:Hn; [simpl in H3; lia | reflexivity].
  - rewrite H2. apply join_split_nl.
Qed.

Lemma format_output_numbered_witness :
  exists body,
    format_output (u "a" ++ [NL] ++ u "<@1>" ++ [NL]) Scenario.quiet Scenario.idle
    = (Ok (body, None), Scenario.idle)
    /\ split_nl body = [u "001 | a"; u "002 | <@" ++ [ZWSP] ++ u "1>"].
Proof.
  destruct (format_output_numbered (u "a" ++ [NL] ++ u "<@1>" ++ [NL])
              Scenario.quiet Scenario.idle) as (body & H1 & H2 & _);
    [vm_compute; reflexivity | vm_compute; lia | vm_compute; lia |].
  exists body. split; [exact H1 | exact H2].
Defined.

(** ** The timing line *)

Lemma Matches_consumes (P : char -> bool) (r : regex) (st st' : mstate) :
  Matches r st st' -> consumes_only P r ->
  exists w, rest st = w ++ rest st' /\ forallb P w = true.
Proof.
  induction 1 as [st | c st t Hrest | p c st t Hrest Hp
                  | a b st1 st2 st3 _ IH1 _ IH2
                  | a b st st' _ IH | a b st st' _ IH
                  | g a st | g a st1 st2 st3 _ IH1 Hlt _ IH2
                  | n a st st' _ IH | n st w Hget Hsw
                  | n a b st st' w Hget _ IH | n a b st st' Hget _ IH
                  | st Hpos | st Hrest];
    cbn [consumes_only]; intros HP;
    try (exists []; split; reflexivity).
  - exists [c]. simpl. rewrite Hrest, HP. split; reflexivity.
  - exists [c]. simpl. rewrite Hrest, (HP c Hp). split; reflexivity.
  - destruct HP as [Ha Hb].
    destruct (IH1 Ha) as (w1 & Hr1 & Hp1), (IH2 Hb) as (w2 & Hr2 & Hp2).
    exists (w1 ++ w2). rewrite Hr1, Hr2, forallb_app, Hp1, Hp2, app_assoc.
    split; reflexivity.
  - apply IH, HP.
  - apply IH, HP.
  - destruct (IH1 HP) as (w1 & Hr1 & Hp1), (IH2 HP) as (w2 & Hr2 & Hp2).
    exists (w1 ++ w2). rewrite Hr1, Hr2, forallb_app, Hp1, Hp2, app_assoc.
    split; reflexivity.
  - apply IH, HP.
  - destruct HP.
  - apply IH, HP.
  - apply IH, HP.
Qed.

Lemma fullmatch_consumes (P : char -> bool) (r : regex) (s : str) (m : Match) :
  consumes_only P r -> fullmatch r s = Some m -> forallb P s = true.
Proof.
  intros HP Hm. unfold fullmatch in Hm.
  destruct (exec r at_end (MState 0 s [])) as [st |] eqn:Hexec; [| discriminate Hm].
  apply exec_sound in Hexec as (st' & HM & Hend).
  destruct (Matches_consumes P r _ _ HM HP) as (w & Hw & Hall).
  unfold at_end in Hend. destruct (rest st'); [| discriminate Hend].
  simpl in Hw. rewrite app_nil_r in Hw. subst w. exact Hall.
Qed.

Lemma consumes_only_Lit (P : char -> bool) (s : str) :
  forallb P s = true -> consumes_only P (Lit s).
Proof.
  induction s as [| c s IH]; [constructor |].
  cbn [forallb]. intros H. apply andb_prop in H as [Hc Hs].
  split; [exact Hc | apply IH, Hs].
Qed.

Lemma tame_cases (c : char) :
  tame c = false -> c = BACKTICK \/ c = RLO \/ c = ZWSP \/ c = LT \/ c = NL.
Proof.
  unfold tame, escape_char, is_nl.
  destruct (N.eqb_spec c BACKTICK); [auto |].
  destruct (N.eqb_spec c RLO); [auto |].
  destruct (N.eqb_spec c ZWSP); [auto |].
  destruct (N.eqb_spec c LT); [auto |].
  destruct (N.eqb_spec c NL); [auto |].
  discriminate.
Qed.

Lemma tame_class (p : char -> bool) :
  p BACKTICK = false -> p RLO = false -> p ZWSP = false -> p LT = false -> p NL = false ->
  forall c, p c = true -> tame c = true.
Proof.
  intros H1 H2 H3 H4 H5 c Hc. destruct (tame c) eqn:Ht; [reflexivity |].
  destruct (tame_cases c Ht) as [-> | [-> | [-> | [-> | ->]]]]; congruence.
Qed.

Lemma timing_line_tame (s : str) : is_timing_line s = true -> forallb tame s = true.
Proof.
  unfold is_timing_line. intros H.
  destruct (fullmatch TIMEIT_OUTPUT_REGEX s) as [m |] eqn:Hm; [| discriminate H].
  apply (fullmatch_consumes tame TIMEIT_OUTPUT_REGEX s m); [| exact Hm].
  assert (forall c, isdecimal c = true -> tame c = true) as Hd
      by (apply tame_class; vm_compute; reflexivity).
  assert (forall c, mnu c = true -> tame c = true) as Hm'
      by (apply tame_class; vm_compute; reflexivity).
  unfold TIMEIT_OUTPUT_REGEX, Plus, Opt. cbn [consumes_only].
  repeat split; try assumption; try (apply consumes_only_Lit; reflexivity).
Qed.

Lemma tame_plain (s : str) : forallb tame s = true -> plain s.
Proof.
  unfold plain. intros H. rewrite forallb_forall in *. intros c Hc.
  specialize (H c Hc). unfold tame in H.
  apply andb_prop in H as [H _]. apply andb_prop in H as [H _]. exact H.
Qed.

Lemma tame_no_lt (s : str) : forallb tame s = true -> ~ In LT s.
Proof.
  intros H Hin. rewrite forallb_forall in H. specialize (H _ Hin).
  vm_compute in H. discriminate H.
Qed.

Lemma tame_one_line (s : str) : forallb tame s = true -> one_line s.
Proof.
  unfold one_line. intros H. rewrite forallb_forall in *. intros c Hc.
  specialize (H c Hc). unfold tame in H. apply andb_prop in H as [_ H]. exact H.
Qed.

Lemma format_timeit_output_cases (output : str) (env : Env) (w : World) :
  format_timeit_output output env w = format_output output env w
  \/ exists line,
       format_timeit_output output env w = (Ok (line, None), w)
       /\ is_timing_line line = true
       /\ last (split_nl (rstrip is_nl output)) = Some line
       /\ 0 < count_nl (rstrip is_nl output).
Proof.
  unfold format_timeit_output.
  pose proof (rsplit1_nl_spec (rstrip is_nl output)) as Hsplit.
  destruct (rsplit1_nl (rstrip is_nl output)) as [a [b |]]; [| left; reflexivity].
  destruct (fullmatch TIMEIT_OUTPUT_REGEX b) as [m |] eqn:Hm; [| left; reflexivity].
  right. exists b. destruct Hsplit as [Hcount Hlast].
  split; [reflexivity |]. split; [unfold is_timing_line; rewrite Hm; reflexivity |].
  split; assumption.
Qed.

(** X8: the body that [format_timeit_output] returns, the timing line or
    what [format_output] gives, has no three escape characters in a row,
    and every [<@] and [<!@] in it is followed by a zero-width space or a
    newline: a timing line has neither an escape character nor [<] in
    it. *)
Theorem format_timeit_output_body_safe (output : str) (env : Env) (w : World) :
  exists body link w',
    format_timeit_output output env w = (Ok (body, link), w')
    /\ has_escape_run body = false
    /\ followed_by zwsp_or_nl (u "<@") body
    /\ followed_by zwsp_or_nl (u "<!@") body.
Proof.
  destruct (format_timeit_output_cases output env w) as [Heq | (line & Heq & Hline & _)].
  - rewrite Heq.
    destruct (format_output_returns output env w) as (body & link & w' & Hf).
    exists body, link, w'. split; [exact Hf |].
    split; [exact (format_output_body_run _ _ _ _ _ _ Hf) |].
    destruct (format_output_body_mentions _ _ _ _ _ _ Hf) as [H1 H2].
    split; [exact H1 | exact H2].
  - apply timing_line_tame in Hline.
    exists line, None, w. split; [exact Heq |].
    split; [apply has_escape_run_plain, tame_plain, Hline |].
    split; apply followed_clean, tame_no_lt, Hline.
Qed.

(** ** The results message *)

(** X9: [get_results_message] reports an error text in two cases only:
    the return code is missing and the output is not blank (the text is
    the stripped output), or the return code is 255 (the text is the
    fixed NsJail message).  In every other case, a timeout or a signal
    included, the error text is empty. *)
Theorem get_results_message_error (results : Results) :
  (snd (get_results_message results) <> []
   <-> (returncode results = None /\ strip (stdout results) <> [])
       \/ returncode results = Some 255%Z)
  /\ (returncode results = None ->
      get_results_message results
      = (u "Your eval job has failed", strip (stdout results)))
  /\ (returncode results = Some 255%Z ->
      get_results_message results
      = (u "Your eval job has failed", u "A fatal NsJail error occurred")).
Proof.
  unfold get_results_message.
  destruct (returncode results) as [rc |].
  - split; [| split; [discriminate |]].
    + destruct (Z.eqb_spec rc (128 + SIGKILL)) as [-> | H9].
      * cbn [snd]. split; [congruence | intros [[? _] | [= ?]]; discriminate].
      * destruct (Z.eqb_spec rc 255) as [-> | H255].
        -- cbn [snd]. split; [auto | discriminate].
        -- destruct (Signals signal_names (rc - 128)); cbn [snd];
             (split; [congruence | intros [[? _] | [= ?]]; [discriminate | congruence]]).
    + intros [= ->]. reflexivity.
  - split; [| split; [reflexivity | discriminate]].
    cbn [snd]. split; [auto |]. intros [[_ H] | H]; [exact H | discriminate H].
Qed.

(** ** One attempt: what [send_eval] does to the outside *)

Lemma format_output_paste_only : paste_only format_output.
Proof.
  intros o env w. rewrite format_output_cases. cbv zeta.
  unfold escape_outcome, mbind, M_bind, bind, ret. rewrite upload_output_spec.
  assert (forall A (x : A), (Ok x, w) = (Ok x, MkWorld (jobs w) (trace w ++ []))) as Hnil.
  { intros A x. rewrite app_nil_r. destruct w; reflexivity. }
  destruct (N.ltb _ _);
    (destruct (has_escape_run _); [| destruct (truncate _ _) as [[|] out]]);
    first [ eexists _, [_]; split; [reflexivity | repeat constructor]
          | eexists _, []; split; [apply Hnil | constructor] ].
Qed.

Lemma format_timeit_output_paste_only : paste_only format_timeit_output.
Proof.
  intros o env w.
  destruct (format_timeit_output_cases o env w) as [-> | (line & -> & _)].
  - apply format_output_paste_only.
  - eexists _, []. rewrite app_nil_r. split; [destruct w; reflexivity | constructor].
Qed.

Ltac norm_app := repeat first [rewrite <- app_assoc | progress cbn [app]].

Ltac send_eval_steps :=
  repeat (rewrite <- ?app_assoc; cbn [app jobs trace andb];
          match goal with
          | |- context [bool_decide ?P] => destruct (bool_decide P)
          | |- context [filter_cog ?e] => destruct (filter_cog e)
          | |- context [filter_eval ?e ?a ?b] => destruct (filter_eval e a b)
          | |- context [channel_send ?e ?a ?b] => destruct (channel_send e a b)
          end);
  rewrite <- ?app_assoc; cbn [app jobs trace andb].

Lemma send_eval_shape (ctx : Context) (code : str) (args : option (list str))
      (f : FormatFunc) (env : Env) (w : World) :
  paste_only f ->
  let t0 := trace w ++ [EvTyping] in
  let t1 := t0 ++ [EvPostEval code args] in
  match typing env (trace w) with
  | Raise e => send_eval ctx code args f env w = (Raise e, MkWorld (jobs w) t0)
  | Ok _ =>
  match eval_service env t0 code args with
  | Raise e => send_eval ctx code args f env w = (Raise e, MkWorld (jobs w) t1)
  | Ok results =>
      exists evs output link,
        Forall (fun ev => is_paste ev = true) evs
        /\ (if is_empty (snd (get_results_message results))
            then f (stdout results) env (MkWorld (jobs w) t1)
                 = (Ok (output, link), MkWorld (jobs w) (t1 ++ evs))
            else evs = [] /\ output = snd (get_results_message results) /\ link = None)
        /\ let text := eval_message ctx results output link in
           let stat := if bool_decide (get_status_emoji results = u ":x:")
                       then u "snekbox.python.fail" else u "snekbox.python.success" in
           let t2 := t1 ++ evs ++ [EvStat stat] in
           let t3 := if filter_cog env then t2 ++ [EvFilter text] else t2 in
           let sent := if filter_cog env && filter_eval env t2 text
                       then FILTER_NOTICE else text in
           send_eval ctx code args f env w =
             match channel_send env t3 sent with
             | Ok response =>
                 (Ok response,
                  MkWorld (jobs w)
                          (t3 ++ [EvSend sent; EvWaitForDeletion (msg_id response)]))
             | Raise e => (Raise e, MkWorld (jobs w) (t3 ++ [EvSend sent]))
             end
  end
  end.
Proof.
  intros Hf t0 t1.
  unfold send_eval, ctx_typing, post_eval, stats_incr, ctx_send, eval_message.
  unfold mbind, M_bind, mret, M_ret, bind, ret, call, call_raising.
  cbn [trace jobs].
  destruct (typing env (trace w)) as [[] | e]; [| reflexivity].
  cbn [trace jobs]. fold t0.
  destruct (eval_service env t0 code args) as [results | e]; [| reflexivity].
  destruct (get_results_message results) as [msg error]. cbn [fst snd].
  fold t1.
  destruct (is_empty error) eqn:Herr.
  - destruct (Hf (stdout results) env (MkWorld (jobs w) t1))
      as ([output link] & evs & Heq & Hevs).
    cbn [jobs trace] in Heq. rewrite Heq.
    exists evs, output, link. split; [exact Hevs |]. split; [reflexivity |].
    cbv zeta. unfold FILTER_NOTICE.
    destruct link as [[| c l] |]; send_eval_steps; reflexivity.
  - exists [], error, None. split; [constructor |]. split; [auto |].
    cbv zeta. unfold FILTER_NOTICE. send_eval_steps; reflexivity.
Qed.

Lemma paste_events (evs : list Event) :
  Forall (fun ev => is_paste ev = true) evs ->
  Forall (fun ev => is_post_eval ev = false) evs
  /\ List.filter is_send evs = []
  /\ List.filter is_stat evs = [].
Proof.
  induction 1 as [| ev evs Hev _ (IH1 & IH2 & IH3)]; [repeat split; constructor |].
  destruct ev; try discriminate Hev. cbn [List.filter is_send is_stat].
  split; [constructor; [reflexivity | exact IH1] | split; assumption].
Qed.

(** X10: one call of [send_eval] first sends the typing indicator to the
    channel.  When that fails nothing else happens and the failure is
    passed on: no request goes to the evaluation service.  When it is
    accepted, the next call is the one request to the evaluation service,
    and at most one message goes to the channel.  When the service fails
    nothing else happens and the failure is passed on.  When [send_eval]
    returns a response, that response is the answer to the message it
    sent last, and the watch for its deletion is the last thing started.
    The registry is left alone in every case. *)
Theorem send_eval_one_request (ctx : Context) (code : str) (args : option (list str))
        (f : FormatFunc) (env : Env) (w : World) :
  paste_only f ->
  let '(r, w') := send_eval ctx code args f env w in
  jobs w' = jobs w
  /\ exists after,
       calls_since w w' = EvTyping :: after
       /\ (forall e, typing env (trace w) = Raise e -> r = Raise e /\ after = [])
       /\ (typing env (trace w) = Ok tt ->
           exists rest,
             after = EvPostEval code args :: rest
             /\ Forall (fun ev => is_post_eval ev = false) rest
             /\ length (List.filter is_send rest) <= 1
             /\ (forall e, eval_service env (trace w ++ [EvTyping]) code args = Raise e ->
                           r = Raise e /\ rest = [])
             /\ (forall response, r = Ok response ->
                   exists before text,
                     rest = before ++ [EvSend text; EvWaitForDeletion (msg_id response)]
                     /\ channel_send
                          env (trace w ++ EvTyping :: EvPostEval code args :: before) text
                        = Ok response)).
Proof.
  intros Hf. pose proof (send_eval_shape ctx code args f env w Hf) as H.
  cbv zeta in H.
  destruct (typing env (trace w)) as [[] | e0].
  2: { rewrite H. split; [reflexivity |]. exists [].
       split; [apply calls_since_app |].
       split; [intros e' [= <-]; auto | intros [=]]. }
  destruct (eval_service env (trace w ++ [EvTyping]) code args) as [results | e].
  - destruct H as (evs & output & link & Hevs & _ & ->).
    destruct (paste_events evs Hevs) as (Hpost & Hsend & Hstat).
    set (text := eval_message ctx results output link).
    set (stat := if bool_decide (get_status_emoji results = u ":x:")
                 then u "snekbox.python.fail" else u "snekbox.python.success").
    assert (forall tail,
               Forall (fun ev => is_post_eval ev = false) tail ->
               length (List.filter is_send tail) <= 1 ->
               Forall (fun ev => is_post_eval ev = false) (evs ++ tail)
               /\ length (List.filter is_send (evs ++ tail)) <= 1) as Hrest.
    { intros tail H1 H2. split; [apply Forall_app; split; assumption |].
      rewrite List.filter_app, Hsend. exact H2. }
    destruct (filter_cog env); cbn [andb];
      norm_app;
      match goal with
      | |- context [channel_send env ?t ?s] =>
          destruct (channel_send env t s) as [response | e] eqn:Hsend'
      end;
      cbv beta iota;
      (split; [reflexivity |]);
      norm_app;
      rewrite calls_since_app;
      eexists; (split; [reflexivity |]);
      (split; [intros ? [=] |]); intros _;
      eexists; (split; [reflexivity |]);
      match goal with
      | |- Forall _ (evs ++ ?tail) /\ _ =>
          destruct (Hrest tail) as [Hr1 Hr2];
          [repeat constructor | cbn; lia |]
      end;
      (split; [exact Hr1 |]); (split; [exact Hr2 |]);
      (split; [intros ? [=] |]).
    + intros response' [= <-].
      eexists (evs ++ [_; _]), _. split; [norm_app; reflexivity |].
      norm_app. exact Hsend'.
    + intros response' [=].
    + intros response' [= <-].
      eexists (evs ++ [_]), _. split; [norm_app; reflexivity |].
      norm_app. exact Hsend'.
    + intros response' [=].
  - rewrite H. split; [reflexivity |]. eexists.
    split; [norm_app; apply calls_since_app |].
    split; [intros ? [=] |]. intros _. exists [].
    split; [reflexivity |]. split; [constructor |].
    split; [simpl; lia |]. split; [intros e' [= <-]; auto | intros ? [=]].
Qed.

Lemma send_eval_one_request_witness :
  let '(r, w') := send_eval Scenario.alice (u "print(2+2)") None format_output
                            Scenario.quiet Scenario.idle in
  jobs w' = jobs Scenario.idle
  /\ exists rest,
       calls_since Scenario.idle w' = EvTyping :: EvPostEval (u "print(2+2)") None :: rest
       /\ Forall (fun ev => is_post_eval ev = false) rest.
Proof.
  pose proof (send_eval_one_request Scenario.alice (u "print(2+2)") None format_output
                Scenario.quiet Scenario.idle format_output_paste_only) as H.
  destruct (send_eval Scenario.alice (u "print(2+2)") None format_output
                      Scenario.quiet Scenario.idle) as [r w'].
  destruct H as (Hjobs & after & Hcalls & _ & Hrest).
  destruct (Hrest eq_refl) as (rest & -> & Hrest' & _).
  split; [exact Hjobs |]. exists rest. split; [exact Hcalls | exact Hrest'].
Defined.

(** X11: when the results carry an error text (no return code with an
    output that is not blank, or return code 255), the formatter plays no
    part: [send_eval] does the same whatever formatter it is given,
    nothing goes to the paste service, and the message has the error
    text as its body and no link. *)
Theorem send_eval_error_skips_formatter
        (ctx : Context) (code : str) (args : option (list str))
        (f g : FormatFunc) (env : Env) (w : World) (results : Results) :
  eval_service env (trace w ++ [EvTyping]) code args = Ok results ->
  snd (get_results_message results) <> [] ->
  send_eval ctx code args f env w = send_eval ctx code args g env w
  /\ Forall (fun ev => is_paste ev = false)
            (calls_since w (snd (send_eval ctx code args f env w)))
  /\ Forall (fun ev =>
               let message :=
                 eval_message ctx results (snd (get_results_message results)) None in
               match ev with
               | EvFilter text => text = message
               | EvSend text => text = message \/ text = FILTER_NOTICE
               | _ => True
               end)
            (calls_since w (snd (send_eval ctx code args f env w))).
Proof.
  intros Hres Herr.
  assert (forall h : FormatFunc,
             send_eval ctx code args h env w =
               let text := eval_message ctx results (snd (get_results_message results)) None in
               let stat := if bool_decide (get_status_emoji results = u ":x:")
                           then u "snekbox.python.fail" else u "snekbox.python.success" in
               let t2 := trace w ++ [EvTyping; EvPostEval code args; EvStat stat] in
               let t3 := if filter_cog env then t2 ++ [EvFilter text] else t2 in
               let sent := if filter_cog env && filter_eval env t2 text
                           then FILTER_NOTICE else text in
               match typing env (trace w) with
               | Raise e => (Raise e, MkWorld (jobs w) (trace w ++ [EvTyping]))
               | Ok _ =>
                   match channel_send env t3 sent with
                   | Ok response =>
                       (Ok response,
                        MkWorld (jobs w)
                                (t3 ++ [EvSend sent; EvWaitForDeletion (msg_id response)]))
                   | Raise e => (Raise e, MkWorld (jobs w) (t3 ++ [EvSend sent]))
                   end
               end) as Hshape.
  { intros h.
    unfold send_eval, ctx_typing, post_eval, stats_incr, ctx_send, eval_message.
    unfold mbind, M_bind, mret, M_ret, bind, ret, call, call_raising.
    cbn [trace jobs].
    destruct (typing env (trace w)) as [[] | e]; [| reflexivity].
    cbn [trace jobs]. rewrite Hres.
    destruct (get_results_message results) as [msg error]. cbn [fst snd] in *.
    destruct error as [| c error]; [congruence |]. cbn [is_empty].
    cbv zeta. unfold FILTER_NOTICE. send_eval_steps; reflexivity. }
  split; [rewrite (Hshape f), (Hshape g); reflexivity |].
  rewrite (Hshape f). cbv zeta.
  destruct (typing env (trace w)) as [[] | e].
  2: { cbn [snd]. rewrite calls_since_app. split; repeat constructor. }
  destruct (filter_cog env); cbn [andb]; norm_app;
    try match goal with
        | |- context [filter_eval env ?t ?s] => destruct (filter_eval env t s)
        end;
    match goal with
    | |- context [channel_send env ?t ?s] => destruct (channel_send env t s)
    end;
    cbn [snd]; norm_app; rewrite calls_since_app;
    split; repeat first [ left; reflexivity | right; reflexivity | constructor ].
Qed.

Lemma send_eval_error_skips_formatter_witness :
  send_eval Scenario.alice (u "print(1)") None format_output
            Scenario.crashed Scenario.idle
  = send_eval Scenario.alice (u "print(1)") None format_timeit_output
              Scenario.crashed Scenario.idle.
Proof.
  apply (send_eval_error_skips_formatter Scenario.alice (u "print(1)") None
           format_output format_timeit_output Scenario.crashed Scenario.idle
           (MkResults (u "```") None));
    [reflexivity | vm_compute; discriminate].
Defined.

(** X12: when the filter cog is loaded and its check fires, the only text
    that [send_eval] sends to the channel is the fixed notice: the
    message with the result is not sent. *)
Theorem send_eval_filter_triggered
        (ctx : Context) (code : str) (args : option (list str))
        (f : FormatFunc) (env : Env) (w : World) :
  paste_only f ->
  filter_cog env = true ->
  (forall h text, filter_eval env h text = true) ->
  Forall (fun ev => match ev with
                    | EvSend text => text = FILTER_NOTICE
                    | _ => True
                    end)
         (calls_since w (snd (send_eval ctx code args f env w))).
Proof.
  intros Hf Hcog Hfire.
  pose proof (send_eval_shape ctx code args f env w Hf) as H. cbv zeta in H.
  destruct (typing env (trace w)) as [[] | e0].
  2: { rewrite H. cbn [snd]. rewrite calls_since_app. repeat constructor. }
  destruct (eval_service env (trace w ++ [EvTyping]) code args) as [results | e].
  - destruct H as (evs & output & link & Hevs & _ & ->).
    rewrite Hcog, Hfire. cbn [andb].
    assert (Forall (fun ev => match ev with
                              | EvSend text => text = FILTER_NOTICE
                              | _ => True
                              end) evs) as Hevs'.
    { eapply Forall_impl; [exact Hevs |]. intros [] Hev; try discriminate Hev. exact I. }
    match goal with
    | |- context [channel_send env ?t ?s] => destruct (channel_send env t s)
    end;
      cbn [snd]; norm_app; rewrite calls_since_app;
      constructor; try exact I; constructor; try exact I;
      apply Forall_app; (split; [exact Hevs' |]); repeat constructor.
  - rewrite H. cbn [snd]. norm_app. rewrite calls_since_app. repeat constructor.
Qed.

Lemma send_eval_filter_triggered_witness :
  Forall (fun ev => match ev with
                    | EvSend text => text = FILTER_NOTICE
                    | _ => True
                    end)
         (calls_since Scenario.idle
            (snd (send_eval Scenario.alice (u "print(1)") None format_output
                            Scenario.filtered Scenario.idle))).
Proof.
  apply (send_eval_filter_triggered Scenario.alice (u "print(1)") None format_output
           Scenario.filtered Scenario.idle format_output_paste_only);
    reflexivity.
Defined.

Lemma status_is_cross (results : Results) :
  bool_decide (get_status_emoji results = u ":x:")
  = negb (is_empty (strip (stdout results)))
    && negb (bool_decide (returncode results = Some 0%Z)).
Proof.
  unfold get_status_emoji.
  destruct (is_empty (strip (stdout results))); [reflexivity |].
  destruct (returncode results) as [[| p | p] |]; reflexivity.
Qed.

(** X13: when the typing indicator is accepted and the evaluation service
    answers, [send_eval] counts one statistic: a failure when the output
    is not blank and the return code is not 0, a success in every other
    case, a failed job with a blank output included. *)
Theorem send_eval_stats
        (ctx : Context) (code : str) (args : option (list str))
        (f : FormatFunc) (env : Env) (w : World) (results : Results) :
  paste_only f ->
  typing env (trace w) = Ok tt ->
  eval_service env (trace w ++ [EvTyping]) code args = Ok results ->
  List.filter is_stat (calls_since w (snd (send_eval ctx code args f env w)))
  = [EvStat (if negb (is_empty (strip (stdout results)))
                && negb (bool_decide (returncode results = Some 0%Z))
             then u "snekbox.python.fail"
             else u "snekbox.python.success")].
Proof.
  intros Hf Htyping Hres.
  pose proof (send_eval_shape ctx code args f env w Hf) as H. cbv zeta in H.
  rewrite Htyping, Hres in H. destruct H as (evs & output & link & Hevs & _ & ->).
  destruct (paste_events evs Hevs) as (_ & _ & Hstat).
  rewrite status_is_cross.
  destruct (filter_cog env); cbn [andb]; norm_app;
    match goal with
    | |- context [channel_send env ?t ?s] => destruct (channel_send env t s)
    end;
    cbn [snd]; norm_app; rewrite calls_since_app;
    cbn [List.filter is_stat]; rewrite List.filter_app, Hstat; reflexivity.
Qed.

Lemma send_eval_stats_witness :
  List.filter is_stat
    (calls_since Scenario.idle
       (snd (send_eval Scenario.alice (u "print(1)") None format_output
                       Scenario.crashed Scenario.idle)))
  = [EvStat (u "snekbox.python.fail")].
Proof.
  apply (send_eval_stats Scenario.alice (u "print(1)") None format_output
           Scenario.crashed Scenario.idle (MkResults (u "```") None)
           format_output_paste_only);
    reflexivity.
Defined.

(** ** The wait for a re-evaluation *)

Lemma prepare_input_returns (text : str) : exists code, prepare_input text = Some code.
Proof. rewrite prepare_input_cases. eauto. Qed.


Ltac norm_hyps :=
  repeat match goal with
         | H : context [(_ ++ _) ++ _] |- _ => rewrite <- app_assoc in H; cbn [app] in H
         end.

Ltac explode :=
  repeat (norm_app;
          match goal with
          | |- context [match ?x with _ => _ end] =>
              lazymatch x with
              | context [match _ with _ => _ end] => fail
              | _ => destruct x eqn:?
              end
          end; cbn [fst snd jobs trace is_NotFound is_TimeoutError is_http]).

(** X14: [continue_eval] hands out code, deletes the response or looks at
    the edited message only after the author has changed the content of
    the message of the command and has put the re-evaluation reaction on
    that message. *)
Theorem continue_eval_needs_confirmation
        (ctx : Context) (response : Message) (env : Env) (w : World) :
  let '(r, w') := continue_eval ctx response env w in
  ((exists code, r = Ok (Some code)) -> confirmed ctx env w)
  /\ (In (EvDelete (msg_id response)) (calls_since w w') -> confirmed ctx env w)
  /\ (forall m, In (EvGetContext m) (calls_since w w') -> confirmed ctx env w).
Proof.
  assert (forall x y,
             List.find (fun e => predicate_eval_message_edit ctx (fst e) (snd e))
                       (message_edit env (trace w)) = Some x ->
             List.find (predicate_eval_emoji_reaction ctx)
                       (reaction_add env (trace w ++ [EvWaitEdit; EvAddReaction])) = Some y ->
             confirmed ctx env w) as Hconf.
  { intros x y Hx Hy. apply find_some in Hx, Hy. split; eauto. }
  unfold continue_eval, wait_for_message_edit, wait_for_reaction_add, get_code.
  unfold mbind, M_bind, mret, M_ret, bind, ret, raise, call, call_raising, catch.
  cbn [jobs trace].
  explode; norm_hyps;
    rewrite ?calls_since_app;
    (split; [intros [? Hp] | split; [intros Hp | intros ? Hp]]);
    first [ discriminate Hp
          | eapply Hconf; first [eassumption | reflexivity]
          | exfalso; cbn in Hp; intuition discriminate ].
Qed.

(** ** The code of an edited message *)

Lemma split_once_two (ws word sep : str) (c : char) (arg : str) :
  forallb isspace ws = true -> is_word word ->
  sep <> [] -> forallb isspace sep = true -> isspace c = false ->
  split_once (ws ++ word ++ sep ++ c :: arg) = [word; c :: arg].
Proof.
  intros Hws [Hne Hword] Hsne Hsep Hc. unfold split_once.
  rewrite lstrip_all by exact Hws.
  destruct word as [| x word]; [congruence |].
  cbn [forallb] in Hword. apply andb_prop in Hword as [Hx Hword].
  apply negb_true_iff in Hx. cbn [app lstrip]. rewrite Hx.
  destruct sep as [| y sep]; [congruence |].
  cbn [forallb] in Hsep. apply andb_prop in Hsep as [Hy Hsep].
  change (x :: word ++ (y :: sep) ++ c :: arg)
    with ((x :: word) ++ y :: (sep ++ c :: arg)).
  rewrite take_while_app;
    [| cbn [forallb]; rewrite Hx, Hword; reflexivity | rewrite Hy; reflexivity].
  rewrite drop_app_length. cbn [lstrip]. rewrite Hy.
  rewrite lstrip_all by exact Hsep. cbn [lstrip]. rewrite Hc. reflexivity.
Qed.

Lemma split_once_one (ws word ws' : str) :
  forallb isspace ws = true -> is_word word -> forallb isspace ws' = true ->
  split_once (ws ++ word ++ ws') = [word].
Proof.
  intros Hws [Hne Hword] Hws'. unfold split_once.
  rewrite lstrip_all by exact Hws.
  destruct word as [| x word]; [congruence |].
  cbn [forallb] in Hword. apply andb_prop in Hword as [Hx Hword].
  apply negb_true_iff in Hx. cbn [app lstrip]. rewrite Hx.
  assert (take_while (fun c => negb (isspace c)) (x :: word ++ ws') = x :: word) as ->.
  { destruct ws' as [| y ws'].
    - rewrite app_nil_r. cbn [take_while]. rewrite Hx. cbn [negb]. f_equal.
      clear -Hword. induction word as [| a word IH]; [reflexivity |].
      cbn [forallb] in Hword. apply andb_prop in Hword as [Ha Hword].
      cbn [take_while]. rewrite Ha, (IH Hword). reflexivity.
    - cbn [forallb] in Hws'. apply andb_prop in Hws' as [Hy _].
      change (x :: word ++ y :: ws') with ((x :: word) ++ y :: ws').
      apply take_while_app; [cbn [forallb]; rewrite Hx, Hword | rewrite Hy]; reflexivity. }
  change (x :: word ++ ws') with ((x :: word) ++ ws').
  rewrite drop_app_length.
  rewrite <- (app_nil_r ws'), lstrip_all by exact Hws'. reflexivity.
Qed.

(** X16: [get_code] asks for the context of the message once.  For a
    message that does not invoke the command it gives the whole content.
    For one that does, it gives what follows the first word and the
    whitespace after it, up to the end of the content, trailing whitespace
    included; and it gives [None] when the content is one word only. *)
Theorem get_code_cases (message : Message) (env : Env) (w : World) :
  let invoked := invokes_command env (trace w) message in
  let w' := MkWorld (jobs w) (trace w ++ [EvGetContext (msg_id message)]) in
  (invoked = false -> get_code message env w = (Ok (Some (content message)), w'))
  /\ (forall ws word sep c arg,
         invoked = true ->
         content message = ws ++ word ++ sep ++ c :: arg ->
         forallb isspace ws = true -> is_word word ->
         sep <> [] -> forallb isspace sep = true -> isspace c = false ->
         get_code message env w = (Ok (Some (c :: arg)), w'))
  /\ (forall ws word ws',
         invoked = true ->
         content message = ws ++ word ++ ws' ->
         forallb isspace ws = true -> is_word word -> forallb isspace ws' = true ->
         get_code message env w = (Ok None, w'))
  /\ (invoked = true -> forallb isspace (content message) = true ->
      get_code message env w = (Ok None, w')).
Proof.
  intros invoked w'. unfold get_code.
  unfold mbind, M_bind, mret, M_ret, bind, ret, call. cbn [jobs trace].
  fold invoked. fold w'.
  split; [intros ->; reflexivity |].
  split; [| split].
  - intros ws word sep c arg -> Hcontent Hws Hword Hne Hsep Hc.
    rewrite Hcontent, split_once_two by assumption. reflexivity.
  - intros ws word ws' -> Hcontent Hws Hword Hws'.
    rewrite Hcontent, split_once_one by assumption. reflexivity.
  - intros -> Hblank. unfold split_once.
    rewrite <- (app_nil_r (content message)), lstrip_all by exact Hblank.
    reflexivity.
Qed.

Lemma get_code_cases_witness :
  get_code (MkMessage 1%Z (u "!eval  print(1) ")) Scenario.quiet Scenario.idle
  = (Ok (Some (u "print(1) ")), MkWorld ∅ [EvGetContext 1%Z]).
Proof.
  refine (proj1 (proj2 (get_code_cases (MkMessage 1%Z (u "!eval  print(1) "))
                          Scenario.quiet Scenario.idle))
            [] (u "!eval") (u "  ") 112%N (u "rint(1) ") _ _ _ _ _ _ _);
    try reflexivity; try discriminate.
  split; [discriminate | reflexivity].
Defined.

Lemma continue_eval_confirmed_flow
      (ctx : Context) (response new_message : Message) (env : Env) (w : World) :
  confirms ctx env w new_message ->
  let t := trace w ++ [EvWaitEdit; EvAddReaction; EvWaitReaction] in
  let code :=
    if invokes_command env t new_message
    then match split_once (content new_message) with
         | _ :: c :: _ => Some c
         | _ => None
         end
    else Some (content new_message) in
  let t' := t ++ [EvGetContext (msg_id new_message); EvClearReaction;
                  EvDelete (msg_id response)] in
  let deleted :=
    delete_message env (t ++ [EvGetContext (msg_id new_message); EvClearReaction])
                   (msg_id response) in
  continue_eval ctx response env w =
    (match deleted with
     | Raise e =>
         if is_http e
         then match code with
              | Some c => match prepare_input c with
                          | Some c' => Ok (Some c')
                          | None => Raise TypeError
                          end
              | None => Raise TypeError
              end
         else if is_TimeoutError e then Ok None else Raise e
     | Ok _ =>
         match code with
         | Some c => match prepare_input c with
                     | Some c' => Ok (Some c')
                     | None => Raise TypeError
                     end
         | None => Raise TypeError
         end
     end,
     MkWorld (jobs w)
             (match deleted with
              | Raise e => if is_http e then t'
                           else if is_TimeoutError e then t' ++ [EvClearReaction] else t'
              | Ok _ => t'
              end)).
Proof.
  intros ([old Hedit] & Hadd & Hclear & Hreact). cbv zeta.
  unfold continue_eval, wait_for_message_edit, wait_for_reaction_add, get_code.
  unfold mbind, M_bind, mret, M_ret, bind, ret, raise, call, call_raising, catch.
  cbn [jobs trace]. rewrite Hedit. cbn [jobs trace]. rewrite Hadd. cbn [jobs trace].
  destruct (Hreact ((trace w ++ [EvWaitEdit]) ++ [EvAddReaction])) as [r ->].
  cbn [jobs trace]. norm_app.
  destruct (invokes_command env _ new_message).
  - destruct (split_once (content new_message)) as [| a [| c l]];
      cbn [jobs trace]; rewrite Hclear; cbn [jobs trace]; norm_app;
      (destruct (delete_message env _ (msg_id response)) as [[] | e];
       [| destruct e]); cbn [is_http is_TimeoutError is_NotFound jobs trace];
      rewrite ?Hclear; cbn [jobs trace]; norm_app;
      try destruct (prepare_input c); reflexivity.
  - cbn [jobs trace]; rewrite Hclear; cbn [jobs trace]; norm_app;
      (destruct (delete_message env _ (msg_id response)) as [[] | e];
       [| destruct e]); cbn [is_http is_TimeoutError is_NotFound jobs trace];
      rewrite ?Hclear; cbn [jobs trace]; norm_app;
      try destruct (prepare_input (content new_message)); reflexivity.
Qed.

(** X17: after a confirmed edit to a message that does not invoke the
    command, [continue_eval] returns the code that [prepare_input]
    extracts from the whole new content.  On the way it waits for the
    edit, adds the reaction, waits for the reaction, asks for the context
    of the new message, clears the reaction and deletes the response, in
    that order; a delete that fails with an HTTP error changes nothing. *)
Theorem continue_eval_new_code
        (ctx : Context) (response new_message : Message) (env : Env) (w : World) :
  confirms ctx env w new_message ->
  delete_fails_softly env ->
  (forall h, invokes_command env h new_message = false) ->
  exists code,
    prepare_input (content new_message) = Some code
    /\ continue_eval ctx response env w
       = (Ok (Some code),
          MkWorld (jobs w) (trace w ++ CONFIRMED_CALLS response new_message)).
Proof.
  intros Hconf Hdel Hinv.
  rewrite (continue_eval_confirmed_flow ctx response new_message env w Hconf).
  cbv zeta. rewrite Hinv.
  destruct (prepare_input_returns (content new_message)) as [code Hcode].
  exists code. split; [exact Hcode |]. rewrite Hcode. unfold CONFIRMED_CALLS.
  destruct (delete_message env _ (msg_id response)) as [[] | e] eqn:Hd;
    [| rewrite (Hdel _ _ _ Hd)]; norm_app; reflexivity.
Qed.

(** X18: after a confirmed edit to a message that invokes the command and
    holds nothing but the command word, [continue_eval] deletes the
    response and then raises [TypeError]: there is no code, and
    [prepare_input] is handed [None]. *)
Theorem continue_eval_bare_command
        (ctx : Context) (response new_message : Message) (env : Env) (w : World)
        (ws word ws' : str) :
  confirms ctx env w new_message ->
  delete_fails_softly env ->
  (forall h, invokes_command env h new_message = true) ->
  content new_message = ws ++ word ++ ws' ->
  forallb isspace ws = true -> is_word word -> forallb isspace ws' = true ->
  continue_eval ctx response env w
  = (Raise TypeError,
     MkWorld (jobs w) (trace w ++ CONFIRMED_CALLS response new_message)).
Proof.
  intros Hconf Hdel Hinv Hcontent Hws Hword Hws'.
  rewrite (continue_eval_confirmed_flow ctx response new_message env w Hconf).
  cbv zeta. rewrite Hinv, Hcontent, split_once_one by assumption.
  unfold CONFIRMED_CALLS.
  destruct (delete_message env _ (msg_id response)) as [[] | e] eqn:Hd;
    [| rewrite (Hdel _ _ _ Hd)]; norm_app; reflexivity.
Qed.

Lemma continue_eval_new_code_witness :
  exists code,
    prepare_input (u "`print(3)`") = Some code
    /\ continue_eval Scenario.alice (MkMessage 2%Z [])
                     (Scenario.rewrites_to (u "`print(3)`")) Scenario.idle
       = (Ok (Some code),
          MkWorld ∅ (CONFIRMED_CALLS (MkMessage 2%Z []) (MkMessage 1%Z (u "`print(3)`")))).
Proof.
  apply (continue_eval_new_code Scenario.alice (MkMessage 2%Z [])
           (MkMessage 1%Z (u "`print(3)`"))
           (Scenario.rewrites_to (u "`print(3)`")) Scenario.idle).
  - split; [eexists; vm_compute; reflexivity |].
    split; [reflexivity |]. split; [reflexivity |].
    intros h. eexists. vm_compute. reflexivity.
  - intros h id e H. discriminate H.
  - reflexivity.
Defined.

Lemma continue_eval_bare_command_witness :
  continue_eval Scenario.alice (MkMessage 2%Z [])
                (Scenario.edits_to (u "!eval ")) Scenario.idle
  = (Raise TypeError,
     MkWorld ∅ (CONFIRMED_CALLS (MkMessage 2%Z []) (MkMessage 1%Z (u "!eval ")))).
Proof.
  apply (continue_eval_bare_command Scenario.alice (MkMessage 2%Z [])
           (MkMessage 1%Z (u "!eval "))
           (Scenario.edits_to (u "!eval ")) Scenario.idle
           [] (u "!eval") (u " ")).
  - split; [eexists; vm_compute; reflexivity |].
    split; [reflexivity |]. split; [reflexivity |].
    intros h. eexists. vm_compute. reflexivity.
  - intros h id e H. discriminate H.
  - reflexivity.
  - reflexivity.
  - reflexivity.
  - split; [discriminate | reflexivity].
  - reflexivity.
Defined.

(** X15: when no edit of the message arrives in time, or the edit arrives
    and the reaction does not, [continue_eval] clears the reaction and
    returns [None]; the response stays.  The reaction is cleared even
    when none was added. *)
Theorem continue_eval_timeout
        (ctx : Context) (response : Message) (env : Env) (w : World) :
  (forall h, add_reaction env h = Ok tt) ->
  (forall h, clear_reaction env h = Ok tt) ->
  let edit := List.find (fun e => predicate_eval_message_edit ctx (fst e) (snd e))
                        (message_edit env (trace w)) in
  let reaction := List.find (predicate_eval_emoji_reaction ctx)
                            (reaction_add env (trace w ++ [EvWaitEdit; EvAddReaction])) in
  (edit = None ->
   continue_eval ctx response env w
   = (Ok None, MkWorld (jobs w) (trace w ++ [EvWaitEdit; EvClearReaction])))
  /\ (edit <> None -> reaction = None ->
      continue_eval ctx response env w
      = (Ok None,
         MkWorld (jobs w)
                 (trace w ++ [EvWaitEdit; EvAddReaction; EvWaitReaction; EvClearReaction]))).
Proof.
  intros Hadd Hclear edit reaction.
  unfold continue_eval, wait_for_message_edit, wait_for_reaction_add, get_code.
  unfold mbind, M_bind, mret, M_ret, bind, ret, raise, call, call_raising, catch.
  cbn [jobs trace]. fold edit. split.
  - intros ->. cbn [is_TimeoutError jobs trace]. rewrite Hclear.
    cbn [jobs trace]. norm_app. reflexivity.
  - intros Hedit Hreact. destruct edit as [[old new] |]; [| congruence].
    cbn [jobs trace]. rewrite Hadd. cbn [jobs trace]. norm_app.
    fold reaction. rewrite Hreact. cbn [is_TimeoutError jobs trace].
    rewrite Hclear. cbn [jobs trace]. norm_app. reflexivity.
Qed.

Lemma continue_eval_timeout_witness :
  continue_eval Scenario.alice (MkMessage 2%Z []) Scenario.quiet Scenario.idle
  = (Ok None, MkWorld ∅ [EvWaitEdit; EvClearReaction]).
Proof.
  apply (proj1 (continue_eval_timeout Scenario.alice (MkMessage 2%Z [])
                  Scenario.quiet Scenario.idle
                  (fun _ => eq_refl) (fun _ => eq_refl))).
  reflexivity.
Defined.

(** ** The session as a whole *)

Lemma filter_no_request (evs : list Event) :
  Forall (fun ev => is_post_eval ev = false) evs -> List.filter is_post_eval evs = [].
Proof.
  induction 1 as [| ev evs Hev _ IH]; [reflexivity |].
  cbn [List.filter]. rewrite Hev. exact IH.
Qed.

Lemma no_request_with (args : option (list str)) (evs : list Event) :
  Forall (fun ev => is_post_eval ev = false) evs -> Forall (request_with args) evs.
Proof.
  intros H. eapply Forall_impl; [exact H |].
  intros [] Hev; try exact I. discriminate Hev.
Qed.

(** The calls of one attempt after the typing indicator: none when the
    indicator was refused, and else the request and calls that are no
    requests. *)
Lemma send_eval_frame (ctx : Context) (code : str) (args : option (list str))
      (f : FormatFunc) (env : Env) (w : World) :
  paste_only f ->
  exists r rest,
    send_eval ctx code args f env w
    = (r, MkWorld (jobs w) (trace w ++ EvTyping :: rest))
    /\ match typing env (trace w) with
       | Raise e => r = Raise e /\ rest = []
       | Ok _ => exists rest', rest = EvPostEval code args :: rest'
                               /\ Forall (fun ev => is_post_eval ev = false) rest'
       end.
Proof.
  intros Hf. pose proof (send_eval_shape ctx code args f env w Hf) as H.
  cbv zeta in H.
  destruct (typing env (trace w)) as [[] | e0].
  2: { rewrite H. eexists _, []. split; [reflexivity | auto]. }
  destruct (eval_service env (trace w ++ [EvTyping]) code args) as [results | e].
  - destruct H as (evs & output & link & Hevs & _ & ->).
    destruct (paste_events evs Hevs) as (Hpost & _ & _).
    destruct (filter_cog env); cbn [andb]; norm_app;
      match goal with
      | |- context [channel_send env ?t ?s] => destruct (channel_send env t s)
      end;
      norm_app; eexists _, _; (split; [reflexivity |]);
      eexists; (split; [reflexivity |]);
      apply Forall_app; (split; [exact Hpost |]); repeat constructor.
  - rewrite H. norm_app. eexists _, _. split; [reflexivity |].
    exists []. split; [reflexivity | constructor].
Qed.

Lemma attempt_frame (ctx : Context) (code : str) (args : option (list str))
      (f : FormatFunc) (env : Env) (w : World) :
  paste_only f ->
  jobs w !! author_id ctx = None ->
  exists r rest,
    attempt ctx code args f env w
    = (r, MkWorld (jobs w) (trace w ++ EvTyping :: rest))
    /\ match typing env (trace w) with
       | Raise e => r = Raise e /\ rest = []
       | Ok _ => exists rest', rest = EvPostEval code args :: rest'
                               /\ Forall (fun ev => is_post_eval ev = false) rest'
       end.
Proof.
  intros Hf Hfree. rewrite attempt_unfold. cbv zeta.
  destruct (send_eval_frame ctx code args f env
              (snd (jobs_set (author_id ctx) env w)) Hf) as (r & rest & Heq & Hrest).
  rewrite Heq. cbn [jobs_set snd jobs trace] in *.
  rewrite lookup_insert_eq. exists r, rest. split; [| exact Hrest].
  rewrite delete_insert_id by exact Hfree. reflexivity.
Qed.

(** What an attempt adds to the requests: one at most, with the
    arguments of the session. *)
Lemma attempt_calls (code : str) (args : option (list str)) (env : Env) (h : list Event)
      (A : Type) (r : Result A) (rest : list Event) :
  match typing env h with
  | Raise e => r = Raise e /\ rest = []
  | Ok _ => exists rest', rest = EvPostEval code args :: rest'
                          /\ Forall (fun ev => is_post_eval ev = false) rest'
  end ->
  Forall (request_with args) (EvTyping :: rest)
  /\ length (List.filter is_post_eval (EvTyping :: rest)) <= 1.
Proof.
  intros H. destruct (typing env h) as [[] | e].
  - destruct H as (rest' & -> & Hrest). split.
    + constructor; [exact I |]. constructor; [reflexivity |].
      apply no_request_with, Hrest.
    + cbn [List.filter is_post_eval]. rewrite (filter_no_request rest' Hrest).
      simpl. lia.
  - destruct H as [_ ->]. split; [repeat constructor | simpl; lia].
Qed.

Lemma eval_loop_inv (rounds : nat) (ctx : Context) (args : option (list str))
      (f : FormatFunc) (env : Env) :
  paste_only f ->
  forall (code : str) (w : World),
    jobs w !! author_id ctx = None ->
    exists r evs,
      eval_loop rounds ctx code args f env w = (r, MkWorld (jobs w) (trace w ++ evs))
      /\ Forall (request_with args) evs
      /\ length (List.filter is_post_eval evs) <= rounds
      /\ (0 < rounds ->
          exists rest,
            evs = EvTyping :: rest
            /\ match typing env (trace w) with
               | Raise e => r = Raise e /\ rest = []
               | Ok _ => exists rest', rest = EvPostEval code args :: rest'
               end).
Proof.
  intros Hf. induction rounds as [| rounds IH]; intros code w Hfree.
  - exists (Ok Looping), []. rewrite app_nil_r.
    split; [destruct w; reflexivity |]. split; [constructor |].
    split; [simpl; lia | lia].
  - cbn [eval_loop]. unfold mbind at 1, M_bind at 1, bind at 1.
    destruct (attempt_frame ctx code args f env w Hf Hfree) as (r & rest & -> & Hty).
    destruct (attempt_calls code args env (trace w) _ r rest Hty) as [Hrest Hone].
    destruct r as [response | e].
    + assert (exists rest', rest = EvPostEval code args :: rest') as [rest' Hrest'].
      { destruct (typing env (trace w)) as [[] | e0].
        - destruct Hty as (rest' & -> & _). eauto.
        - destruct Hty as [[=] _]. }
      unfold mbind at 1, M_bind at 1, bind at 1.
      pose proof (continue_eval_quiet ctx response env
                    (MkWorld (jobs w) (trace w ++ EvTyping :: rest)))
        as [Hjobs (evs & Htrace & Hevs)].
      destruct (continue_eval ctx response env _) as [r' w'].
      cbn [snd jobs trace] in Hjobs, Htrace.
      assert (w' = MkWorld (jobs w) (trace w ++ (EvTyping :: rest) ++ evs))
        as -> by (destruct w'; cbn [jobs trace app] in *; rewrite <- app_assoc in Htrace;
                  cbn [app] in Htrace; congruence).
      pose proof (no_request_with args evs Hevs) as Hevs'.
      pose proof (filter_no_request evs Hevs) as Hnone'.
      assert (forall r0 : Result progress,
                 match typing env (trace w) with
                 | Raise e => r0 = Raise e /\ rest ++ evs = []
                 | Ok _ => exists rest'0, rest ++ evs = EvPostEval code args :: rest'0
                 end) as Hfirst.
      { intros r0. destruct (typing env (trace w)) as [[] | e0].
        - rewrite Hrest'. eexists. reflexivity.
        - destruct Hty as [[=] _]. }
      destruct r' as [[[| c l] |] | e];
        try (eexists _, ((EvTyping :: rest) ++ evs); split; [reflexivity |];
             split; [apply Forall_app; split; assumption |];
             split; [rewrite List.filter_app, Hnone', app_nil_r; lia |];
             intros _; exists (rest ++ evs); split; [reflexivity | apply Hfirst]).
      destruct (IH (c :: l)
                   (MkWorld (jobs w) (trace w ++ (EvTyping :: rest) ++ evs)) Hfree)
        as (r2 & evs2 & Heq2 & Hall2 & Hlen2 & _).
      rewrite Heq2. cbn [jobs trace].
      exists r2, ((EvTyping :: rest) ++ evs ++ evs2).
      split; [rewrite <- !app_assoc; reflexivity |].
      split; [rewrite !Forall_app; auto |].
      split.
      * rewrite !List.filter_app, Hnone'. cbn [app]. rewrite length_app. lia.
      * intros _. exists (rest ++ evs ++ evs2). split; [reflexivity |].
        destruct (typing env (trace w)) as [[] | e0].
        -- rewrite Hrest'. eexists. reflexivity.
        -- destruct Hty as [[=] _].
    + exists (Raise e), (EvTyping :: rest). split; [reflexivity |].
      split; [exact Hrest |]. split; [lia |].
      intros _. exists rest. split; [reflexivity |].
      destruct (typing env (trace w)) as [[] | e0].
      * destruct Hty as (rest' & -> & _). eauto.
      * destruct Hty as [[= ->] ->]. auto.
Qed.

Lemma run_eval_frame (rounds : nat) (ctx : Context) (code : str) (f : FormatFunc)
      (args : option (list str)) (env : Env) (w : World) :
  paste_only f ->
  exists r evs,
    run_eval rounds ctx code f args env w = (r, MkWorld (jobs w) (trace w ++ evs))
    /\ Forall (request_with args) evs
    /\ length (List.filter is_post_eval evs) <= rounds
    /\ (jobs w !! author_id ctx = None -> 0 < rounds ->
        exists usage1 usage2 rest,
          evs = EvStat usage1 :: EvStat usage2 :: EvTyping :: rest
          /\ match typing env (trace w ++ [EvStat usage1; EvStat usage2]) with
             | Raise e => r = Raise e /\ rest = []
             | Ok _ => exists rest', rest = EvPostEval code args :: rest'
             end).
Proof.
  intros Hf. unfold run_eval.
  destruct (jobs w !! author_id ctx) as [t |] eqn:Hlook.
  - unfold ctx_send, mbind, M_bind, mret, M_ret, bind, ret, call_raising.
    destruct (channel_send env (trace w) (JOB_RUNNING_NOTICE ctx));
      (eexists _, [_]; split; [reflexivity |]; split; [repeat constructor |];
       split; [simpl; lia | discriminate]).
  - unfold stats_incr, mbind, M_bind, bind, call.
    destruct (bool_decide (Roles_helpers env ∈ author_roles ctx));
      destruct (bool_decide (channel_category_id ctx = Some (Categories_help_in_use env)));
      try destruct (bool_decide (channel_id ctx = Channels_bot_commands env));
      cbn [jobs trace]; norm_app;
      match goal with
      | |- context [eval_loop rounds ctx code args f env ?w2] =>
          destruct (eval_loop_inv rounds ctx args f env Hf code w2 Hlook)
            as (r & evs & Heq & Hall & Hlen & Hfirst);
          rewrite Heq
      end;
      cbn [jobs trace] in *; norm_app;
      (eexists r, (_ :: _ :: evs); split; [reflexivity |];
       split; [repeat (constructor; [exact I |]); exact Hall |];
       split; [cbn [List.filter is_post_eval]; exact Hlen |];
       intros _ Hpos; destruct (Hfirst Hpos) as (rest & -> & Hty);
       eexists _, _, rest; split; [reflexivity | exact Hty]).
Qed.

(** X19: a whole session of [run_eval], however many rounds it goes and
    whether it returns or raises, leaves the registry as it found it: no
    entry of the author stays behind.  Here the formatter is one that
    only talks to the paste service, as both formatters of the cog are. *)
Theorem run_eval_registry_restored
        (rounds : nat) (ctx : Context) (code : str) (f : FormatFunc)
        (args : option (list str)) (env : Env) (w : World) :
  paste_only f ->
  jobs (snd (run_eval rounds ctx code f args env w)) = jobs w.
Proof.
  intros Hf.
  destruct (run_eval_frame rounds ctx code f args env w Hf) as (r & evs & -> & _).
  reflexivity.
Qed.

Lemma run_eval_registry_restored_witness :
  jobs (snd (run_eval 3 Scenario.alice (u "print(2+2)") format_output None
                      (Scenario.edits_to (u "!eval print(3)")) Scenario.idle))
  = jobs Scenario.idle.
Proof.
  apply (run_eval_registry_restored 3 Scenario.alice (u "print(2+2)") format_output None
           (Scenario.edits_to (u "!eval print(3)")) Scenario.idle
           format_output_paste_only).
Defined.

(** X20: every request that a session of [run_eval] sends to the
    evaluation service carries the arguments that [run_eval] was given,
    in the first round and in every re-evaluation, and there is at most
    one request per round.  For an author without a running job the
    session starts with two usage statistics and then the typing
    indicator.  When the indicator is refused the session ends there with
    that failure, and no request is sent; when it is accepted the next
    call is the request for the code that [run_eval] was given. *)
Theorem run_eval_requests
        (rounds : nat) (ctx : Context) (code : str) (f : FormatFunc)
        (args : option (list str)) (env : Env) (w : World) :
  paste_only f ->
  let '(r, w') := run_eval rounds ctx code f args env w in
  let calls := calls_since w w' in
  Forall (request_with args) calls
  /\ length (List.filter is_post_eval calls) <= rounds
  /\ (jobs w !! author_id ctx = None -> 0 < rounds ->
      exists usage1 usage2 rest,
        calls = EvStat usage1 :: EvStat usage2 :: EvTyping :: rest
        /\ let h := trace w ++ [EvStat usage1; EvStat usage2] in
           (forall e, typing env h = Raise e -> r = Raise e /\ rest = [])
           /\ (typing env h = Ok tt ->
               exists rest', rest = EvPostEval code args :: rest')).
Proof.
  intros Hf.
  destruct (run_eval_frame rounds ctx code f args env w Hf)
    as (r & evs & -> & Hall & Hlen & Hfirst).
  cbv zeta. rewrite calls_since_app.
  split; [exact Hall |]. split; [exact Hlen |].
  intros Hfree Hpos.
  destruct (Hfirst Hfree Hpos) as (usage1 & usage2 & rest & -> & Hty).
  exists usage1, usage2, rest. split; [reflexivity |].
  destruct (typing env (trace w ++ [EvStat usage1; EvStat usage2])) as [[] | e0].
  - split; [intros e [=] | intros _; exact Hty].
  - split; [intros e [= <-]; exact Hty | intros [=]].
Qed.

Lemma run_eval_requests_witness :
  let '(r, w') := run_eval 3 Scenario.alice (u "print(2+2)") format_timeit_output
                           (Some [u "-m"; u "timeit"])
                           (Scenario.edits_to (u "!eval print(3)")) Scenario.idle in
  Forall (request_with (Some [u "-m"; u "timeit"])) (calls_since Scenario.idle w')
  /\ length (List.filter is_post_eval (calls_since Scenario.idle w')) <= 3.
Proof.
  pose proof (run_eval_requests 3 Scenario.alice (u "print(2+2)") format_timeit_output
                (Some [u "-m"; u "timeit"])
                (Scenario.edits_to (u "!eval print(3)")) Scenario.idle
                format_timeit_output_paste_only) as H.
  destruct (run_eval 3 Scenario.alice (u "print(2+2)") format_timeit_output
                     (Some [u "-m"; u "timeit"])
                     (Scenario.edits_to (u "!eval print(3)")) Scenario.idle) as [r w'].
  destruct H as (Hall & Hlen & _). split; [exact Hall | exact Hlen].
Defined.

(** ** The two commands *)

Lemma send_eval_ok (ctx : Context) (code : str) (args : option (list str))
      (f : FormatFunc) (env : Env) (w : World) :
  paste_only f -> answers env ->
  exists response rest,
    send_eval ctx code args f env w
    = (Ok response,
       MkWorld (jobs w) (trace w ++ EvTyping :: EvPostEval code args :: rest))
    /\ Forall (fun ev => is_post_eval ev = false) rest.
Proof.
  intros Hf (Htyping & Heval & Hsend).
  pose proof (send_eval_shape ctx code args f env w Hf) as H. cbv zeta in H.
  rewrite Htyping in H.
  destruct (Heval (trace w ++ [EvTyping]) code args) as [results Hres].
  rewrite Hres in H.
  destruct H as (evs & output & link & Hevs & _ & ->).
  destruct (paste_events evs Hevs) as (Hpost & _ & _).
  match goal with
  | |- context [channel_send env ?t ?s] =>
      destruct (Hsend t s) as [response ->]
  end.
  exists response.
  destruct (filter_cog env); norm_app;
    (eexists; split; [reflexivity |]);
    apply Forall_app; (split; [exact Hpost |]); repeat constructor.
Qed.

Lemma attempt_ok (ctx : Context) (code : str) (args : option (list str))
      (f : FormatFunc) (env : Env) (w : World) :
  paste_only f -> answers env ->
  jobs w !! author_id ctx = None ->
  exists response rest,
    attempt ctx code args f env w
    = (Ok response,
       MkWorld (jobs w) (trace w ++ EvTyping :: EvPostEval code args :: rest))
    /\ Forall (fun ev => is_post_eval ev = false) rest.
Proof.
  intros Hf Hans Hfree. rewrite attempt_unfold. cbv zeta.
  destruct (send_eval_ok ctx code args f env
              (snd (jobs_set (author_id ctx) env w)) Hf Hans)
    as (response & rest & Heq & Hrest).
  rewrite Heq. cbn [jobs_set snd jobs trace].
  rewrite lookup_insert_eq. exists response, rest. split; [| exact Hrest].
  rewrite delete_insert_id by exact Hfree. reflexivity.
Qed.

Lemma eval_loop_step (rounds : nat) (ctx : Context) (code : str)
      (args : option (list str)) (f : FormatFunc) (env : Env) (w w1 w2 : World)
      (response : Message) (c : char) (l : str) :
  attempt ctx code args f env w = (Ok response, w1) ->
  continue_eval ctx response env w1 = (Ok (Some (c :: l)), w2) ->
  eval_loop (S rounds) ctx code args f env w = eval_loop rounds ctx (c :: l) args f env w2.
Proof.
  intros Hatt Hcont. cbn [eval_loop].
  unfold mbind at 1, M_bind at 1, bind at 1. rewrite Hatt.
  unfold mbind at 1, M_bind at 1, bind at 1. rewrite Hcont. reflexivity.
Qed.

(** What [get_code] takes from the content of an edited message. *)
Lemma code_part_get (invokes : bool) (content part : str) :
  code_part invokes content part ->
  (if invokes
   then match split_once content with
        | _ :: c :: _ => Some c
        | _ => None
        end
   else Some content) = Some part.
Proof.
  destruct invokes; cbn [code_part].
  - intros (ws & word & sep & c & arg & -> & Hws & Hword & Hsep & Hsp & Hc & ->).
    rewrite split_once_two by assumption. reflexivity.
  - intros ->. reflexivity.
Qed.

(** A session whose first re-evaluation is a confirmed edit: the first
    two requests. *)
Lemma eval_loop_two_requests
      (rounds : nat) (ctx : Context) (code : str) (args : option (list str))
      (f : FormatFunc) (env : Env) (w : World) (new_message : Message)
      (invokes : bool) (part : str) (c : char) (l : str) :
  paste_only f -> answers env ->
  (forall w', confirms ctx env w' new_message) ->
  delete_fails_softly env ->
  (forall h, invokes_command env h new_message = invokes) ->
  code_part invokes (content new_message) part ->
  prepare_input part = Some (c :: l) ->
  jobs w !! author_id ctx = None ->
  exists r evs more,
    eval_loop (S (S rounds)) ctx code args f env w
    = (r, MkWorld (jobs w) (trace w ++ evs))
    /\ List.filter is_post_eval evs
       = EvPostEval code args :: EvPostEval (c :: l) args :: more.
Proof.
  intros Hf Hans Hconf Hdel Hinv Hpart Hcode Hfree.
  destruct (attempt_ok ctx code args f env w Hf Hans Hfree)
    as (response & rest & Hatt & Hrest).
  set (w1 := MkWorld (jobs w) (trace w ++ EvTyping :: EvPostEval code args :: rest)) in *.
  assert (continue_eval ctx response env w1
          = (Ok (Some (c :: l)),
             MkWorld (jobs w1) (trace w1 ++ CONFIRMED_CALLS response new_message)))
    as Hcont.
  { rewrite (continue_eval_confirmed_flow ctx response new_message env w1 (Hconf w1)).
    cbv zeta. rewrite Hinv, (code_part_get _ _ _ Hpart), Hcode. unfold CONFIRMED_CALLS.
    destruct (delete_message env _ (msg_id response)) as [[] | e] eqn:Hd;
      [| rewrite (Hdel _ _ _ Hd)]; norm_app; reflexivity. }
  rewrite (eval_loop_step _ _ _ _ _ _ _ _ _ _ _ _ Hatt Hcont).
  destruct (eval_loop_inv (S rounds) ctx args f env Hf (c :: l)
              (MkWorld (jobs w1) (trace w1 ++ CONFIRMED_CALLS response new_message)) Hfree)
    as (r & evs & -> & _ & _ & Hfirst).
  destruct (Hfirst ltac:(lia)) as (rest2 & -> & Hty).
  destruct Hans as (Htyping & _). rewrite Htyping in Hty.
  destruct Hty as [rest2' ->].
  cbn [jobs trace w1].
  exists r. eexists. exists (List.filter is_post_eval rest2').
  split; [norm_app; reflexivity |].
  cbn [List.filter is_post_eval]. f_equal.
  rewrite List.filter_app, (filter_no_request rest Hrest).
  reflexivity.
Qed.

Lemma run_eval_two_requests
      (rounds : nat) (ctx : Context) (code : str) (args : option (list str))
      (f : FormatFunc) (env : Env) (w : World) (new_message : Message)
      (invokes : bool) (part : str) (c : char) (l : str) :
  paste_only f -> answers env ->
  (forall w', confirms ctx env w' new_message) ->
  delete_fails_softly env ->
  (forall h, invokes_command env h new_message = invokes) ->
  code_part invokes (content new_message) part ->
  prepare_input part = Some (c :: l) ->
  jobs w !! author_id ctx = None ->
  exists more,
    requests_since w (snd (run_eval (S (S rounds)) ctx code f args env w))
    = EvPostEval code args :: EvPostEval (c :: l) args :: more.
Proof.
  intros Hf Hans Hconf Hdel Hinv Hpart Hcode Hfree.
  unfold run_eval. rewrite Hfree.
  unfold stats_incr, mbind, M_bind, bind, call.
  destruct (bool_decide (Roles_helpers env ∈ author_roles ctx));
    destruct (bool_decide (channel_category_id ctx = Some (Categories_help_in_use env)));
    try destruct (bool_decide (channel_id ctx = Channels_bot_commands env));
    cbn [jobs trace]; norm_app;
    match goal with
    | |- context [eval_loop (S (S rounds)) ctx code args f env ?w2] =>
        destruct (eval_loop_two_requests rounds ctx code args f env w2 new_message
                    invokes part c l Hf Hans Hconf Hdel Hinv Hpart Hcode Hfree)
          as (r & evs & more & -> & Hreq)
    end;
    exists more; unfold requests_since; cbn [snd jobs trace]; norm_app;
    rewrite calls_since_app; cbn [List.filter is_post_eval]; exact Hreq.
Qed.

(** X21: the first request of [eval_command] carries the code that
    [prepare_input] extracts from the text of the command, with no
    arguments; the first request of [timeit_command] carries that code
    indented by four spaces inside the wrapper, with the arguments [-m
    timeit].  After a confirmed edit the second request carries, with the
    same arguments, the code that [prepare_input] extracts from the part
    of the new content that [get_code] takes: the whole content when the
    new message does not invoke the command, and what follows the command
    word and the whitespace after it when it does.  For [timeit_command]
    too this code is neither indented nor put in the wrapper.  Here the
    author has no job running, the typing indicator is accepted, the
    services answer, a delete fails with an HTTP error at most, and the
    code of the edit is not empty. *)
Theorem command_requests
        (rounds : nat) (ctx : Context) (text : str) (env : Env) (w : World)
        (new_message : Message) (invokes : bool) (part : str) (c : char) (l : str) :
  answers env ->
  (forall w', confirms ctx env w' new_message) ->
  delete_fails_softly env ->
  (forall h, invokes_command env h new_message = invokes) ->
  code_part invokes (content new_message) part ->
  prepare_input part = Some (c :: l) ->
  jobs w !! author_id ctx = None ->
  exists code more more',
    prepare_input text = Some code
    /\ requests_since w (snd (eval_command (S (S rounds)) ctx text env w))
       = EvPostEval code None :: EvPostEval (c :: l) None :: more
    /\ requests_since w (snd (timeit_command (S (S rounds)) ctx text env w))
       = EvPostEval (TIMEIT_EVAL_WRAPPER (indent code (u "    ")))
                    (Some [u "-m"; u "timeit"])
         :: EvPostEval (c :: l) (Some [u "-m"; u "timeit"]) :: more'.
Proof.
  intros Hans Hconf Hdel Hinv Hpart Hcode Hfree.
  destruct (prepare_input_returns text) as [code Htext].
  unfold eval_command, timeit_command. rewrite Htext.
  destruct (run_eval_two_requests rounds ctx code None format_output env w
              new_message invokes part c l format_output_paste_only Hans Hconf Hdel
              Hinv Hpart Hcode Hfree)
    as [more Hmore].
  destruct (run_eval_two_requests rounds ctx (TIMEIT_EVAL_WRAPPER (indent code (u "    ")))
              (Some [u "-m"; u "timeit"]) format_timeit_output env w
              new_message invokes part c l format_timeit_output_paste_only Hans Hconf
              Hdel Hinv Hpart Hcode Hfree)
    as [more' Hmore'].
  exists code, more, more'. split; [reflexivity |]. split; assumption.
Qed.

Lemma command_requests_witness :
  exists more,
    requests_since Scenario.idle
      (snd (timeit_command 2 Scenario.alice (u "`f()`")
                           (Scenario.edits_to (u "!timeit `g()`")) Scenario.idle))
    = EvPostEval (TIMEIT_EVAL_WRAPPER (u "    f()")) (Some [u "-m"; u "timeit"])
      :: EvPostEval (u "g()") (Some [u "-m"; u "timeit"]) :: more.
Proof.
  destruct (command_requests 0 Scenario.alice (u "`f()`")
              (Scenario.edits_to (u "!timeit `g()`")) Scenario.idle
              (MkMessage 1%Z (u "!timeit `g()`")) true (u "`g()`") 103%N (u "()"))
    as (code & more & more' & Hcode & _ & Hreq).
  - split; [reflexivity |]. split; intros; eexists; reflexivity.
  - intros w'. split; [eexists; vm_compute; reflexivity |].
    split; [reflexivity |]. split; [reflexivity |].
    intros h. eexists. vm_compute. reflexivity.
  - intros h id e H. discriminate H.
  - reflexivity.
  - exists [], (u "!timeit"), (u " "), BACKTICK, (u "g()`").
    split; [reflexivity |]. split; [reflexivity |].
    split; [split; [discriminate | reflexivity] |].
    split; [discriminate |]. split; [reflexivity |]. split; reflexivity.
  - vm_compute. reflexivity.
  - reflexivity.
  - exists more'. rewrite Hreq.
    assert (Some code = Some (u "f()")) as [= ->]
        by (rewrite <- Hcode; vm_compute; reflexivity).
    reflexivity.
Defined.

(** ** What [prepare_input] returns *)

(** X23: the code that [prepare_input] returns is dedented: dedenting it
    again changes nothing, none of its lines is made of spaces and tabs
    only, and its lines have no indentation in common. *)
Theorem prepare_input_dedented (text code : str) :
  prepare_input text = Some code ->
  dedent code = code
  /\ Forall tidy (split_nl code)
  /\ (margin_of (split_nl code) = None \/ margin_of (split_nl code) = Some []).
Proof.
  rewrite prepare_input_cases. intros [= <-].
  match goal with |- context [dedent (dedent ?x)] => generalize x end.
  intros x. split; [apply dedent_idempotent |].
  destruct (dedent_lines x) as (B & Hne & Hone & Htidy & -> & Hmargin).
  rewrite split_join_nl by assumption. split; assumption.
Qed.

Lemma prepare_input_dedented_witness :
  dedent (u "x = 1" ++ [NL] ++ u "  y = 2") = u "x = 1" ++ [NL] ++ u "  y = 2".
Proof.
  apply (prepare_input_dedented
           (u "```py" ++ [NL] ++ u "    x = 1" ++ [NL] ++ u "      y = 2" ++ [NL] ++ u "```")
           (u "x = 1" ++ [NL] ++ u "  y = 2")).
  vm_compute. reflexivity.
Defined.

(** X24: the number of backticks decides which pattern is used.  A text
    with fewer than two backticks is taken as raw code: the result is
    the text without its leading blank lines and trailing whitespace,
    dedented.  In a text with two backticks or more the formatted-code
    pattern always finds something, and the result is made of the code
    groups of matches only. *)
Theorem backticks_decide_pattern (text : str) :
  (count_backticks text < 2 ->
   finditer FORMATTED_CODE_REGEX text = []
   /\ prepare_input text = Some (dedent (clean_text text)))
  /\ (2 <= count_backticks text ->
      exists ms, ms <> []
                 /\ (forall m, In m ms -> In m (finditer FORMATTED_CODE_REGEX text))
                 /\ prepare_input text = Some (dedent (join_nl (map code_of ms)))).
Proof.
  split.
  - intros Hfew. apply formatted_found_iff in Hfew. split; [exact Hfew |].
    rewrite prepare_input_cases, Hfew. unfold clean_text.
    rewrite skip_blank_lines_spec. reflexivity.
  - intros Hmany. rewrite prepare_input_cases.
    destruct (finditer FORMATTED_CODE_REGEX text) as [| first found] eqn:Hfound.
    { apply formatted_found_iff in Hfound. lia. }
    assert (forall m, In m (fenced_blocks text) -> In m (first :: found)) as Hsub.
    { intros m Hm. unfold fenced_blocks in Hm. rewrite Hfound in Hm.
      apply filter_In in Hm as [Hm _]. exact Hm. }
    destruct (1 <? length (fenced_blocks text)) eqn:Hlen.
    + exists (fenced_blocks text). split; [| split; [exact Hsub | reflexivity]].
      apply Nat.ltb_lt in Hlen. destruct (fenced_blocks text); [simpl in Hlen; lia | discriminate].
    + destruct (fenced_blocks text) as [| b bs] eqn:Hb.
      * exists [first]. split; [discriminate |]. split; [| reflexivity].
        intros m [<- | []]. left. reflexivity.
      * exists [b]. split; [discriminate |]. split; [| reflexivity].
        intros m [<- | []]. apply Hsub. left. reflexivity.
Qed.

Lemma backticks_decide_pattern_witness :
  prepare_input (u "  print('`')  ") = Some (u "print('`')").
Proof.
  destruct (backticks_decide_pattern (u "  print('`')  ")) as [H _].
  destruct H as [_ H]; [vm_compute; lia |].
  rewrite H. vm_compute. reflexivity.
Defined.

(** ** Inline code *)

Lemma exec_inline_body (q : nat) (b w t : str) (cs : list (gname * str)) :
  no_backtick b ->
  group_get g_delim cs = Some (BACKTICK :: w) ->
  group_get g_block cs = None ->
  exec (Seq (IfGroup g_block
               (Opt (Seq (Group g_lang (Plus (Cls letter_i))) (Chr NL)))
               Eps)
            (Seq blank_lines
                 (Seq (Group g_code (Star false (Cls any_char)))
                      (Seq (Star true (Cls isspace)) (Backref g_delim)))))
       Some (MState q (b ++ (BACKTICK :: w) ++ t) cs)
  = Some (MState (q + length b + length (BACKTICK :: w)) t
                 ((g_code, rstrip isspace (skip_blank_lines b)) :: cs)).
Proof.
  intros Hb Hget Hblock.
  set (K := exec (Seq blank_lines
                      (Seq (Group g_code (Star false (Cls any_char)))
                           (Seq (Star true (Cls isspace)) (Backref g_delim)))) Some).
  change (exec (Seq (IfGroup g_block ?a Eps) ?r) Some ?st)
    with (exec (IfGroup g_block a Eps) K st).
  cbn [exec caps]. rewrite Hblock. unfold K.
  apply exec_blank_code_close; assumption.
Qed.

Lemma match_at_inline (p : nat) (w : str) (c : char) (code t : str) :
  w = [] \/ w = [BACKTICK] ->
  no_backtick (c :: code) ->
  match_at FORMATTED_CODE_REGEX p (inline (BACKTICK :: w) (c :: code) ++ t)
  = Some (MkMatch p (p + length (inline (BACKTICK :: w) (c :: code)))
                  [(g_code, rstrip isspace (skip_blank_lines (c :: code)));
                   (g_delim, BACKTICK :: w)]).
Proof.
  intros Hw Hcode.
  pose proof Hcode as Hc. apply no_backtick_cons in Hc as [Hc _].
  unfold match_at, inline, FORMATTED_CODE_REGEX.
  set (K := exec (Seq (IfGroup g_block
                         (Opt (Seq (Group g_lang (Plus (Cls letter_i))) (Chr NL)))
                         Eps)
                      (Seq blank_lines
                           (Seq (Group g_code (Star false (Cls any_char)))
                                (Seq (Star true (Cls isspace)) (Backref g_delim)))))
                 Some) in *.
  rewrite <- !app_assoc.
  set (st0 := MState p ((BACKTICK :: w) ++ (c :: code) ++ (BACKTICK :: w) ++ t) []).
  change (exec (Seq (Group g_delim ?a) ?r) Some st0)
    with (exec a (fun st' => K (set_group g_delim st0 st')) st0).
  destruct Hw as [-> | ->].
  - pose proof (exec_inline_body (p + 1) (c :: code) [] t [(g_delim, [BACKTICK])]
                  Hcode eq_refl eq_refl) as HK.
    fold K in HK.
    unfold st0. cbn [exec rest caps pos advance Lit foldr Opt orelse app set_group].
    rewrite !N.eqb_refl. cbn [skipn]. rewrite Hc. cbn [orelse].
    unfold set_group, advance. cbn [pos rest caps skipn].
    replace (p + 1 - p) with 1 by lia. cbn [firstn].
    match goal with
    | |- match ?x with _ => _ end = _ =>
        match type of HK with
        | _ = ?r => assert (x = r) as -> by exact HK
        end
    end.
    cbn [pos caps]. f_equal. f_equal. rewrite ?length_app. simpl.
    rewrite ?length_app. simpl. lia.
  - pose proof (exec_inline_body (p + 1 + 1) (c :: code) [BACKTICK] t
                  [(g_delim, [BACKTICK; BACKTICK])] Hcode eq_refl eq_refl) as HK.
    fold K in HK.
    unfold st0. cbn [exec rest caps pos advance Lit foldr Opt orelse app set_group].
    rewrite !N.eqb_refl. cbn [skipn]. rewrite !N.eqb_refl. cbn [skipn].
    rewrite Hc. cbn [orelse].
    unfold set_group, advance. cbn [pos rest caps skipn].
    replace (p + 1 + 1 - p) with 2 by lia. cbn [firstn].
    match goal with
    | |- match orelse ?x _ with _ => _ end = _ =>
        match type of HK with
        | _ = ?r => assert (x = r) as -> by exact HK
        end
    end.
    cbn [orelse pos caps]. f_equal. f_equal. rewrite ?length_app. simpl.
    rewrite ?length_app. simpl. lia.
Qed.

Lemma scan_elements_suffix (r : regex) (skip p : nat) (s : str) (m : Match) :
  In m (scan r skip p s) ->
  exists pre t, s = pre ++ t /\ match_at r (p + length pre) t = Some m.
Proof.
  revert skip p. induction s as [| c s IH]; intros skip p; cbn [scan].
  - destruct skip; [| intros []].
    destruct (match_at r p []) as [m' |] eqn:Hm; [| intros []].
    intros [<- | []]. exists [], []. simpl. rewrite Nat.add_0_r. auto.
  - assert (forall k, In m (scan r k (S p) s) ->
                      exists pre t, c :: s = pre ++ t
                                    /\ match_at r (p + length pre) t = Some m) as Hnext.
    { intros k Hin. destruct (IH k (S p) Hin) as (pre & t & -> & Hm).
      exists (c :: pre), t. split; [reflexivity |].
      simpl. replace (p + S (length pre)) with (S p + length pre) by lia. exact Hm. }
    destruct skip as [| skip]; [| apply Hnext].
    destruct (match_at r p (c :: s)) as [m' |] eqn:Hm; [| apply Hnext].
    intros [<- | Hin]; [| eapply Hnext, Hin].
    exists [], (c :: s). simpl. rewrite Nat.add_0_r. auto.
Qed.

(** A match with its block group set starts with three backticks. *)
Lemma block_match_fence (p : nat) (s : str) (m : Match) :
  match_at FORMATTED_CODE_REGEX p s = Some m ->
  is_block m = true ->
  exists t, s = FENCE ++ t.
Proof.
  intros Hm Hblock.
  apply match_at_Matches in Hm as (st' & HM & Hgroups).
  unfold is_block, group in Hblock. rewrite Hgroups in Hblock.
  unfold FORMATTED_CODE_REGEX in HM.
  apply Matches_Seq in HM as (s1 & Hdelim & Hrest).
  rewrite (Matches_caps_other _ _ _ Hrest g_block eq_refl) in Hblock.
  apply Matches_group in Hdelim as (w & s1a & Halt & _ & _ & _ & Hcaps).
  rewrite Hcaps in Hblock. cbn [group_get gname_eqb] in Hblock.
  apply Matches_Alt in Halt as [H | H].
  - apply Matches_group in H as (wb & sb & Hlit & _ & _ & _ & _).
    unfold Lit in Hlit. cbn [foldr] in Hlit.
    apply Matches_Seq in Hlit as (x1 & Hc1 & Hlit).
    apply Matches_Seq in Hlit as (x2 & Hc2 & Hlit).
    apply Matches_Seq in Hlit as (x3 & Hc3 & _).
    apply Matches_Chr in Hc1 as (t1 & Ht1 & Ht1' & _).
    apply Matches_Chr in Hc2 as (t2 & Ht2 & Ht2' & _).
    apply Matches_Chr in Hc3 as (t3 & Ht3 & Ht3' & _).
    exists t3. cbn [rest] in Ht1. rewrite Ht1, <- Ht1', Ht2, <- Ht2', Ht3. reflexivity.
  - rewrite (Matches_caps_other _ _ _ H g_block eq_refl) in Hblock.
    cbn [caps group_get] in Hblock. discriminate Hblock.
Qed.

Lemma contains_suffix (w a b : str) : contains w (a ++ b) = false -> contains w b = false.
Proof.
  intros H. destruct (contains w b) eqn:Hb; [| reflexivity].
  apply contains_spec in Hb as (pre & post & ->).
  assert (contains w (a ++ pre ++ w ++ post) = true) as Hc.
  { apply contains_spec. exists (a ++ pre), post. rewrite <- app_assoc. reflexivity. }
  congruence.
Qed.

Lemma scan_no_block (skip p : nat) (s : str) :
  contains FENCE s = false ->
  List.filter is_block (scan FORMATTED_CODE_REGEX skip p s) = [].
Proof.
  intros Hs.
  assert (forall m, In m (scan FORMATTED_CODE_REGEX skip p s) -> is_block m = false) as H.
  { intros m Hin. destruct (is_block m) eqn:Hb; [| reflexivity].
    apply scan_elements_suffix in Hin as (pre & t & -> & Hm).
    destruct (block_match_fence _ _ _ Hm Hb) as [t' ->].
    apply contains_suffix in Hs.
    assert (contains FENCE (FENCE ++ t') = true) as Hc.
    { apply contains_spec. exists [], t'. reflexivity. }
    congruence. }
  induction (scan FORMATTED_CODE_REGEX skip p s) as [| m ms IH]; [reflexivity |].
  cbn [List.filter]. rewrite (H m (or_introl eq_refl)).
  apply IH. intros m' Hm'. apply H. right. exact Hm'.
Qed.

Lemma scan_inline (p : nat) (w : str) (c : char) (code t : str) :
  w = [] \/ w = [BACKTICK] ->
  no_backtick (c :: code) ->
  scan FORMATTED_CODE_REGEX 0 p (inline (BACKTICK :: w) (c :: code) ++ t)
  = MkMatch p (p + length (inline (BACKTICK :: w) (c :: code)))
            [(g_code, rstrip isspace (skip_blank_lines (c :: code)));
             (g_delim, BACKTICK :: w)]
    :: scan FORMATTED_CODE_REGEX 0 (p + length (inline (BACKTICK :: w) (c :: code))) t.
Proof.
  intros Hw Hcode. pose proof (match_at_inline p w c code t Hw Hcode) as Hm.
  assert (inline (BACKTICK :: w) (c :: code) ++ t
          = BACKTICK :: (w ++ (c :: code) ++ BACKTICK :: w) ++ t) as Hshape.
  { unfold inline. cbn [app]. rewrite <- !app_assoc. reflexivity. }
  assert (length (inline (BACKTICK :: w) (c :: code))
          = S (length (w ++ (c :: code) ++ BACKTICK :: w))) as Hlen.
  { unfold inline. cbn [app length]. reflexivity. }
  rewrite Hlen in *. rewrite Hshape in *. cbn [scan]. rewrite Hm. cbn [m_end]. f_equal.
  replace (p + S (length (w ++ (c :: code) ++ BACKTICK :: w)) - p - 1)
    with (length (w ++ (c :: code) ++ BACKTICK :: w)) by lia.
  rewrite scan_skip. f_equal. lia.
Qed.

(** X26: in a text with inline code, one or two backticks on either side
    of a code without backticks, after prose without backticks and with
    no three backticks in a row in what follows, [prepare_input] returns
    that first inline code, without its leading blank lines and trailing
    whitespace, dedented; what comes before and after is ignored, further
    inline code included. *)
Theorem prepare_input_inline (prose delim code tail : str) :
  delim = [BACKTICK] \/ delim = [BACKTICK; BACKTICK] ->
  no_backtick prose -> no_backtick code -> code <> [] ->
  contains FENCE tail = false ->
  prepare_input (prose ++ inline delim code ++ tail)
  = Some (dedent (rstrip isspace (skip_blank_lines code))).
Proof.
  intros Hdelim Hprose Hcode Hne Htail.
  destruct code as [| c code]; [congruence |].
  assert (exists w, delim = BACKTICK :: w /\ (w = [] \/ w = [BACKTICK])) as (w & -> & Hw).
  { destruct Hdelim as [-> | ->]; eexists; (split; [reflexivity |]); auto. }
  rewrite prepare_input_cases. unfold fenced_blocks, finditer.
  rewrite scan_prose by exact Hprose.
  rewrite scan_inline by assumption.
  cbn [List.filter]. unfold is_block at 1 2, group. cbn [m_groups group_get gname_eqb].
  rewrite scan_no_block by exact Htail.
  reflexivity.
Qed.

Lemma prepare_input_inline_witness :
  prepare_input (u "Run ``  print(1) `` and then `print(2)` please")
  = Some (u "print(1)").
Proof.
  change (u "Run ``  print(1) `` and then `print(2)` please")
    with (u "Run " ++ inline [BACKTICK; BACKTICK] (u "  print(1) ")
            ++ u " and then `print(2)` please").
  rewrite (prepare_input_inline (u "Run ") [BACKTICK; BACKTICK] (u "  print(1) ")
             (u " and then `print(2)` please"));
    [vm_compute; reflexivity | auto | reflexivity | reflexivity | discriminate | reflexivity].
Defined.

(** ** Several fenced blocks *)





(** ** Lines with their line breaks, and [indent] *)

Lemma splitlines_unbroken (l : str) : l <> [] -> unbroken l -> splitlines l = [l].
Proof.
  induction l as [| c l IH]; [congruence |]. intros _ Hl.
  unfold unbroken in Hl. cbn [forallb] in Hl. apply andb_prop in Hl as [Hc Hl].
  apply negb_true_iff in Hc. cbn [splitlines]. rewrite Hc.
  destruct l as [| d l]; [reflexivity |].
  rewrite IH by (congruence || exact Hl). reflexivity.
Qed.

Lemma splitlines_body (body s : str) (l : str) (ls : list str) :
  unbroken body -> splitlines s = l :: ls -> splitlines (body ++ s) = (body ++ l) :: ls.
Proof.
  intros Hbody Hs. induction body as [| c body IH]; [exact Hs |].
  unfold unbroken in Hbody. cbn [forallb] in Hbody. apply andb_prop in Hbody as [Hc Hbody].
  apply negb_true_iff in Hc. cbn [app splitlines]. rewrite Hc, (IH Hbody). reflexivity.
Qed.

Lemma splitlines_terminated (l s : str) :
  terminated l ->
  (last l = Some CR -> starts_nl s = false) ->
  splitlines (l ++ s) = l :: splitlines s.
Proof.
  intros Hl Hcr. destruct Hl as [body Hbody | body c Hbody Hc].
  - rewrite <- app_assoc. apply splitlines_body; [exact Hbody |]. reflexivity.
  - rewrite <- app_assoc. apply splitlines_body; [exact Hbody |].
    cbn [app splitlines]. rewrite Hc. destruct s as [| d s]; [reflexivity |].
    destruct (N.eqb_spec c CR) as [-> | Hne]; [| reflexivity].
    rewrite last_snoc in Hcr. specialize (Hcr eq_refl). cbn [starts_nl] in Hcr.
    rewrite Hcr. reflexivity.
Qed.

Lemma lines_ok_splitlines (ls : list str) : lines_ok ls -> splitlines (concat ls) = ls.
Proof.
  induction 1 as [| l Hne Hl | l ls Hl _ IH Hcr].
  - reflexivity.
  - cbn [concat]. rewrite app_nil_r. apply splitlines_unbroken; assumption.
  - cbn [concat]. rewrite splitlines_terminated by assumption. rewrite IH. reflexivity.
Qed.

Lemma terminated_ne (l : str) : terminated l -> l <> [].
Proof. intros [body _ | body c _ _] H; apply app_eq_nil in H as [_ H]; discriminate H. Qed.

Lemma lines_ok_cons_char (c : char) (l : str) (ls : list str) :
  is_linebreak c = false -> lines_ok (l :: ls) -> lines_ok ((c :: l) :: ls).
Proof.
  intros Hc H.
  assert (forall body, unbroken body -> unbroken (c :: body)) as Hub.
  { intros body Hb. unfold unbroken. cbn [forallb]. rewrite Hc. exact Hb. }
  inversion H as [| l0 Hne Hl | l0 ls0 Hl Hls Hcr]; subst.
  - apply lines_ok_last; [discriminate | apply Hub, Hl].
  - apply lines_ok_cons; [| exact Hls |].
    + destruct Hl as [body Hb | body d Hb Hd].
      * apply (terminated_crlf (c :: body)), Hub, Hb.
      * apply (terminated_one (c :: body)); [apply Hub, Hb | exact Hd].
    + intros Hlast. apply Hcr.
      pose proof (terminated_ne l Hl) as Hne.
      destruct l; [congruence | exact Hlast].
Qed.

Lemma splitlines_ok (s : str) : lines_ok (splitlines s) /\ concat (splitlines s) = s.
Proof.
  assert (forall n s, length s <= n ->
                      lines_ok (splitlines s) /\ concat (splitlines s) = s) as H.
  { clear s. induction n as [| n IH]; intros s Hlen.
    - destruct s; [split; [constructor | reflexivity] | simpl in Hlen; lia].
    - destruct s as [| c t]; [split; [constructor | reflexivity] |].
      cbn [splitlines]. destruct (is_linebreak c) eqn:Hc.
      + destruct t as [| d t'].
        * split; [| reflexivity].
          apply lines_ok_cons; [apply (terminated_one [] c); [reflexivity | exact Hc]
                               | constructor | reflexivity].
        * destruct (N.eqb_spec c CR) as [-> | Hne];
            [destruct (N.eqb_spec d NL) as [-> | Hne'] |]; cbn [andb].
          -- destruct (IH t' ltac:(simpl in Hlen; lia)) as [Hok Hcat].
             split; [| cbn [concat app]; rewrite Hcat; reflexivity].
             apply lines_ok_cons; [apply (terminated_crlf []); reflexivity | exact Hok |].
             intros [= ?].
          -- destruct (IH (d :: t') ltac:(simpl in Hlen; simpl; lia)) as [Hok Hcat].
             split; [| cbn [concat app]; rewrite Hcat; reflexivity].
             apply lines_ok_cons;
               [apply (terminated_one [] CR); reflexivity | exact Hok |].
             intros _. rewrite Hcat. cbn [starts_nl].
             apply N.eqb_neq. exact Hne'.
          -- destruct (IH (d :: t') ltac:(simpl in Hlen; simpl; lia)) as [Hok Hcat].
             split; [| cbn [concat app]; rewrite Hcat; reflexivity].
             apply lines_ok_cons;
               [apply (terminated_one [] c); [reflexivity | exact Hc] | exact Hok |].
             intros [= ?]. congruence.
      + destruct (IH t ltac:(simpl in Hlen; lia)) as [Hok Hcat].
        destruct (splitlines t) as [| l ls] eqn:Hsplit.
        * simpl in Hcat. subst t. split; [| reflexivity].
          apply lines_ok_last; [discriminate |].
          unfold unbroken. cbn [forallb]. rewrite Hc. reflexivity.
        * split; [apply lines_ok_cons_char; assumption |].
          cbn [concat app] in *. rewrite Hcat. reflexivity. }
  apply (H (length s)). lia.
Qed.

Lemma lines_ok_head_ne (l : str) (ls : list str) : lines_ok (l :: ls) -> l <> [].
Proof.
  intros H. inversion H; subst; [assumption | apply terminated_ne; assumption].
Qed.

Lemma unbroken_app (a b : str) : unbroken a -> unbroken b -> unbroken (a ++ b).
Proof. unfold unbroken. intros Ha Hb. rewrite forallb_app, Ha, Hb. reflexivity. Qed.

Lemma terminated_prefix (prefix l : str) :
  unbroken prefix -> terminated l -> terminated (prefix ++ l).
Proof.
  intros Hp [body Hb | body c Hb Hc]; rewrite app_assoc.
  - apply terminated_crlf, unbroken_app; assumption.
  - apply terminated_one; [apply unbroken_app; assumption | exact Hc].
Qed.

Lemma indent_line_cases (prefix l : str) :
  indent_line prefix l = l \/ indent_line prefix l = prefix ++ l.
Proof. unfold indent_line. destruct (strip l); auto. Qed.

Lemma starts_nl_prefix (prefix l s s' : str) :
  unbroken prefix -> l <> [] -> starts_nl (l ++ s) = false ->
  starts_nl ((prefix ++ l) ++ s') = false.
Proof.
  intros Hp Hne H.
  destruct prefix as [| c prefix]; [destruct l; [congruence | exact H] |].
  unfold unbroken in Hp. cbn [forallb] in Hp. apply andb_prop in Hp as [Hc _].
  cbn [app starts_nl]. destruct (N.eqb_spec c NL) as [-> | _]; [discriminate Hc | reflexivity].
Qed.

Lemma lines_ok_indent (prefix : str) (ls : list str) :
  unbroken prefix -> lines_ok ls -> lines_ok (map (indent_line prefix) ls).
Proof.
  intros Hp. induction 1 as [| l Hne Hl | l ls Hl Hls IH Hcr]; cbn [map].
  - constructor.
  - destruct (indent_line_cases prefix l) as [-> | ->].
    + apply lines_ok_last; assumption.
    + apply lines_ok_last; [| apply unbroken_app; assumption].
      intros H. apply app_eq_nil in H as [_ H]. congruence.
  - pose proof (terminated_ne l Hl) as Hne.
    apply lines_ok_cons; [| exact IH |].
    + destruct (indent_line_cases prefix l) as [-> | ->];
        [exact Hl | apply terminated_prefix; assumption].
    + intros Hlast.
      assert (last l = Some CR) as Hlast'.
      { destruct (indent_line_cases prefix l) as [Heq | Heq]; rewrite Heq in Hlast;
          [exact Hlast |].
        destruct l as [| x l] using rev_ind; [congruence |].
        rewrite app_assoc, last_snoc in Hlast. rewrite last_snoc. exact Hlast. }
      specialize (Hcr Hlast').
      destruct ls as [| l' ls']; [reflexivity |].
      pose proof (lines_ok_head_ne l' ls' Hls) as Hne'.
      cbn [map concat] in *.
      destruct (indent_line_cases prefix l') as [-> | ->].
      * destruct l'; [congruence | exact Hcr].
      * apply (starts_nl_prefix prefix l' (concat ls')); assumption.
Qed.

(** X22: [indent] keeps the lines of the text, line breaks included, and
    puts the prefix in front of exactly those lines that have a character
    other than whitespace: cutting the result into lines again gives the
    lines of the text, each with or without the prefix.  So in the text
    that [timeit_command] puts into its wrapper every line of the code is
    blank or starts with the four spaces.  Putting the lines of a text
    together gives the text back. *)
Theorem indent_keeps_lines (text prefix : str) :
  unbroken prefix ->
  splitlines (indent text prefix) = map (indent_line prefix) (splitlines text)
  /\ Forall (fun line => strip line = [] \/ startswith line prefix = true)
            (splitlines (indent text prefix))
  /\ concat (splitlines text) = text.
Proof.
  intros Hp. destruct (splitlines_ok text) as [Hok Hcat].
  assert (splitlines (indent text prefix) = map (indent_line prefix) (splitlines text))
    as Hlines.
  { unfold indent. apply (lines_ok_splitlines (map (indent_line prefix) (splitlines text))).
    apply lines_ok_indent; assumption. }
  split; [exact Hlines |]. split; [| exact Hcat].
  rewrite Hlines. apply Forall_map, Forall_forall. intros line _.
  unfold indent_line. cbn. destruct (strip line) eqn:Hs; [left; exact Hs | right].
  apply startswith_spec. eauto.
Qed.

Lemma indent_keeps_lines_witness :
  splitlines (indent (u "if x:" ++ [NL; NL] ++ u "    f()" ++ [NL]) (u "    "))
  = [u "    if x:" ++ [NL]; [NL]; u "        f()" ++ [NL]].
Proof.
  rewrite (proj1 (indent_keeps_lines (u "if x:" ++ [NL; NL] ++ u "    f()" ++ [NL])
                    (u "    ") eq_refl)).
  vm_compute. reflexivity.
Defined.

(** ** Where the formatter starts to cut *)

Lemma number_lines_one_line (ls : list str) :
  Forall one_line ls -> Forall one_line (number_lines ls).
Proof.
  apply Forall_imap_keep. intros i l Hl.
  unfold one_line in *. rewrite !forallb_app, (pad3_one_line (S i)), Hl. reflexivity.
Qed.

(** X7: an output that, without its trailing newlines and with the
    mentions neutralized, has no run of three escape characters and has
    more than ten newlines, twelve lines or more, is cut after its
    eleventh line: the body is the first eleven lines, numbered, and the
    marker line, as long as these eleven lines stay under 1000
    characters; the link is what the upload of the stripped output
    gives.  Together with the numbered case this puts the cut between
    eleven and twelve lines. *)
Theorem format_output_too_many_lines (output : str) (env : Env) (w : World) :
  let s := neutralize (rstrip is_nl output) in
  has_escape_run s = false ->
  10 < count_nl s ->
  length (numbered s) < 1000 ->
  exists body link w',
    format_output output env w = (Ok (body, link), w')
    /\ upload_output (rstrip is_nl output) env w = (Ok link, w')
    /\ split_nl body
       = firstn 11 (number_lines (split_nl s)) ++ [u "... (truncated - too many lines)"]
    /\ length (split_nl body) = 12.
Proof.
  intros s Hrun Hlines Hlen.
  rewrite format_output_cases. cbv zeta. fold s. rewrite Hrun.
  unfold truncate.
  destruct (Nat.ltb_spec 10 (count_nl s)); [| lia].
  destruct (Nat.leb_spec 1000 (length (numbered s))); [lia |].
  rewrite upload_output_spec.
  assert (split_nl (numbered s ++ NL :: u "... (truncated - too many lines)")
          = firstn 11 (number_lines (split_nl s)) ++ [u "... (truncated - too many lines)"]
          /\ length (firstn 11 (number_lines (split_nl s))) = 11) as [Hsplit Heleven].
  { pose proof (split_nl_length s) as Hn.
    assert (length (firstn 11 (number_lines (split_nl s))) = 11) as Heleven.
    { rewrite length_firstn. unfold number_lines. rewrite length_imap.
      unfold str in *. lia. }
    split; [| exact Heleven].
    unfold numbered. destruct (Nat.ltb_spec 0 (count_nl s)); [| lia].
    assert (Forall one_line (firstn 11 (number_lines (split_nl s)))) as Hone.
    { apply Forall_take, number_lines_one_line, split_nl_one_line. }
    rewrite <- (split_join_nl (firstn 11 (number_lines (split_nl s))
                               ++ [u "... (truncated - too many lines)"])).
    - f_equal.
      destruct (firstn 11 (number_lines (split_nl s))) as [| l ls] eqn:Hf;
        [simpl in Heleven; lia |].
      clear. revert l. induction ls as [| l' ls IH]; intros l; [reflexivity |].
      cbn [app]. rewrite !join_nl_cons. cbn [app] in IH. rewrite <- IH.
      rewrite <- app_assoc. reflexivity.
    - intros Hnil. apply app_eq_nil in Hnil as [_ Hnil]. discriminate Hnil.
    - apply Forall_app. split; [exact Hone | repeat constructor]. }
  destruct (N.ltb _ _);
    (eexists _, _, _; split; [reflexivity |]; split; [reflexivity |];
     split; [exact Hsplit | rewrite Hsplit, length_app, Heleven; reflexivity]).
Qed.

Lemma format_output_too_many_lines_witness :
  exists body link w',
    format_output (concat (replicate 12 (u "x" ++ [NL]))) Scenario.quiet Scenario.idle
    = (Ok (body, link), w')
    /\ length (split_nl body) = 12.
Proof.
  destruct (format_output_too_many_lines (concat (replicate 12 (u "x" ++ [NL])))
              Scenario.quiet Scenario.idle)
    as (body & link & w' & H & _ & _ & Hlen);
    [vm_compute; reflexivity | vm_compute; lia | vm_compute; lia |].
  exists body, link, w'. split; [exact H | exact Hlen].
Defined.

(** ** The shape of a timing line *)

Lemma walks_Eps : walks Eps [].
Proof. intros q t cs. simpl. rewrite Nat.add_0_r. constructor. Qed.

Lemma walks_Cls (p : char -> bool) (c : char) : p c = true -> walks (Cls p) [c].
Proof.
  intros Hc q t cs. apply (M_Cls p c (MState q ([c] ++ t) cs) t); [reflexivity | exact Hc].
Qed.

Lemma walks_Chr (c : char) : walks (Chr c) [c].
Proof. intros q t cs. apply (M_Chr c (MState q ([c] ++ t) cs) t). reflexivity. Qed.

Lemma walks_Seq (a b : regex) (w1 w2 : str) :
  walks a w1 -> walks b w2 -> walks (Seq a b) (w1 ++ w2).
Proof.
  intros Ha Hb q t cs. rewrite <- app_assoc, length_app, Nat.add_assoc.
  eapply M_Seq; [apply Ha | apply Hb].
Qed.

Lemma walks_Opt_some (a : regex) (w : str) : walks a w -> walks (Opt a) w.
Proof. intros Ha q t cs. apply M_AltL, Ha. Qed.

Lemma walks_Opt_none (a : regex) : walks (Opt a) [].
Proof. intros q t cs. apply M_AltR, walks_Eps. Qed.

Lemma walks_Star_Cls (g : bool) (p : char -> bool) (w : str) :
  forallb p w = true -> walks (Star g (Cls p)) w.
Proof.
  induction w as [| c w IH]; intros Hw q t cs.
  - simpl. rewrite Nat.add_0_r. constructor.
  - cbn [forallb] in Hw. apply andb_prop in Hw as [Hc Hw].
    eapply M_StarS.
    + apply (walks_Cls p c Hc q (w ++ t) cs).
    + simpl. lia.
    + cbn [length]. replace (q + S (length w)) with (q + 1 + length w) by lia.
      apply (IH Hw).
Qed.

Lemma walks_Plus_Cls (p : char -> bool) (w : str) :
  w <> [] -> forallb p w = true -> walks (Plus (Cls p)) w.
Proof.
  intros Hne Hw. destruct w as [| c w]; [congruence |].
  cbn [forallb] in Hw. apply andb_prop in Hw as [Hc Hw].
  apply (walks_Seq (Cls p) (Star true (Cls p)) [c] w).
  - apply walks_Cls, Hc.
  - apply walks_Star_Cls, Hw.
Qed.

Lemma walks_Lit (s : str) : walks (Lit s) s.
Proof.
  induction s as [| c s IH]; [apply walks_Eps |].
  apply (walks_Seq (Chr c) (Lit s) [c] s); [apply walks_Chr | exact IH].
Qed.

Lemma Matches_Lit (s : str) (st st' : mstate) :
  Matches (Lit s) st st' -> rest st = s ++ rest st'.
Proof.
  revert st. induction s as [| c s IH]; intros st H.
  - apply Matches_Eps in H as ->. reflexivity.
  - unfold Lit in H. cbn [foldr] in H.
    apply Matches_Seq in H as (s1 & Hc & Hs).
    apply Matches_Chr in Hc as (t & Ht & Ht' & _).
    apply IH in Hs. rewrite Ht, <- Ht', Hs. reflexivity.
Qed.

Lemma Matches_Cls (p : char -> bool) (st st' : mstate) :
  Matches (Cls p) st st' -> exists c, rest st = c :: rest st' /\ p c = true.
Proof.
  intros H. inversion H as [| | p' c st0 t Hrest Hp | | | | | | | | | | |]; subst.
  exists c. simpl. rewrite Hrest. split; [reflexivity | exact Hp].
Qed.

Lemma Matches_Star_Cls (g : bool) (p : char -> bool) (st st' : mstate) :
  Matches (Star g (Cls p)) st st' ->
  exists w, rest st = w ++ rest st' /\ forallb p w = true.
Proof.
  intros H. apply (Matches_consumes p _ _ _ H). cbn. auto.
Qed.

Lemma Matches_Plus_Cls (p : char -> bool) (st st' : mstate) :
  Matches (Plus (Cls p)) st st' ->
  exists w, rest st = w ++ rest st' /\ w <> [] /\ forallb p w = true.
Proof.
  intros H. apply Matches_Seq in H as (s1 & Hc & Hs).
  apply Matches_Cls in Hc as (c & Hc & Hp).
  apply Matches_Star_Cls in Hs as (w & Hw & Hall).
  exists (c :: w). rewrite Hc, Hw. cbn [forallb]. rewrite Hp, Hall.
  split; [reflexivity |]. split; [discriminate | reflexivity].
Qed.

Lemma timing_line_shape (s : str) : is_timing_line s = true <-> timing_shape s.
Proof.
  unfold is_timing_line, fullmatch. split.
  - destruct (exec TIMEIT_OUTPUT_REGEX at_end (MState 0 s [])) as [st |] eqn:Hexec;
      [| discriminate].
    intros _. apply exec_sound in Hexec as (st' & HM & Hend).
    unfold at_end in Hend. destruct (rest st') eqn:Hrest'; [| discriminate Hend].
    unfold TIMEIT_OUTPUT_REGEX in HM.
    apply Matches_Seq in HM as (s1 & H1 & HM).
    apply Matches_Seq in HM as (s2 & H2 & HM).
    apply Matches_Seq in HM as (s3 & H3 & HM).
    apply Matches_Seq in HM as (s4 & H4 & HM).
    apply Matches_Seq in HM as (s5 & H5 & HM).
    apply Matches_Seq in HM as (s6 & H6 & HM).
    apply Matches_Seq in HM as (s7 & H7 & HM).
    apply Matches_Seq in HM as (s8 & H8 & H9).
    apply Matches_Plus_Cls in H1 as (n & E1 & Hn1 & Hn2).
    apply Matches_Lit in H2. apply Matches_Plus_Cls in H3 as (m & E3 & Hm1 & Hm2).
    apply Matches_Lit in H4. apply Matches_Cls in H5 as (d & E5 & Hd).
    apply Matches_Chr in H7 as (t7 & E7 & E7' & _).
    apply Matches_Lit in H9.
    assert (exists frac, rest s5 = frac ++ rest s6
                         /\ (frac = []
                             \/ (exists a, frac = [46%N; a] /\ isdecimal a = true)
                             \/ (exists a b, frac = [46%N; a; b]
                                             /\ isdecimal a = true /\ isdecimal b = true)))
      as (frac & E6 & Hfrac).
    { apply Matches_Alt in H6 as [H6 | H6].
      - apply Matches_Seq in H6 as (x1 & Hp & H6).
        apply Matches_Seq in H6 as (x2 & Ha & Hb).
        apply Matches_Chr in Hp as (tp & Ep & Ep' & _).
        apply Matches_Cls in Ha as (a & Ea & Ha).
        apply Matches_Alt in Hb as [Hb | Hb].
        + apply Matches_Cls in Hb as (b & Eb & Hb).
          exists [46%N; a; b]. split; [| right; right; eauto].
          rewrite Ep, <- Ep', Ea, Eb. reflexivity.
        + apply Matches_Eps in Hb as ->.
          exists [46%N; a]. split; [| right; left; eauto].
          rewrite Ep, <- Ep', Ea. reflexivity.
      - apply Matches_Eps in H6 as ->. exists []. split; [reflexivity | auto]. }
    assert (exists unit, rest s7 = unit ++ rest s8
                         /\ (unit = [] \/ exists c, unit = [c] /\ mnu c = true))
      as (unit & E8 & Hunit).
    { apply Matches_Alt in H8 as [H8 | H8].
      - apply Matches_Cls in H8 as (c & Ec & Hc). exists [c]. split; [exact Ec | eauto].
      - apply Matches_Eps in H8 as ->. exists []. split; [reflexivity | auto]. }
    exists n, m, d, frac, unit.
    split; [| repeat split; assumption].
    cbn [rest] in E1. rewrite E1, H2, E3, H4, E5, E6, E7, <- E7', E8, H9, Hrest'.
    rewrite app_nil_r. reflexivity.
  - intros (n & m & d & frac & unit & -> & [Hn1 Hn2] & [Hm1 Hm2] & Hd & Hfrac & Hunit).
    assert (walks TIMEIT_OUTPUT_REGEX
              (n ++ u " loops, best of " ++ m ++ u ": "
                 ++ d :: frac ++ SP :: unit ++ u "sec per loop")) as Hwalk.
    { unfold TIMEIT_OUTPUT_REGEX.
      apply walks_Seq; [apply walks_Plus_Cls; assumption |].
      apply walks_Seq; [apply walks_Lit |].
      apply walks_Seq; [apply walks_Plus_Cls; assumption |].
      apply walks_Seq; [apply walks_Lit |].
      apply (walks_Seq _ _ [d]); [apply walks_Cls, Hd |].
      apply walks_Seq.
      { destruct Hfrac as [-> | [(a & -> & Ha) | (a & b & -> & Ha & Hb)]].
        - apply walks_Opt_none.
        - apply walks_Opt_some.
          apply (walks_Seq _ _ [46%N] [a]); [apply walks_Chr |].
          apply (walks_Seq _ _ [a] []); [apply walks_Cls, Ha | apply walks_Opt_none].
        - apply walks_Opt_some.
          apply (walks_Seq _ _ [46%N] [a; b]); [apply walks_Chr |].
          apply (walks_Seq _ _ [a] [b]); [apply walks_Cls, Ha |].
          apply walks_Opt_some, walks_Cls, Hb. }
      apply (walks_Seq _ _ [SP]); [apply walks_Chr |].
      apply walks_Seq; [| apply walks_Lit].
      destruct Hunit as [-> | (c & -> & Hc)];
        [apply walks_Opt_none | apply walks_Opt_some, walks_Cls, Hc]. }
    specialize (Hwalk 0 [] []). rewrite app_nil_r in Hwalk.
    destruct (exec_complete _ _ _ Hwalk at_end) as [res ->]; [| reflexivity].
    unfold at_end. cbn [rest]. eauto.
Qed.

Lemma rsplit1_nl_one_line (line : str) : one_line line -> rsplit1_nl line = (line, None).
Proof.
  induction line as [| c line IH]; [reflexivity |].
  unfold one_line. cbn [forallb]. intros H. apply andb_prop in H as [Hc H].
  apply negb_true_iff in Hc. cbn [rsplit1_nl]. rewrite (IH H), Hc. reflexivity.
Qed.

Lemma rsplit1_nl_last_line (head line : str) :
  one_line line -> rsplit1_nl (head ++ NL :: line) = (head, Some line).
Proof.
  intros Hline. induction head as [| c head IH].
  - cbn [app rsplit1_nl]. rewrite (rsplit1_nl_one_line line Hline). reflexivity.
  - cbn [app rsplit1_nl]. rewrite IH. reflexivity.
Qed.

(** X27: when the output, without its trailing newlines, ends in a line
    after at least one other line, [format_timeit_output] returns that
    last line alone, with no link and no external call, exactly when the
    line has the shape of a timing: a number, [ loops, best of ], a
    number, [: ], one digit with at most two more behind a point, a space
    and [sec], [msec], [nsec] or [usec], then [ per loop].  A last line
    of any other shape, such as one with two digits before the point or
    with [loop] in the singular, sends the whole output through
    [format_output]. *)
Theorem format_timeit_output_last_line
        (output head line : str) (env : Env) (w : World) :
  rstrip is_nl output = head ++ NL :: line ->
  one_line line ->
  (timing_shape line -> format_timeit_output output env w = (Ok (line, None), w))
  /\ (~ timing_shape line ->
      format_timeit_output output env w = format_output output env w).
Proof.
  intros Hout Hline. unfold format_timeit_output.
  rewrite Hout, (rsplit1_nl_last_line head line Hline).
  pose proof (timing_line_shape line) as Hshape. unfold is_timing_line in Hshape.
  destruct (fullmatch TIMEIT_OUTPUT_REGEX line).
  - split; [reflexivity |]. intros Hno. exfalso. apply Hno, Hshape. reflexivity.
  - split; [| reflexivity]. intros Hyes. apply Hshape in Hyes. discriminate Hyes.
Qed.

Lemma format_timeit_output_last_line_witness :
  format_timeit_output
    (u "warning" ++ [NL] ++ u "500000 loops, best of 5: 1.25 usec per loop" ++ [NL])
    Scenario.quiet Scenario.idle
  = (Ok (u "500000 loops, best of 5: 1.25 usec per loop", None), Scenario.idle).
Proof.
  apply (format_timeit_output_last_line
           (u "warning" ++ [NL] ++ u "500000 loops, best of 5: 1.25 usec per loop" ++ [NL])
           (u "warning") (u "500000 loops, best of 5: 1.25 usec per loop")
           Scenario.quiet Scenario.idle);
    [vm_compute; reflexivity | reflexivity |].
  exists (u "500000"), (u "5"), 49%N, [46%N; 50%N; 53%N], [117%N].
  split; [reflexivity |].
  split; [split; [discriminate | reflexivity] |].
  split; [split; [discriminate | reflexivity] |].
  split; [reflexivity |].
  split; [right; right; exists 50%N, 53%N; repeat split; reflexivity |].
  right. exists 117%N. split; reflexivity.
Defined.

(** ** The code of a match is trimmed

    The lazy run of the group [code] stops at the first place where
    only whitespace is left before the closing delimiter, and the blank
    lines before it are all taken by the part of the pattern in front
    of it. *)

(** The place that a lazy run comes to is the first where the rest of
    the pattern matches. *)
Lemma first_split_first (k : cont) (q : nat) (s : str) (cs : list (gname * str))
      (res : mstate) :
  first_split k q s cs = Some res ->
  exists a b,
    s = a ++ b /\ k (MState (q + length a) b cs) = Some res
    /\ forall a1 x a2, a = a1 ++ x :: a2 ->
                       k (MState (q + length a1) (x :: a2 ++ b) cs) = None.
Proof.
  revert q. induction s as [| c t IH]; intros q H.
  - cbn [first_split] in H. destruct (k (MState q [] cs)) eqn:Hk; [| discriminate H].
    cbn [orelse] in H. exists [], []. cbn [length]. rewrite Nat.add_0_r.
    split; [reflexivity |]. split; [congruence |].
    intros a1 x a2 Ha. destruct a1; discriminate Ha.
  - cbn [first_split] in H. destruct (k (MState q (c :: t) cs)) eqn:Hk.
    + cbn [orelse] in H. exists [], (c :: t). cbn [length]. rewrite Nat.add_0_r.
      split; [reflexivity |]. split; [congruence |].
      intros a1 x a2 Ha. destruct a1; discriminate Ha.
    + cbn [orelse] in H. destruct (IH _ H) as (a & b & -> & Hres & Hmin).
      exists (c :: a), b. cbn [length].
      replace (q + S (length a)) with (q + 1 + length a) by lia.
      split; [reflexivity |]. split; [exact Hres |].
      intros a1 x a2 Ha. destruct a1 as [| c' a1].
      * cbn [app] in Ha. injection Ha as <- <-. cbn [length].
        rewrite Nat.add_0_r. exact Hk.
      * cbn [app] in Ha. injection Ha as <- ->. cbn [length].
        replace (q + S (length a1)) with (q + 1 + length a1) by lia.
        apply Hmin. reflexivity.
Qed.

Lemma first_split_reaches (k : cont) (q : nat) (a b : str) (cs : list (gname * str)) :
  is_Some (k (MState (q + length a) b cs)) -> is_Some (first_split k q (a ++ b) cs).
Proof.
  revert q. induction a as [| c a IH]; intros q H.
  - cbn [length app] in *. rewrite Nat.add_0_r in H.
    destruct b; cbn [first_split]; apply is_Some_orelse_l; exact H.
  - cbn [app first_split]. apply is_Some_orelse_r. apply IH.
    cbn [length] in H. replace (q + 1 + length a) with (q + S (length a)) by lia.
    exact H.
Qed.

(** Whitespace and the closing delimiter: what a success says. *)
Lemma greedy_ws_backref_inv (q : nat) (s d : str) (cs : list (gname * str))
      (res : mstate) :
  group_get g_delim cs = Some d ->
  greedy_split isspace (exec (Backref g_delim) Some) q s cs = Some res ->
  caps res = cs
  /\ exists ws t, s = ws ++ d ++ t /\ forallb isspace ws = true.
Proof.
  intros Hget. revert q.
  assert (forall q s, exec (Backref g_delim) Some (MState q s cs) = Some res ->
                      caps res = cs
                      /\ exists ws t, s = ws ++ d ++ t /\ forallb isspace ws = true)
    as Hback.
  { intros q s' H. rewrite (exec_backref_end _ _ _ _ _ Hget) in H.
    destruct (startswith s' d) eqn:Hsw; [| discriminate H].
    injection H as <-. split; [reflexivity |].
    apply startswith_spec in Hsw as [r ->]. exists [], r. split; reflexivity. }
  induction s as [| c t IH]; intros q H.
  - cbn [greedy_split] in H. eapply Hback, H.
  - cbn [greedy_split] in H. destruct (isspace c) eqn:Hc; [| eapply Hback, H].
    destruct (greedy_split isspace (exec (Backref g_delim) Some) (q + 1) t cs) eqn:Hg.
    + cbn [orelse] in H. injection H as ->.
      destruct (IH _ Hg) as (Hcaps & ws & t' & -> & Hws).
      split; [exact Hcaps |]. exists (c :: ws), t'.
      split; [reflexivity |]. cbn [forallb]. rewrite Hc, Hws. reflexivity.
    + cbn [orelse] in H. eapply Hback, H.
Qed.

(** The code and the closing delimiter: the code that is found does not
    end in whitespace. *)
Lemma code_close_inv (q : nat) (s w : str) (cs : list (gname * str)) (res : mstate) :
  group_get g_delim cs = Some (BACKTICK :: w) ->
  exec (Seq (Group g_code (Star false (Cls any_char)))
            (Seq (Star true (Cls isspace)) (Backref g_delim)))
       Some (MState q s cs) = Some res ->
  exists code ws t,
    s = code ++ ws ++ (BACKTICK :: w) ++ t /\ forallb isspace ws = true
    /\ caps res = (g_code, code) :: cs
    /\ forall z, last code = Some z -> isspace z = false.
Proof.
  intros Hget H.
  change (exec (Seq (Group g_code (Star false (Cls any_char)))
                    (Seq (Star true (Cls isspace)) (Backref g_delim)))
               Some (MState q s cs))
    with (star_loop false (exec (Cls any_char))
            (fun st' => exec (Star true (Cls isspace)) (exec (Backref g_delim) Some)
                             (set_group g_code (MState q s cs) st'))
            (S (length s)) (MState q s cs)) in H.
  rewrite exec_lazy_any in H by lia.
  apply first_split_first in H as (a & b & -> & Hres & Hmin).
  unfold set_group in Hres. cbn [pos rest caps] in Hres.
  rewrite exec_ws_backref in Hres.
  replace (q + length a - q) with (length a) in Hres by lia.
  rewrite take_app_length in Hres.
  apply greedy_ws_backref_inv with (d := BACKTICK :: w) in Hres
    as (Hcaps & ws & t & -> & Hws); [| exact Hget].
  exists a, ws, t. split; [reflexivity |]. split; [exact Hws |].
  split; [exact Hcaps |].
  intros z Hz. destruct (isspace z) eqn:Hspace; [exfalso | reflexivity].
  apply last_Some in Hz as [a1 ->].
  specialize (Hmin a1 z [] eq_refl).
  unfold set_group in Hmin. cbn [pos rest caps app] in Hmin.
  rewrite exec_ws_backref in Hmin.
  change (z :: ws ++ (BACKTICK :: w) ++ t)
    with ((z :: ws) ++ (BACKTICK :: w) ++ t) in Hmin.
  rewrite (greedy_ws_fence _ (z :: ws) w t) in Hmin; [discriminate Hmin | | exact Hget].
  cbn [forallb]. rewrite Hspace, Hws. reflexivity.
Qed.

Lemma code_close_some (q : nat) (a ws w t : str) (cs : list (gname * str)) :
  group_get g_delim cs = Some (BACKTICK :: w) ->
  forallb isspace ws = true ->
  is_Some (exec (Seq (Group g_code (Star false (Cls any_char)))
                     (Seq (Star true (Cls isspace)) (Backref g_delim)))
                Some (MState q (a ++ ws ++ (BACKTICK :: w) ++ t) cs)).
Proof.
  intros Hget Hws.
  change (exec (Seq (Group g_code (Star false (Cls any_char)))
                    (Seq (Star true (Cls isspace)) (Backref g_delim)))
               Some (MState q (a ++ ws ++ (BACKTICK :: w) ++ t) cs))
    with (star_loop false (exec (Cls any_char))
            (fun st' => exec (Star true (Cls isspace)) (exec (Backref g_delim) Some)
                             (set_group g_code
                                (MState q (a ++ ws ++ (BACKTICK :: w) ++ t) cs) st'))
            (S (length (a ++ ws ++ (BACKTICK :: w) ++ t)))
            (MState q (a ++ ws ++ (BACKTICK :: w) ++ t) cs)).
  rewrite exec_lazy_any by lia.
  apply first_split_reaches.
  unfold set_group. cbn [pos rest caps].
  rewrite exec_ws_backref.
  rewrite (greedy_ws_fence _ ws w t) by (exact Hws || exact Hget).
  eauto.
Qed.

(** ** The blank lines before the code *)

Lemma blank_prefix_split (s t : str) :
  blank_prefix s = Some t -> exists pre, s = pre ++ t /\ forallb isspace pre = true.
Proof.
  revert t. induction s as [| c s IH]; intros t; cbn [blank_prefix]; [discriminate |].
  destruct (is_nl c) eqn:Hnl.
  - intros [= ->]. exists [c]. split; [reflexivity |].
    cbn [forallb]. rewrite (is_nl_isspace c Hnl). reflexivity.
  - destruct (is_sptab c) eqn:Hsp; [| discriminate].
    intros H. destruct (IH _ H) as (pre & -> & Hpre). exists (c :: pre).
    split; [reflexivity |]. cbn [forallb]. rewrite (is_sptab_isspace c Hsp), Hpre.
    reflexivity.
Qed.

Lemma skip_blank_lines_space (s : str) :
  exists pre, s = pre ++ skip_blank_lines s /\ forallb isspace pre = true.
Proof.
  remember (length s) as n eqn:Hn. revert s Hn.
  induction n as [n IH] using lt_wf_ind. intros s Hn.
  rewrite skip_blank_lines_unfold.
  destruct (blank_prefix s) as [t |] eqn:Hbp; [| exists []; split; reflexivity].
  destruct (IH (length t)) with (s := t) as (pre & Hpre & Hspace);
    [subst n; eapply blank_prefix_length, Hbp | reflexivity |].
  destruct (blank_prefix_split _ _ Hbp) as (pre' & -> & Hspace').
  exists (pre' ++ pre). rewrite <- app_assoc, <- Hpre. split; [reflexivity |].
  rewrite forallb_app, Hspace', Hspace. reflexivity.
Qed.

(** Where the rest of the pattern is tried after the blank lines: after
    some of them, with only whitespace up to the end of all of them. *)
Lemma blank_lines_inv (k : cont) (fuel q : nat) (s : str) (cs : list (gname * str))
      (res : mstate) :
  length s < fuel ->
  star_loop true (exec (Seq (Star true (Cls is_sptab)) (Chr NL))) k fuel (MState q s cs)
  = Some res ->
  exists x y,
    s = x ++ y ++ skip_blank_lines s /\ forallb isspace y = true
    /\ k (MState (q + length x) (y ++ skip_blank_lines s) cs) = Some res.
Proof.
  revert q s. induction fuel as [| fuel IH]; intros q s Hfuel H; [lia |].
  cbn [star_loop] in H.
  change (exec (Seq (Star true (Cls is_sptab)) (Chr NL)) ?kk (MState q s cs))
    with (star_loop true (exec (Cls is_sptab)) (exec (Chr NL) kk) (S (length s))
                    (MState q s cs)) in H.
  rewrite exec_blank_line in H by lia.
  assert (k (MState q s cs) = Some res ->
          exists x y,
            s = x ++ y ++ skip_blank_lines s /\ forallb isspace y = true
            /\ k (MState (q + length x) (y ++ skip_blank_lines s) cs) = Some res)
    as Hhere.
  { intros Hk. destruct (skip_blank_lines_space s) as (pre & Hpre & Hspace).
    exists [], pre. cbn [app length]. rewrite Nat.add_0_r, <- Hpre. auto. }
  destruct (blank_prefix s) as [t |] eqn:Hbp; [| exact (Hhere H)].
  pose proof (blank_prefix_length _ _ Hbp) as Hlt.
  cbn [rest] in H. rewrite (proj2 (Nat.ltb_lt _ _) Hlt) in H.
  destruct (star_loop true (exec (Seq (Star true (Cls is_sptab)) (Chr NL))) k fuel
                      (MState (q + (length s - length t)) t cs)) as [r |] eqn:Hloop;
    [| exact (Hhere H)].
  cbn [orelse] in H. injection H as ->.
  apply IH in Hloop as (x & y & Ht & Hspace & Hk); [| lia].
  rewrite (skip_blank_lines_unfold s), Hbp.
  destruct (blank_prefix_split _ _ Hbp) as (pre & Hs & _).
  exists (pre ++ x), y. split; [| split; [exact Hspace |]].
  - rewrite <- app_assoc, <- Ht. exact Hs.
  - rewrite length_app.
    replace (q + (length pre + length x)) with (q + (length s - length t) + length x);
      [exact Hk |].
    rewrite Hs, length_app. lia.
Qed.

(** Blank lines, the code and the closing delimiter: all the blank lines
    are passed over, and the code that is found is trimmed. *)
Lemma blank_code_close_inv (q : nat) (s w : str) (cs : list (gname * str))
      (res : mstate) :
  group_get g_delim cs = Some (BACKTICK :: w) ->
  exec (Seq blank_lines
            (Seq (Group g_code (Star false (Cls any_char)))
                 (Seq (Star true (Cls isspace)) (Backref g_delim))))
       Some (MState q s cs) = Some res ->
  exists code, caps res = (g_code, code) :: cs /\ trimmed code.
Proof.
  intros Hget H. unfold blank_lines in H.
  change (exec (Seq (Star true (Seq (Star true (Cls is_sptab)) (Chr NL))) ?r) Some
               (MState q s cs))
    with (star_loop true (exec (Seq (Star true (Cls is_sptab)) (Chr NL)))
                    (exec r Some) (S (length s)) (MState q s cs)) in H.
  pose proof H as H0.
  apply blank_lines_inv in H0 as (x & y & _ & Hy & Hk); [| lia].
  apply code_close_inv with (w := w) in Hk
    as (code & ws & t & Hsplit & Hws & _ & _); [| exact Hget].
  assert (forall q',
             is_Some (exec (Seq (Group g_code (Star false (Cls any_char)))
                                (Seq (Star true (Cls isspace)) (Backref g_delim)))
                           Some (MState q' (skip_blank_lines s) cs))) as Hfull.
  { intros q'. apply app_eq_app in Hsplit as [l [[Hycode Hrest] | [_ Hrest]]].
    - rewrite Hycode, forallb_app in Hy. apply andb_prop in Hy as [_ Hl].
      apply app_eq_app in Hrest as [l2 [[Hwsl Hrest] | [Hl2 Hrest]]].
      + rewrite Hrest.
        apply (code_close_some q' [] l2 w t cs Hget).
        rewrite Hwsl, forallb_app in Hws. apply andb_prop in Hws as [_ Hws]. exact Hws.
      + destruct l2 as [| c l2].
        * cbn [app] in Hrest. rewrite <- Hrest.
          apply (code_close_some q' [] [] w t cs Hget). reflexivity.
        * exfalso. cbn [app] in Hrest. injection Hrest as <- _.
          rewrite Hl2, forallb_app in Hl. apply andb_prop in Hl as [_ Hl].
          cbn [forallb] in Hl. apply andb_prop in Hl as [Hl _].
          apply isspace_not_backtick in Hl. rewrite N.eqb_refl in Hl. discriminate Hl.
    - rewrite Hrest. apply (code_close_some q' l ws w t cs Hget Hws). }
  rewrite exec_blank_lines_then in H by (lia || apply Hfull).
  apply code_close_inv with (w := w) in H
    as (code' & ws' & t' & Hsplit' & _ & Hcaps & Hlast); [| exact Hget].
  exists code'. split; [exact Hcaps |]. split; [| exact Hlast].
  apply (blank_prefix_app_None code' (ws' ++ (BACKTICK :: w) ++ t')).
  rewrite <- Hsplit'. apply skip_blank_lines_blank_prefix.
Qed.

(** The code of a match of the pattern for formatted code. *)
Lemma match_at_code_trimmed (p : nat) (s : str) (m : Match) :
  match_at FORMATTED_CODE_REGEX p s = Some m -> trimmed (code_of m).
Proof.
  unfold match_at. intros H.
  destruct (exec FORMATTED_CODE_REGEX Some (MState p s [])) as [res |] eqn:He;
    [| discriminate H].
  injection H as <-. unfold code_of, group. cbn [m_groups].
  unfold FORMATTED_CODE_REGEX in He.
  change (exec (Seq ?a (Seq ?b ?r)) Some (MState p s []))
    with (exec a (exec b (exec r Some)) (MState p s [])) in He.
  apply exec_sound in He as (s1 & Hdelim & He).
  apply exec_sound in He as (s2 & Hlang & He).
  apply Matches_group in Hdelim as (w & s1a & Halt & Hrest1 & _ & Hrest1a & Hcaps1).
  assert (exists w', w = BACKTICK :: w') as [w' ->].
  { apply delimiter_inv in Halt as (x & Hx). rewrite Hrest1a in Hx.
    rewrite Hx in Hrest1.
    change (BACKTICK :: x ++ rest s1) with ((BACKTICK :: x) ++ rest s1) in Hrest1.
    apply app_inv_tail in Hrest1. eauto. }
  assert (group_get g_delim (caps s2) = Some (BACKTICK :: w')) as Hget.
  { rewrite (Matches_caps_other _ _ _ Hlang) by reflexivity.
    rewrite Hcaps1. reflexivity. }
  destruct s2 as [q2 r2 cs2]. cbn [caps] in Hget.
  apply (blank_code_close_inv q2 r2 w' cs2 res Hget) in He as (code & -> & Hcode).
  cbn [group_get gname_eqb default]. exact Hcode.
Qed.

Lemma dedent_trimmed (code : str) : trimmed code -> trimmed (dedent code).
Proof.
  intros [Hblank Hlast]. split; [apply dedent_blank_prefix, Hblank |].
  intros z Hz. destruct (last code) as [z' |] eqn:Hcode.
  - pose proof (Hlast z' eq_refl) as Hz'.
    rewrite (dedent_last code z' Hcode Hz') in Hz. injection Hz as <-. exact Hz'.
  - apply last_None in Hcode. subst code. rewrite dedent_nil in Hz. discriminate Hz.
Qed.

(** X28: when the text holds at most one fenced block, the code that
    [prepare_input] returns is trimmed: it does not begin with a blank
    line (a line that is empty or holds spaces and tabs only) and it
    does not end in whitespace.  This holds whichever way the code was
    found: in a fenced block, as inline code, or as the whole text. *)
Theorem prepare_input_trimmed (text code : str) :
  prepare_input text = Some code ->
  length (fenced_blocks text) <= 1 ->
  trimmed code.
Proof.
  intros H Hone. rewrite prepare_input_cases in H. injection H as <-.
  apply dedent_trimmed.
  assert (forall m, In m (finditer FORMATTED_CODE_REGEX text) -> trimmed (code_of m))
    as Hmatch.
  { intros m Hm. apply scan_elements in Hm as (p & t & Hm).
    exact (match_at_code_trimmed p t m Hm). }
  destruct (finditer FORMATTED_CODE_REGEX text) as [| first found] eqn:Hfound.
  - split; [apply clean_blank_prefix | apply rstrip_last].
  - rewrite (proj2 (Nat.ltb_ge _ _) Hone).
    destruct (fenced_blocks text) as [| b blocks] eqn:Hblocks.
    + apply Hmatch. left. reflexivity.
    + apply Hmatch. rewrite <- Hfound.
      assert (In b (fenced_blocks text)) as Hb by (rewrite Hblocks; left; reflexivity).
      unfold fenced_blocks in Hb. apply List.filter_In in Hb as [Hb _]. exact Hb.
Qed.

Lemma prepare_input_trimmed_witness :
  trimmed (u "print(1)").
Proof.
  apply (prepare_input_trimmed
           (u "Run this: ```py" ++ [NL; NL] ++ u "  print(1)  " ++ [NL] ++ u "``` please")
           (u "print(1)"));
    [vm_compute; reflexivity | vm_compute; lia].
Defined.
